(** * cscope-code: the build queue, the query driver and the result parser

    A shallow embedding of [src/cscope/cscope.ts] (class [Cscope]: the
    two-slot build queue, [build], [query]) and of the result parser
    ([CscopeItem], [CscopeQuery.setResults]), followed by the properties
    of the specification that were checked against them.

    Conventions.
    - A JavaScript string is a [string]; the statements are about strings
      of ASCII code units.
    - A JavaScript number that holds an integer is a [Z]; [NaN] is the
      [None] of [option Z].  Integers are exact below 2^53.
    - A promise is a cell of a store (the field [promises] of the
      object); a reference to it is its index.  What the event loop does
      to the object is a list of [event]s: a process is an event that
      ends it, so a process that never ends is a list without that event.
    - What the code asks of the editor, of Node and of the runtime is a
      parameter ([Host], [ItemClass], [IConfig], [IEnv]); the examples
      instantiate them.
    - The calls of [cp.spawn] are kept in a field [spawns] that the
      class does not have, so that statements can speak of them. *)

From Stdlib Require Import ZArith Lia Bool List Ascii String DecimalString.
From stdpp Require Import list strings.
Import ListNotations.
Open Scope Z_scope.

(** ** Part I. The embedding *)

(** *** JavaScript strings and numbers *)

Module JS.

Definition length (s : string) : Z := Z.of_nat (String.length s).

Fixpoint drop (n : nat) (s : string) : string :=
  match n, s with
  | O, _ => s
  | S n', String _ s' => drop n' s'
  | S _, EmptyString => EmptyString
  end.

Fixpoint take (n : nat) (s : string) : string :=
  match n, s with
  | O, _ => EmptyString
  | S n', String c s' => String c (take n' s')
  | S _, EmptyString => EmptyString
  end.

(** A relative index of [String.prototype.slice]: negative counts from
    the end, and the result is clamped to [0, len]. *)
Definition clamp (len k : Z) : Z :=
  if k <? 0 then Z.max (len + k) 0 else Z.min k len.

(** [s.slice(start, end)]; [end_ = None] is [s.slice(start)]. *)
Definition slice (s : string) (start : Z) (end_ : option Z) : string :=
  let len := length s in
  let from := clamp len start in
  let to := match end_ with Some e => clamp len e | None => len end in
  take (Z.to_nat (to - from)) (drop (Z.to_nat from) s).

Fixpoint has_char (c : ascii) (s : string) : bool :=
  match s with
  | EmptyString => false
  | String d s' => Ascii.eqb c d || has_char c s'
  end.

(** The least offset [i] with [pat] a prefix of [drop i s], counted from [k]. *)
Fixpoint find_from (pat s : string) (k : nat) : option nat :=
  if String.prefix pat s then Some k
  else match s with
       | EmptyString => None
       | String _ s' => find_from pat s' (S k)
       end.

(** [s.indexOf(pat, position)]: the position is clamped to [0, len], and
    the answer is -1 when there is no occurrence at or after it. *)
Definition indexOf (s pat : string) (position : Z) : Z :=
  let start := Z.to_nat (Z.min (Z.max position 0) (length s)) in
  match find_from pat (drop start s) start with
  | Some i => Z.of_nat i
  | None => -1
  end.

(** White space and line terminators of [trim] and [parseInt], among the
    ASCII code units: TAB, LF, VT, FF, CR and SP. *)
Definition is_ws (c : ascii) : bool :=
  let n := nat_of_ascii c in
  ((9 <=? n)%nat && (n <=? 13)%nat) || (n =? 32)%nat.

Fixpoint trimStart (s : string) : string :=
  match s with
  | String c s' => if is_ws c then trimStart s' else s
  | EmptyString => EmptyString
  end.

Fixpoint trimEnd (s : string) : string :=
  match s with
  | String c s' =>
      match trimEnd s' with
      | EmptyString => if is_ws c then EmptyString else String c EmptyString
      | t => String c t
      end
  | EmptyString => EmptyString
  end.

Definition trim (s : string) : string := trimEnd (trimStart s).

(** The value of a code unit as a digit of [parseInt], when it has one
    below the radix. *)
Definition digit (radix : Z) (c : ascii) : option Z :=
  let n := Z.of_nat (nat_of_ascii c) in
  let v := if (48 <=? n) && (n <=? 57) then Some (n - 48)
           else if (97 <=? n) && (n <=? 122) then Some (n - 87)
           else if (65 <=? n) && (n <=? 90) then Some (n - 55)
           else None in
  match v with
  | Some d => if d <? radix then Some d else None
  | None => None
  end.

(** The longest prefix of digits, read in the radix; [acc] is what has
    been read so far, [None] while no digit has been seen. *)
Fixpoint digits (radix : Z) (s : string) (acc : option Z) : option Z :=
  match s with
  | String c s' =>
      match digit radix c with
      | Some d => digits radix s' (Some (match acc with Some a => a * radix + d | None => d end))
      | None => acc
      end
  | EmptyString => acc
  end.

(** [parseInt(s)] with no radix: leading white space, an optional sign,
    an optional [0x]/[0X], then the longest run of digits; [NaN] when
    that run is empty. *)
Definition parseInt (s : string) : option Z :=
  let s1 := trimStart s in
  let '(sign, s2) :=
    match s1 with
    | String "-"%char r => (-1, r)
    | String "+"%char r => (1, r)
    | _ => (1, s1)
    end in
  let '(radix, s3) :=
    match s2 with
    | String "0"%char (String x r) =>
        if (Ascii.eqb x "x" || Ascii.eqb x "X")%char then (16, r) else (10, s2)
    | _ => (10, s2)
    end in
  option_map (Z.mul sign) (digits radix s3 None).

(** [n - 1] on numbers: [NaN - 1] is [NaN]. *)
Definition minus1 (n : option Z) : option Z := option_map (fun k => k - 1) n.

(** [Number.prototype.toString] of an integer. *)
Definition toString (n : Z) : string := NilZero.string_of_int (Z.to_int n).

(** The line feed, ["\n"]. *)
Definition LF : string := String (ascii_of_nat 10) EmptyString.

(** [a.join(sep)] on an array of strings. *)
Fixpoint join (sep : string) (a : list string) : string :=
  match a with
  | [] => EmptyString
  | [x] => x
  | x :: rest => x +:+ sep +:+ join sep rest
  end.

(** [s.split('\n')]: never empty, the last piece is what follows the
    last line feed. *)
Fixpoint split_lines (s : string) : list string :=
  match s with
  | EmptyString => [EmptyString]
  | String c s' =>
      if Ascii.eqb c (ascii_of_nat 10) then EmptyString :: split_lines s'
      else match split_lines s' with
           | x :: xs => String c x :: xs
           | [] => [String c EmptyString]
           end
  end.

End JS.

(** *** The runtime's pattern search, on a fragment of the pattern language

    [text.search(p)] with a string [p] searches for the regular
    expression [new RegExp(p)].  The fragment modelled here: ordinary
    characters, [.], the assertions [^] and [$], an escaped syntax
    character, and the quantifiers [*], [+], [?] (also lazy) on a single
    character or dot.  A pattern outside the fragment gets no answer
    ([None]) unless it is certainly refused by the runtime. *)

Module RegExp.

Inductive atom := Char (c : ascii) | AnyChar.
Inductive quantifier := One | Opt | Star | Plus.
Inductive term := Atom (a : atom) (q : quantifier) | Bol | Eol.

(** What compiling a pattern gives. *)
Inductive compiled := Pattern (ts : list term) | Invalid.

Definition is_syntax_char (c : ascii) : bool :=
  existsb (Ascii.eqb c) (list_ascii_of_string "^$\.*+?()[]{}|/").

(** [parse acc last p]: [acc] holds the terms read so far, most recent
    first; [last] says whether a quantifier may follow (the previous
    term is an unquantified atom). *)
Fixpoint parse (acc : list term) (last : bool) (p : string) {struct p} : option compiled :=
  match p with
  | EmptyString => Some (Pattern (rev acc))
  | String c p' =>
      if Ascii.eqb c "^" then parse (Bol :: acc) false p'
      else if Ascii.eqb c "$" then parse (Eol :: acc) false p'
      else if Ascii.eqb c "." then parse (Atom AnyChar One :: acc) true p'
      else if Ascii.eqb c "\" then
        match p' with
        | EmptyString => Some Invalid
        | String d p'' =>
            if is_syntax_char d then parse (Atom (Char d) One :: acc) true p''
            else None
        end
      else if (Ascii.eqb c "*" || Ascii.eqb c "+" || Ascii.eqb c "?")%bool then
        match last, acc with
        | true, Atom a One :: acc' =>
            let q := if Ascii.eqb c "*" then Star else if Ascii.eqb c "+" then Plus else Opt in
            match p' with
            | String "?" p'' => parse (Atom a q :: acc') false p''
            | _ => parse (Atom a q :: acc') false p'
            end
        | _, _ => Some Invalid
        end
      else if Ascii.eqb c "(" then
        if JS.has_char ")" p' then None else Some Invalid
      else if Ascii.eqb c ")" then Some Invalid
      else if (Ascii.eqb c "[" || Ascii.eqb c "{" || Ascii.eqb c "|")%bool then None
      else parse (Atom (Char c) One :: acc) true p'
  end.

Definition compile (p : string) : option compiled := parse [] false p.

Definition atom_ok (a : atom) (c : ascii) : bool :=
  match a with
  | Char d => Ascii.eqb c d
  | AnyChar => negb (Ascii.eqb c (ascii_of_nat 10) || Ascii.eqb c (ascii_of_nat 13))
  end.

(** Whether the terms match some prefix of [s]; [bol] says whether [s]
    starts at index 0 of the text. *)
Fixpoint match_here (ts : list term) (bol : bool) (s : string) {struct ts} : bool :=
  match ts with
  | [] => true
  | Bol :: ts' => bol && match_here ts' bol s
  | Eol :: ts' => match s with EmptyString => match_here ts' bol s | String _ _ => false end
  | Atom a q :: ts' =>
      let one (k : string -> bool) (s : string) :=
        match s with
        | String c s' => atom_ok a c && k s'
        | EmptyString => false
        end in
      let star :=
        fix star (bol : bool) (s : string) {struct s} : bool :=
          match_here ts' bol s ||
          match s with
          | String c s' => atom_ok a c && star false s'
          | EmptyString => false
          end in
      match q with
      | One => one (match_here ts' false) s
      | Opt => match_here ts' bol s || one (match_here ts' false) s
      | Star => star bol s
      | Plus => one (star false) s
      end
  end.

(** The index of the first match at or after [i], where [s] is the text
    from index [i] on. *)
Fixpoint first_match (ts : list term) (i : nat) (s : string) : option nat :=
  if match_here ts (Nat.eqb i 0) s then Some i
  else match s with
       | EmptyString => None
       | String _ s' => first_match ts (S i) s'
       end.

End RegExp.

(** What [text.search(p)] does: an index, -1, or a [SyntaxError] thrown
    when [p] is not a pattern. *)
Inductive SearchResult := Found (i : nat) | NotFound | SyntaxError.

Definition RegExp_search (text p : string) : option SearchResult :=
  match RegExp.compile p with
  | Some (RegExp.Pattern ts) =>
      Some (match RegExp.first_match ts 0 text with Some i => Found i | None => NotFound end)
  | Some RegExp.Invalid => Some SyntaxError
  | None => None
  end.

(** *** Node's [path.posix] *)

Module Posix.

Definition isAbsolute (p : string) : bool :=
  match p with String "/" _ => true | _ => false end.

Fixpoint segments (s : string) : list string :=
  match s with
  | EmptyString => [EmptyString]
  | String c s' =>
      if Ascii.eqb c "/" then EmptyString :: segments s'
      else match segments s' with
           | x :: xs => String c x :: xs
           | [] => [String c EmptyString]
           end
  end.

(** One segment against the segments kept so far (most recent first). *)
Definition push (allowAboveRoot : bool) (kept : list string) (seg : string) : list string :=
  if (String.eqb seg "" || String.eqb seg ".")%bool then kept
  else if String.eqb seg ".." then
    match kept with
    | top :: below => if String.eqb top ".." then seg :: kept else below
    | [] => if allowAboveRoot then [seg] else []
    end
  else seg :: kept.

Definition ends_with_slash (p : string) : bool :=
  match rev (segments p) with
  | last :: _ :: _ => String.eqb last ""
  | _ => false
  end.

Definition normalize (p : string) : string :=
  if String.eqb p "" then "." else
  let abs := isAbsolute p in
  let trailing := ends_with_slash p in
  let body := JS.join "/" (rev (fold_left (push (negb abs)) (segments p) [])) in
  if String.eqb body "" then
    (if abs then "/" else if trailing then "./" else ".")
  else
    let body := if trailing then body +:+ "/" else body in
    if abs then "/" +:+ body else body.

(** [path.posix.join(a, b)]. *)
Definition join (a b : string) : string :=
  let joined :=
    if String.eqb a "" then b
    else if String.eqb b "" then a
    else a +:+ "/" +:+ b in
  if String.eqb joined "" then "." else normalize joined.

End Posix.

(** *** The result parser: [CscopeItem] and [CscopeQuery] *)

(** What the parser asks of the editor, of Node and of the runtime.  None
    of it is code of the repository, so it is taken as given. *)
Record Host := {
  (** [vscode.workspace.rootPath], [None] when undefined. *)
  workspace_rootPath : option string;
  (** [path.isAbsolute], which depends on the platform. *)
  path_isAbsolute : string -> bool;
  path_posix_join : string -> string -> string;
  (** [vscode.workspace.openTextDocument(vscode.Uri.file(p))]: the lines
      of the document, or [None] when the promise is rejected. *)
  openTextDocument : string -> option (list string);
  (** [vscode.Uri.file(p).fsPath]. *)
  Uri_fsPath : string -> string;
  (** [text.search(p)]. *)
  String_search : string -> string -> SearchResult;
}.

Record Position := { line : Z; character : Z }.
Record Range := { start : Position; end_ : Position }.

(** [new vscode.Range(startLine, startCharacter, endLine, endCharacter)],
    for a start that is not after the end (the constructor would swap
    them) and numbers that are not negative (it would throw). *)
Definition new_Range (l1 c1 l2 c2 : Z) : Range :=
  {| start := {| line := l1; character := c1 |};
     end_ := {| line := l2; character := c2 |} |}.

Inductive Uri := Uri_file (path : string).
Definition fsPath (h : Host) (u : Uri) : string :=
  let 'Uri_file p := u in Uri_fsPath h p.

Inductive SymbolKind := SymbolKind_Function.

Record CscopeItem := {
  rest : string;
  text : string;
  label : string;
  detail : string;
  kind : SymbolKind;
  name : string;
  range : Range;
  selectionRange : Range;
  uri : Uri;
}.

(** A string in a condition: [undefined] and the empty string are falsy. *)
Definition truthy (s : option string) : bool :=
  match s with
  | Some (String _ _) => true
  | _ => false
  end.

(** The constructor of [CscopeItem]; [substring(offset)] with an offset
    that is not negative is [slice(offset)]. *)
Definition new_CscopeItem (h : Host) (uri : Uri) (func : string) (range : Range)
    (rest text : string) : CscopeItem :=
  let offset :=
    if truthy (workspace_rootPath h)
    then JS.length (default ""%string (workspace_rootPath h)) + 1
    else 0 in
  {| rest := rest;
     text := text;
     label := func +:+ " : " +:+ rest;
     detail := JS.slice (fsPath h uri) offset None +:+ ":"
               +:+ JS.toString (line (start range)) +:+ ":"
               +:+ JS.toString (character (start range));
     kind := SymbolKind_Function;
     name := func;
     range := range;
     selectionRange := range;
     uri := uri |}.

Definition getUri (it : CscopeItem) : Uri := uri it.
Definition getFile (h : Host) (it : CscopeItem) : string := fsPath h (uri it).
Definition getFunction (it : CscopeItem) : string := name it.
Definition getRange (it : CscopeItem) : Range := range it.
Definition getLineNumber (it : CscopeItem) : Z := line (start (range it)).
Definition getColumnNumber (it : CscopeItem) : Z := character (start (range it)).
Definition getLine (it : CscopeItem) : string := rest it.

Record CscopeQuery := {
  type : string;
  pattern : string;
  results : list CscopeItem;
}.

Definition new_CscopeQuery (type pattern : string) : CscopeQuery :=
  {| type := type; pattern := pattern; results := [] |}.


Definition getFullPath (h : Host) (file : string) : string :=
  if path_isAbsolute h file then file
  else
    let root := if truthy (workspace_rootPath h)
                then default ""%string (workspace_rootPath h) else ""%string in
    path_posix_join h root file.

(** [f.lineAt(lnum).text]: the editor refuses ([None]) a line that is
    not an integer of [0, lineCount). *)
Definition lineAt (doc : list string) (lnum : option Z) : option string :=
  match lnum with
  | Some n => if (0 <=? n) && (n <? Z.of_nat (List.length doc)) then doc !! Z.to_nat n else None
  | None => None
  end.

(** The four fields of a line, as the first lines of the loop body of
    [setResults] cut them: [(file, func, lnum, rest)]. *)
Definition fields (h : Host) (line : string) : string * string * option Z * string :=
  let file_last := JS.indexOf line " " 0 in
  let func_last := JS.indexOf line " " (file_last + 1) in
  let line_last := JS.indexOf line " " (func_last + 1) in
  let file := getFullPath h (JS.slice line 0 (Some file_last)) in
  let func := JS.slice line (file_last + 1) (Some func_last) in
  let lnum := JS.minus1 (JS.parseInt (JS.slice line (func_last + 1) (Some line_last))) in
  let rest := JS.slice line (line_last + 1) None in
  (file, func, lnum, rest).

(** The double quote. *)
Definition dquote : string := String (ascii_of_nat 34) EmptyString.

(** What one turn of the loop of [setResults] does with its line. *)
Inductive lineOutcome :=
  | Ignored                      (* shorter than 3: [continue] *)
  | Pushed (it : CscopeItem)     (* [this.results.push(...)] *)
  | Warned (msg : string).       (* the [catch]: [showWarningMessage(msg)] *)

(** The [try] block: [None] when something in it throws, which is when
    the document does not open, when the editor refuses the line, or
    when the search refuses its pattern.  The numbers given to
    [vscode.Range] are not negative here, and its start is not after its
    end. *)
Definition resolve (h : Host) (q : CscopeQuery) (file func : string) (lnum : option Z)
    (rest : string) : option CscopeItem :=
  let uri := Uri_file file in
  match openTextDocument h file with
  | None => None
  | Some f =>
      match lineAt f lnum, lnum with
      | Some text, Some lnum =>
          let '(found, len) :=
            if String.eqb (type q) "callee"
            then (String_search h text func, JS.length func)
            else (String_search h text (pattern q), JS.length (pattern q)) in
          match found with
          | SyntaxError => None
          | _ =>
              let cnum := match found with Found i => Z.of_nat i | _ => -1 end in
              let '(cnum, len) := if cnum =? -1 then (0, 0) else (cnum, len) in
              let range := new_Range lnum cnum lnum (cnum + len) in
              Some (new_CscopeItem h uri func range rest text)
          end
      | _, _ => None
      end
  end.

(** The loop body of [setResults]. *)
Definition setResults_line (h : Host) (q : CscopeQuery) (line : string) : lineOutcome :=
  if JS.length line <? 3 then Ignored
  else
    let '(file, func, lnum, rest) := fields h line in
    match resolve h q file func lnum rest with
    | Some it => Pushed it
    | None => Warned ("Could not open " +:+ dquote +:+ file +:+ dquote +:+ ".")
    end.

(** The state [setResults] works on: the query object and the warnings
    shown so far. *)
Definition apply_outcome (st : CscopeQuery * list string) (o : lineOutcome)
    : CscopeQuery * list string :=
  let '(q, warnings) := st in
  match o with
  | Ignored => (q, warnings)
  | Pushed it => ({| type := type q; pattern := pattern q; results := results q ++ [it] |}, warnings)
  | Warned msg => (q, warnings ++ [msg])
  end.

Definition setResults_lines (h : Host) (lines : list string) (st : CscopeQuery * list string)
    : CscopeQuery * list string :=
  fold_left (fun st line => apply_outcome st (setResults_line h (fst st) line)) lines st.

Definition setResults (h : Host) (q : CscopeQuery) (output : string) : CscopeQuery * list string :=
  setResults_lines h (JS.split_lines output) (q, []).

(** A table of documents, by path. *)
Definition lookup_doc (docs : list (string * list string)) (p : string) : option (list string) :=
  option_map snd (find (fun d => String.eqb (fst d) p) docs).

Definition is_letter (c : ascii) : bool :=
  let n := nat_of_ascii c in
  ((65 <=? n)%nat && (n <=? 90)%nat) || ((97 <=? n)%nat && (n <=? 122)%nat).

Definition toLowerCase (c : ascii) : ascii :=
  let n := nat_of_ascii c in
  if ((65 <=? n)%nat && (n <=? 90)%nat) then ascii_of_nat (n + 32) else c.

(** [vscode.Uri.file(p)] where paths are POSIX paths: the authority and
    the path of the uri.  Two leading slashes start the authority of a
    UNC share, which ends at the next slash; a path that does not start
    with a slash is given one.  ([Uri.file] refuses a path that is left
    with two leading slashes and no authority; no statement below
    evaluates it there.) *)
Definition Uri_file_parts (p : string) : string * string :=
  let '(authority, path) :=
    match p with
    | String "/" (String "/" after) =>
        match JS.find_from "/" after 0 with
        | Some idx => (JS.take idx after, JS.drop idx after)
        | None => (after, "/"%string)
        end
    | _ => (""%string, p)
    end in
  (authority,
   match path with
   | EmptyString => "/"%string
   | String "/" _ => path
   | _ => ("/" +:+ path)%string
   end).

(** [vscode.Uri.file(p).fsPath] where paths are POSIX paths: the
    authority is put back before the path; a path that starts like
    [/c:] is taken for a drive path, and gives up its slash and the
    case of its letter. *)
Definition Uri_file_fsPath (p : string) : string :=
  let '(authority, path) := Uri_file_parts p in
  if negb (String.eqb authority "") && (1 <? JS.length path) then
    ("//" +:+ authority +:+ path)%string
  else
    match path with
    | String "/" (String c (String ":" after)) =>
        if is_letter c then String (toLowerCase c) (String ":" after) else path
    | _ => path
    end.

(** A POSIX host over a table of documents, by file-system path.  The
    search is the runtime's where the pattern is of the modelled
    fragment, and [search] elsewhere. *)
Definition posix_host (root : option string) (docs : list (string * list string))
    (search : string -> string -> SearchResult) : Host :=
  {| workspace_rootPath := root;
     path_isAbsolute := Posix.isAbsolute;
     path_posix_join := Posix.join;
     openTextDocument := fun p => lookup_doc docs (Uri_file_fsPath p);
     Uri_fsPath := Uri_file_fsPath;
     String_search := fun text p =>
       match RegExp_search text p with
       | Some r => r
       | None => search text p
       end |}.

(** *** [cscope.ts]: the collaborators *)

(** The own properties of the frozen [QueryType] object, in order. *)
Definition QueryType : list (string * string) :=
  [ ("symbol", "-0"); ("definition", "-1"); ("callee", "-2"); ("caller", "-3");
    ("text", "-4"); ("egrep", "-5"); ("file", "-6"); ("include", "-7");
    ("set", "-8") ]%string.

(** What the frozen object inherits: the names of [Object.prototype]. *)
Definition Object_prototype : list string :=
  [ "constructor"; "__defineGetter__"; "__defineSetter__"; "hasOwnProperty";
    "__lookupGetter__"; "__lookupSetter__"; "isPrototypeOf"; "propertyIsEnumerable";
    "toString"; "valueOf"; "__proto__"; "toLocaleString" ]%string.

(** What [QueryType[type]] can be: a string, [undefined], or the member
    of [Object.prototype] of that name. *)
Inductive jsvalue :=
  | JString (s : string)
  | JUndefined
  | JInherited (name : string).

(** [QueryType[type]]: an own property of the object, or else what the
    prototype has under that name. *)
Definition QueryType_get (type : string) : jsvalue :=
  match find (fun kv => String.eqb (fst kv) type) QueryType with
  | Some kv => JString (snd kv)
  | None => if existsb (String.eqb type) Object_prototype then JInherited type else JUndefined
  end.

(** An element as [Array.prototype.join] prints it: [undefined] is the
    empty string; an inherited member is the prototype object itself
    for [__proto__], and a built-in function otherwise, whose text is
    written as V8 writes it. *)
Definition join_element (v : jsvalue) : string :=
  match v with
  | JString s => s
  | JUndefined => ""
  | JInherited name =>
      if String.eqb name "__proto__" then "[object Object]"
      else "function " +:+ (if String.eqb name "constructor" then "Object" else name)
           +:+ "() { [native code] }"
  end%string.

Record IConfig := { get : string -> string }.
Record IEnv := { getAllDirectories : list string; getCurrentDirectory : string }.

(** A call of [ILog.info] or [ILog.err], its arguments as strings. *)
Inductive logEntry := log_info (args : list string) | log_err (args : list string).

(** The [Item] class and [path.relative], which [querySingle] calls;
    [new_Item] gives [inr e] when the constructor throws [e]. *)
Record ItemClass := {
  IItem : Type;
  new_Item : string -> string -> IItem + string;
  path_relative : string -> string -> string;
}.

(** How a spawned process ends: the ['close'] event with the exit code
    ([None] for [null]) after all of stdout and stderr, or the ['error']
    event with [error.toString()]. *)
Inductive exit :=
  | Exit (code : option Z) (out err : string)
  | LaunchError (error : string).

(** How the spawn of a build goes: [cp.spawn] returns and the process
    ends as [x]; or [cp.spawn] throws, as Node does for an empty tool
    path, and the callback of [then] ends there with no handler
    installed. *)
Inductive spawned :=
  | Process (x : exit)
  | SpawnThrows (error : string).

(** The same for a query process, whose stdout arrives as the lines of
    the ['line'] events; here [cp.spawn] throws in the executor of the
    promise, which is then rejected with the error. *)
Inductive queryExit :=
  | QueryExit (code : option Z) (lines : list string) (err : string)
  | QueryLaunchError (error : string)
  | QuerySpawnThrows (error : string).

(** [`${code}`]. *)
Definition show_code (code : option Z) : string :=
  match code with Some n => JS.toString n | None => "null" end.

(** [code != 0]. *)
Definition code_ne_0 (code : option Z) : bool :=
  match code with Some 0 => false | _ => true end.

(** *** Promises *)

(** A reference to a promise: its index in the store. *)
Abbreviation ref := nat (only parsing).

Inductive settlement := Fulfilled (value : string) | Rejected (reason : string).

(** The life of the promise that [buildSingle] creates: its executor has
    called [Promise.all(pendingPromises).then(...)] and waits; the
    callback has run up to [cp.spawn] (the process is spawned, unless
    [cp.spawn] threw); [resolve] or [reject] has been called. *)
Inductive phase := Waiting | Running | Settled (r : settlement).

Inductive promise :=
  | Promise_resolve (value : string)
  | Promise_build (cwd : string) (pendingPromises : list ref) (ph : phase).

Definition settlement_of (p : promise) : option settlement :=
  match p with
  | Promise_resolve v => Some (Fulfilled v)
  | Promise_build _ _ (Settled r) => Some r
  | Promise_build _ _ _ => None
  end.

(** [promiseState(p)]: the race against the fresh object [t] is won by
    [p] exactly when [p] is settled already; a value that is no promise
    wins it too. *)
Definition promiseState (heap : list promise) (p : ref) : string :=
  match heap !! p with
  | Some pr =>
      match settlement_of pr with
      | None => "pending"
      | Some (Fulfilled _) => "fulfilled"
      | Some (Rejected _) => "rejected"
      end
  | None => "fulfilled"
  end.

(** What a callback hands back to [Array.prototype.filter]. *)
Inductive value := Boolean (b : bool) | PromiseOf (v : value).

Definition ToBoolean (v : value) : bool :=
  match v with
  | Boolean b => b
  | PromiseOf _ => true
  end.

(** [async (p) => await promiseState(p) == 'pending']: an async function
    returns a promise of what its body returns. *)
Definition is_pending_async (heap : list promise) (p : ref) : value :=
  PromiseOf (Boolean (String.eqb (promiseState heap p) "pending")).

(** *** The class [Cscope] *)

Record Cscope := {
  config : IConfig;
  log : list logEntry;
  env : IEnv;
  buildCmd : string;
  queryCmd : string;
  buildQueue : list ref;
  (** the promise objects, by reference *)
  promises : list promise;
  (** the calls of [cp.spawn] made so far: the command, the arguments
      and the working directory of each *)
  spawns : list (string * list jsvalue * string);
}.

Definition add_log (entries : list logEntry) (c : Cscope) : Cscope :=
  {| config := config c; log := log c ++ entries; env := env c;
     buildCmd := buildCmd c; queryCmd := queryCmd c;
     buildQueue := buildQueue c; promises := promises c; spawns := spawns c |}.

Definition set_buildCmd (cmd : string) (c : Cscope) : Cscope :=
  {| config := config c; log := log c; env := env c;
     buildCmd := cmd; queryCmd := queryCmd c;
     buildQueue := buildQueue c; promises := promises c; spawns := spawns c |}.

Definition set_queryCmd (cmd : string) (c : Cscope) : Cscope :=
  {| config := config c; log := log c; env := env c;
     buildCmd := buildCmd c; queryCmd := cmd;
     buildQueue := buildQueue c; promises := promises c; spawns := spawns c |}.

(** [cp.spawn(cmd, args, { cwd: cwd })]. *)
Definition add_spawn (cmd : string) (args : list jsvalue) (cwd : string) (c : Cscope) : Cscope :=
  {| config := config c; log := log c; env := env c;
     buildCmd := buildCmd c; queryCmd := queryCmd c;
     buildQueue := buildQueue c; promises := promises c;
     spawns := spawns c ++ [(cmd, args, cwd)] |}.

Definition set_promise (p : ref) (pr : promise) (c : Cscope) : Cscope :=
  {| config := config c; log := log c; env := env c;
     buildCmd := buildCmd c; queryCmd := queryCmd c;
     buildQueue := buildQueue c; promises := <[p := pr]> (promises c);
     spawns := spawns c |}.

(** [a[index] = x]: an element of the array is replaced, and a write
    past its end makes the array longer.  (The loop of [buildSingle]
    leaves [index] at most at the length it has read, and the array
    never gets shorter, so a write past the end is a write at the end:
    no holes are modelled.) *)
Definition array_set (index : nat) (x : ref) (a : list ref) : list ref :=
  if (index <? List.length a)%nat then <[index := x]> a else a ++ [x].

(** [this.buildQueue[index] = new Promise(...)]. *)
Definition store_new (index : nat) (pr : promise) (c : Cscope) : Cscope :=
  {| config := config c; log := log c; env := env c;
     buildCmd := buildCmd c; queryCmd := queryCmd c;
     buildQueue := array_set index (List.length (promises c)) (buildQueue c);
     promises := promises c ++ [pr]; spawns := spawns c |}.

Definition constructor (config : IConfig) (env : IEnv) : Cscope :=
  {| config := config; log := []; env := env;
     buildCmd := ""; queryCmd := "";
     buildQueue := [0; 1]%nat;
     promises := [Promise_resolve ""; Promise_resolve ""];
     spawns := [] |}.

Definition getBuildCmd (c : Cscope) : string := buildCmd c.
Definition getQueryCmd (c : Cscope) : string := queryCmd c.

(** *** [buildSingle] *)

(** What the caller of [buildSingle] gets: the promise stored in the
    queue, or [Promise.reject(reason)]. *)
Inductive submission := Stored (p : ref) | Refused (reason : string).

(** The [for] loop over the slots, run without another submission in
    between: the index it stops at, and what it logs. *)
Fixpoint scan (heap : list promise) (queue : list ref) (index : nat) : nat * list logEntry :=
  match queue with
  | [] => (index, [])
  | p :: queue' =>
      let state := promiseState heap p in
      let entry := log_info ["queue state"; JS.toString (Z.of_nat index); state]%string in
      if negb (String.eqb state "pending") then (index, [entry])
      else let '(i, entries) := scan heap queue' (S index) in (i, entry :: entries)
  end.

(** [buildSingle] from the end of the loop on. *)
Definition after_scan (cwd : string) (index len : nat) (c : Cscope) : Cscope * submission :=
  if (len <=? index)%nat then
    (add_log [log_info ["queue full"%string]] c, Refused "queue full")
  else
    let pendingPromises :=
      List.filter (fun p => ToBoolean (is_pending_async (promises c) p)) (buildQueue c) in
    (store_new index (Promise_build cwd pendingPromises Waiting) c,
     Stored (List.length (promises c))).

Definition buildSingle (cwd : string) (c : Cscope) : Cscope * submission :=
  let len := List.length (buildQueue c) in
  let '(index, entries) := scan (promises c) (buildQueue c) 0 in
  after_scan cwd index len (add_log entries c).

(** *** The event loop *)

(** [Promise.all(ps)] is fulfilled when every element is. *)
Definition all_fulfilled (heap : list promise) (ps : list ref) : bool :=
  forallb (fun p => String.eqb (promiseState heap p) "fulfilled") ps.

(** The callback of [Promise.all(pendingPromises).then(...)] up to the
    spawn.  There is no rejection handler: when [Promise.all] rejects,
    nothing runs. *)
Definition start_build (p : ref) (c : Cscope) : option Cscope :=
  match promises c !! p with
  | Some (Promise_build cwd ps Waiting) =>
      if all_fulfilled (promises c) ps then
        let cmd := get (config c) "cscope" in
        let db := get (config c) "database" in
        let buildArgs := get (config c) "buildArgs" in
        let args := [buildArgs; "-f"%string; db] in
        Some (set_promise p (Promise_build cwd ps Running)
               (add_spawn cmd (map JString args) cwd
                 (add_log [log_info [cmd; JS.join "," args; cwd]]
                   (set_buildCmd (JS.join " " (cmd :: args))
                     (add_log [log_info ["start to build"%string]] c)))))
      else None
  | _ => None
  end.

(** The handlers of ['error'] and ['close'] of a build process: what
    they log and how they settle the promise. *)
Definition on_exit (x : exit) : list logEntry * settlement :=
  match x with
  | LaunchError error => ([log_err ["error:"%string; error]], Rejected (JS.trim error))
  | Exit code out err =>
      let l1 := if 0 <? JS.length err
                then [log_err ["stderr: " +:+ show_code code +:+ JS.LF +:+ err]] else [] in
      let l2 := [log_info ["stdout: " +:+ show_code code +:+ JS.LF +:+ out]] in
      if code_ne_0 code
      then (l1 ++ l2 ++ [log_info ["done to build: error"%string]], Rejected (JS.trim err))
      else (l1 ++ l2 ++ [log_info ["done to build: success"%string]], Fulfilled (JS.trim out))
  end.

Definition settle_build (p : ref) (x : exit) (c : Cscope) : option Cscope :=
  match promises c !! p with
  | Some (Promise_build cwd ps Running) =>
      let '(entries, r) := on_exit x in
      Some (set_promise p (Promise_build cwd ps (Settled r)) (add_log entries c))
  | _ => None
  end.

(** What happens to a [Cscope] object: a submission, the start of a
    stored build, the end of its process. *)
Inductive event :=
  | Submit (cwd : string)
  | Start (p : ref)
  | Finish (p : ref) (x : exit).

Definition step (c : Cscope) (e : event) : option Cscope :=
  match e with
  | Submit cwd => Some (fst (buildSingle cwd c))
  | Start p => start_build p c
  | Finish p x => settle_build p x c
  end.

Fixpoint run (c : Cscope) (es : list event) : option Cscope :=
  match es with
  | [] => Some c
  | e :: es' =>
      match step c e with
      | Some c' => run c' es'
      | None => None
      end
  end.

(** *** [build] and [query], one call at a time *)

(** How an [await] of an async call ends for its caller. *)
Inductive completion (A : Type) :=
  | Returned (a : A)
  | Thrown (e : string)
  | Never.
Arguments Returned {A} a.
Arguments Thrown {A} e.
Arguments Never {A}.

(** [await this.buildSingle(cwd)] while nothing else uses the object:
    the submission, then the start of the stored build if its
    [Promise.all] is fulfilled, then the end [x] of the process.  When
    [Promise.all] is not fulfilled the callback never runs, and when
    [cp.spawn] throws it ends before a handler is installed: either way
    neither [resolve] nor [reject] is ever called. *)
Definition await_buildSingle (l : spawned) (cwd : string) (c : Cscope)
    : Cscope * completion string :=
  let '(c1, s) := buildSingle cwd c in
  match s with
  | Refused reason => (c1, Thrown reason)
  | Stored p =>
      match start_build p c1 with
      | None => (c1, Never)
      | Some c2 =>
          match l with
          | SpawnThrows _ => (c2, Never)
          | Process x =>
              (default c2 (settle_build p x c2),
               match snd (on_exit x) with
               | Fulfilled v => Returned v
               | Rejected e => Thrown e
               end)
          end
      end
  end.

(** The loop of [build]; [world i dir] is how the spawn of turn [i], for
    [dir], goes. *)
Fixpoint build_loop (world : nat -> string -> spawned) (i : nat) (directories : list string)
    (results : list string) (c : Cscope) : Cscope * completion string :=
  match directories with
  | [] => (c, Returned (JS.join JS.LF results))
  | dir :: directories' =>
      match await_buildSingle (world i dir) dir c with
      | (c1, Returned result) =>
          build_loop world (S i) directories' (results ++ [result]) c1
      | (c1, Thrown err) =>
          build_loop world (S i) directories' (results ++ ["Error: " +:+ err])
            (add_log [log_err ["Failed to build database for " +:+ dir +:+ ":"; err]] c1)
      | (c1, Never) => (c1, Never)
      end
  end.

Definition build (world : nat -> string -> spawned) (c : Cscope) : Cscope * completion string :=
  let directories := getAllDirectories (env c) in
  build_loop world 0 directories []
    (add_log [log_info ["Building cscope databases for "
                        +:+ JS.toString (Z.of_nat (List.length directories))
                        +:+ " workspace folders..."]] c).

(** The argument vector of a query. *)
Definition query_args (cfg : IConfig) (type word : string) : list jsvalue :=
  let db := get cfg "database" in
  let queryArgs := get cfg "queryArgs" in
  [JString queryArgs; JString "-f"; JString db; QueryType_get type; JString word].

(** [a.join(sep)] on an array of values. *)
Definition join_args (sep : string) (a : list jsvalue) : string :=
  JS.join sep (map join_element a).

(** The handler of ['line']. *)
Definition on_line (I : ItemClass) (parent : string)
    (acc : list (IItem I) * list logEntry * string) (line : string)
    : list (IItem I) * list logEntry * string :=
  let '(results, entries, out) := acc in
  match new_Item I line parent with
  | inl item => (results ++ [item], entries, out +:+ line)
  | inr e => (results, entries ++ [log_err [e]; log_err ["cannot parse:"%string; line]], out +:+ line)
  end.

(** [await this.querySingle(type, word, cwd)] for a process that ends as [x]. *)
Definition querySingle (I : ItemClass) (type word cwd : string) (x : queryExit) (c : Cscope)
    : Cscope * completion (list (IItem I)) :=
  let cmd := get (config c) "cscope" in
  let args := query_args (config c) type word in
  let parent := path_relative I (getCurrentDirectory (env c)) cwd in
  let c := add_spawn cmd args cwd
             (add_log [log_info [cmd; join_args "," args; cwd]]
               (set_queryCmd (join_args " " (JString cmd :: args)) c)) in
  match x with
  | QuerySpawnThrows error => (c, Thrown error)
  | QueryLaunchError error =>
      (add_log [log_err ["error:"%string; error]] c, Thrown (JS.trim error))
  | QueryExit code lines err =>
      let '(results, entries, out) := fold_left (on_line I parent) lines ([], [], ""%string) in
      let l1 := if 0 <? JS.length err
                then [log_err ["stderr: " +:+ show_code code +:+ JS.LF +:+ err]] else [] in
      let l2 := [log_info ["stdout: " +:+ show_code code +:+ JS.LF +:+ out]] in
      if code_ne_0 code
      then (add_log (entries ++ l1 ++ l2) c, Thrown (JS.trim err))
      else (add_log (entries ++ l1 ++ l2 ++ [log_info ["results:"%string]]) c, Returned results)
  end.

Fixpoint query_loop (I : ItemClass) (world : nat -> string -> queryExit) (i : nat)
    (type word : string) (directories : list string) (allResults : list (IItem I))
    (c : Cscope) : Cscope * completion (list (IItem I)) :=
  match directories with
  | [] => (c, Returned allResults)
  | dir :: directories' =>
      match querySingle I type word dir (world i dir) c with
      | (c1, Returned results) =>
          query_loop I world (S i) type word directories' (allResults ++ results) c1
      | (c1, Thrown err) =>
          query_loop I world (S i) type word directories' allResults
            (add_log [log_err ["Failed to query in " +:+ dir +:+ ":"; err]] c1)
      | (c1, Never) => (c1, Never)
      end
  end.

Definition query (I : ItemClass) (world : nat -> string -> queryExit) (type word : string)
    (c : Cscope) : Cscope * completion (list (IItem I)) :=
  let directories := getAllDirectories (env c) in
  query_loop I world 0 type word directories []
    (add_log [log_info ["Querying across "
                        +:+ JS.toString (Z.of_nat (List.length directories))
                        +:+ " workspace folders..."]] c).

(** *** Submissions that overlap

    [buildSingle] gives up control at every [await promiseState(...)] of
    its loop.  The promise it probes cannot settle before it resumes (a
    promise of the queue settles in a handler of a process event, and
    those run only once no resumption is left), but another call of
    [buildSingle] may run in between. *)

Module Interleaved.

(** A call of [buildSingle] suspended in its loop, with the answer the
    probe of slot [index] is going to give. *)
Record frame := { cwd : string; index : nat; len : nat; state : string }.

Inductive call := Suspended (fr : frame) | Done (s : submission).

(** [promiseState(this.buildQueue[index])]. *)
Definition probe_slot (c : Cscope) (index : nat) : string :=
  match buildQueue c !! index with
  | Some p => promiseState (promises c) p
  | None => "fulfilled"
  end.

(** The test of the loop, then its first statement or the rest of the
    function. *)
Definition loop (cwd : string) (index len : nat) (c : Cscope) : Cscope * call :=
  if (index <? len)%nat then
    (c, Suspended {| cwd := cwd; index := index; len := len; state := probe_slot c index |})
  else
    let '(c', s) := after_scan cwd index len c in (c', Done s).

(** The call, up to its first [await]. *)
Definition enter (cwd : string) (c : Cscope) : Cscope * call :=
  loop cwd 0 (List.length (buildQueue c)) c.

(** From an [await] to the next one, or to the end. *)
Definition resume (fr : frame) (c : Cscope) : Cscope * call :=
  let c := add_log [log_info ["queue state"%string; JS.toString (Z.of_nat (index fr)); state fr]] c in
  if negb (String.eqb (state fr) "pending") then
    let '(c', s) := after_scan (cwd fr) (index fr) (len fr) c in (c', Done s)
  else loop (cwd fr) (S (index fr)) (len fr) c.

(** A call run on with no other in between, for at most [fuel] resumptions. *)
Fixpoint drive (fuel : nat) (k : call) (c : Cscope) : Cscope * call :=
  match fuel, k with
  | S fuel', Suspended fr => let '(c', k') := resume fr c in drive fuel' k' c'
  | _, _ => (c, k)
  end.

(** The object with the calls of [buildSingle] made on it, oldest first. *)
Record system := { object : Cscope; calls : list call }.

Definition suspended (k : call) : bool :=
  match k with Suspended _ => true | Done _ => false end.

Inductive event :=
  | Call (cwd : string)
  | Resume (k : nat)
  | Start (p : ref)
  | Finish (p : ref) (x : exit).

(** A process event is handled only when no call is waiting to resume. *)
Definition step (s : system) (e : event) : option system :=
  match e with
  | Call cwd =>
      let '(c, k) := enter cwd (object s) in
      Some {| object := c; calls := calls s ++ [k] |}
  | Resume k =>
      match calls s !! k with
      | Some (Suspended fr) =>
          let '(c, k') := resume fr (object s) in
          Some {| object := c; calls := <[k := k']> (calls s) |}
      | _ => None
      end
  | Start p =>
      match start_build p (object s) with
      | Some c => Some {| object := c; calls := calls s |}
      | None => None
      end
  | Finish p x =>
      if existsb suspended (calls s) then None
      else match settle_build p x (object s) with
           | Some c => Some {| object := c; calls := calls s |}
           | None => None
           end
  end.

Fixpoint run (s : system) (es : list event) : option system :=
  match es with
  | [] => Some s
  | e :: es' =>
      match step s e with
      | Some s' => run s' es'
      | None => None
      end
  end.

End Interleaved.

(** *** Words of the statements *)

(** A field of a line: a string with no space in it. *)
Definition no_space (s : string) : Prop := JS.has_char " " s = false.


(** The string the highlight is searched with. *)
Definition searched (q : CscopeQuery) (func : string) : string :=
  if String.eqb (type q) "callee" then func else pattern q.


(** A slot is outstanding while [promiseState] of its promise is "pending". *)
Definition pending (c : Cscope) (p : ref) : bool :=
  String.eqb (promiseState (promises c) p) "pending".

Definition outstanding (c : Cscope) : list ref := List.filter (pending c) (buildQueue c).


(** A stored build that can never start: its [Promise.all] holds a
    rejected promise, or a build that can itself never start. *)
Inductive blocked (heap : list promise) : ref -> Prop :=
  | blocked_rejected p cwd ps w :
      heap !! p = Some (Promise_build cwd ps Waiting) ->
      In w ps -> promiseState heap w = "rejected"%string ->
      blocked heap p
  | blocked_behind p cwd ps w :
      heap !! p = Some (Promise_build cwd ps Waiting) ->
      In w ps -> blocked heap w ->
      blocked heap p.

(** How the promises of one state relate to those of the next: a promise
    stays, or a waiting build whose [Promise.all] is fulfilled starts,
    or a running build settles. *)
Definition evolves (h h' : list promise) : Prop :=
  forall p pr, h !! p = Some pr ->
    h' !! p = Some pr \/
    match pr with
    | Promise_build cwd ps Waiting =>
        h' !! p = Some (Promise_build cwd ps Running) /\ all_fulfilled h ps = true
    | Promise_build cwd ps Running =>
        exists r, h' !! p = Some (Promise_build cwd ps (Settled r))
    | _ => False
    end.

(** Every slot of the queue holds a pending promise. *)
Definition all_pending (c : Cscope) : Prop :=
  forall p, In p (buildQueue c) -> promiseState (promises c) p = "pending"%string.

(** Every slot holds a fulfilled promise, as after the constructor. *)
Definition clean (c : Cscope) : Prop :=
  buildQueue c <> [] /\
  forall p, In p (buildQueue c) ->
    exists pr v, promises c !! p = Some pr /\ settlement_of pr = Some (Fulfilled v).

(** The process is spawned and exits with code 0. *)
Definition succeeds (l : spawned) : Prop :=
  match l with
  | Process (Exit (Some 0) _ _) => True
  | _ => False
  end.

(** What a directory contributes to the report of [build]: the trimmed
    stdout of its build, or "Error: " and the reason of the failure. *)
Definition segment_ok (l : spawned) (segment : string) : Prop :=
  segment = "Error: queue full"%string \/
  match l with
  | Process (Exit (Some 0) out _) => segment = JS.trim out
  | Process (Exit _ _ err) => segment = "Error: " +:+ JS.trim err
  | Process (LaunchError error) => segment = "Error: " +:+ JS.trim error
  | SpawnThrows _ => False
  end.

Fixpoint segments_ok (world : nat -> string -> spawned) (i : nat) (directories segments : list string)
    : Prop :=
  match directories, segments with
  | [], [] => True
  | dir :: directories', segment :: segments' =>
      segment_ok (world i dir) segment /\ segments_ok world (S i) directories' segments'
  | _, _ => False
  end.

(** The items of the lines that [new Item] accepts, in order. *)
Definition parsed_items (I : ItemClass) (parent : string) (lines : list string)
    : list (IItem I) :=
  flat_map (fun line => match new_Item I line parent with
                        | inl item => [item]
                        | inr _ => []
                        end) lines.

(** What a directory adds to the result of [query]: the items of its
    lines when its process exits with code 0, nothing otherwise. *)
Definition directory_items (I : ItemClass) (e : IEnv) (dir : string) (x : queryExit)
    : list (IItem I) :=
  match x with
  | QueryExit (Some 0) lines _ =>
      parsed_items I (path_relative I (getCurrentDirectory e) dir) lines
  | _ => []
  end.

Fixpoint all_items (I : ItemClass) (e : IEnv) (world : nat -> string -> queryExit) (i : nat)
    (directories : list string) : list (IItem I) :=
  match directories with
  | [] => []
  | dir :: directories' =>
      directory_items I e dir (world i dir) ++ all_items I e world (S i) directories'
  end.

(** *** Data of the examples *)

Module Ex.

Local Open Scope string_scope.

(** The line of the specification's example. *)
Definition myFunc_line : string := "/src/a.c myFunc 12 int myFunc(void) {".

(** A workspace [/ws] whose file [a.c] has eight lines, and a file
    [/src/a.c] of twelve. *)
Definition docs : list (string * list string) :=
  [ ("/ws/a.c", ["l0"; "l1"; "l2"; "l3"; "l4"; "l5"; "f(x);"; "l7"]);
    ("/src/a.c", ["int main(void) {"; "abc a.c"; "x a+b"; "l3"; "l4"; "l5"; "l6"; "l7";
                  "l8"; "l9"; "l10"; "int myFunc(void) {"]) ].

(** An editor whose search finds nothing where the pattern is not of
    the modelled fragment. *)
Definition host : Host := posix_host (Some "/ws") docs (fun _ _ => NotFound).

Definition cfg : IConfig :=
  {| get := fun key =>
       if String.eqb key "cscope" then "cscope"
       else if String.eqb key "database" then "cscope.out"
       else if String.eqb key "buildArgs" then "-RbU"
       else if String.eqb key "queryArgs" then "-RdL"
       else "" |}.

(** Two workspace folders. *)
Definition folders : IEnv :=
  {| getAllDirectories := ["/ws/a"; "/ws/b"]; getCurrentDirectory := "/ws" |}.

(** The build in [/ws/a] exits with code 1, any other with code 0. *)
Definition a_fails (i : nat) (dir : string) : spawned :=
  if String.eqb dir "/ws/a" then Process (Exit (Some 1) "" "cscope: no source files")
  else Process (Exit (Some 0) "done " "").

(** The build in [/ws/b] fails, any other exits with code 0. *)
Definition b_fails (i : nat) (dir : string) : spawned :=
  if String.eqb dir "/ws/b" then Process (Exit (Some 1) "" "cscope: no source files")
  else Process (Exit (Some 0) "done " "").

(** A fresh object on which the build in [/ws/a] has been submitted,
    has started and has failed. *)
Definition after_failure : option Cscope :=
  run (constructor cfg folders)
    [Submit "/ws/a"; Start 2%nat; Finish 2%nat (Exit (Some 1) "" "cscope: no source files")].

(** A fresh object with two builds submitted, and none finished. *)
Definition two_submitted : Cscope :=
  fst (buildSingle "/ws/b" (fst (buildSingle "/ws/a" (constructor cfg folders)))).

(** Items that are their line and label; a line with no space is not
    an item. *)
Definition items : ItemClass :=
  {| IItem := string * string;
     new_Item := fun line parent =>
       if JS.has_char " " line then inl (line, parent) else inr "cannot parse";
     path_relative := fun from to => JS.slice to (JS.length from + 1) None |}.

(** The query in [/ws/b] cannot be launched; the one in [/ws/a] prints
    three lines. *)
Definition b_not_launched (i : nat) (dir : string) : queryExit :=
  if String.eqb dir "/ws/b" then QueryLaunchError "Error: spawn cscope ENOENT"
  else QueryExit (Some 0) ["a.c f 1 x"; "noise"; "a.c g 2 y"] "".

(** The same, after the first build has started and has failed. *)
Definition first_of_two_failed : option Cscope :=
  run two_submitted
    [Start 2%nat; Finish 2%nat (Exit (Some 1) "" "cscope: no source files")].

End Ex.

(** *** Words of the further statements *)


(** A build whose process has been spawned and has not ended. *)
Definition is_running (pr : promise) : bool :=
  match pr with
  | Promise_build _ _ Running => true
  | _ => false
  end.

(** The builds of an object whose processes are running. *)
Definition running (c : Cscope) : list promise := List.filter is_running (promises c).

(** A build whose callback has run: its process is running or has ended. *)
Definition started (pr : promise) : bool :=
  match pr with
  | Promise_build _ _ Waiting => false
  | Promise_build _ _ _ => true
  | Promise_resolve _ => false
  end.

(** The promises given to the [Promise.all] of a build. *)
Definition waits (heap : list promise) (p : ref) : list ref :=
  match heap !! p with
  | Some (Promise_build _ ps _) => ps
  | _ => []
  end.

(** [reaches heap q p]: [q] is [p], or waits for a promise that reaches [p]. *)
Inductive reaches (heap : list promise) : ref -> ref -> Prop :=
  | reaches_here p : reaches heap p p
  | reaches_wait q w p : In w (waits heap q) -> reaches heap w p -> reaches heap q p.

(** The builds of the object run one after the other: a slot refers to
    a promise of the store; a build waits for older promises; a started
    build waited for fulfilled promises only; a build waits, directly or
    through others, for every older promise that is not fulfilled; and
    so does the queue for every promise that is not fulfilled. *)
Record serial (c : Cscope) : Prop := {
  serial_queue : forall p, In p (buildQueue c) -> (p < List.length (promises c))%nat;
  serial_older : forall q w, In w (waits (promises c) q) -> (w < q)%nat;
  serial_started : forall q pr,
    promises c !! q = Some pr -> started pr = true ->
    all_fulfilled (promises c) (waits (promises c) q) = true;
  serial_behind : forall q p cwd ps ph,
    promises c !! q = Some (Promise_build cwd ps ph) -> (p < q)%nat ->
    promiseState (promises c) p <> "fulfilled"%string ->
    exists w, In w ps /\ reaches (promises c) w p;
  serial_cover : forall p,
    promiseState (promises c) p <> "fulfilled"%string ->
    exists q, In q (buildQueue c) /\ reaches (promises c) q p;
}.

(** Every suspended call has read the length that the queue has. *)
Definition frames_ok (s : Interleaved.system) : Prop :=
  forall k fr, Interleaved.calls s !! k = Some (Interleaved.Suspended fr) ->
    Interleaved.len fr = List.length (buildQueue (Interleaved.object s)).

(** The queue holds a promise that is rejected, or a build that can
    never start. *)
Definition poisoned (c : Cscope) : Prop :=
  exists r, In r (buildQueue c) /\
    (promiseState (promises c) r = "rejected"%string \/ blocked (promises c) r).

(** The command line of a build. *)
Definition build_command (cfg : IConfig) : string :=
  JS.join " " [get cfg "cscope"; get cfg "buildArgs"; "-f"; get cfg "database"]%string.

(** The head of the queue is rejected and the other slots are fulfilled. *)
Definition failed_head (c : Cscope) : Prop :=
  exists n others,
    buildQueue c = n :: others /\ promiseState (promises c) n = "rejected"%string /\
    forall p, In p others ->
      exists pr v, promises c !! p = Some pr /\ settlement_of pr = Some (Fulfilled v).

(** The head of the queue is pending and the slot after it is not. *)
Definition pending_head (c : Cscope) : Prop :=
  exists m r1 others,
    buildQueue c = m :: r1 :: others /\ promiseState (promises c) m = "pending"%string /\
    promiseState (promises c) r1 <> "pending"%string.

(** The queue is poisoned, and every build stored since reference [n0]
    can never start. *)
Definition poisoned_since (n0 : nat) (c : Cscope) : Prop :=
  poisoned c /\
  forall p, (n0 <= p)%nat -> (p < List.length (promises c))%nat -> blocked (promises c) p.

(** The build command as [start_build] leaves it. *)
Definition buildCmd_set (cfg : IConfig) (c : Cscope) : Prop :=
  config c = cfg /\
  buildCmd c = if existsb started (promises c) then build_command cfg else ""%string.

(** A resumption of call [k]. *)
Definition is_resume (k : nat) (e : Interleaved.event) : bool :=
  match e with
  | Interleaved.Resume j => Nat.eqb j k
  | _ => false
  end.

(** How often call [k] is resumed by the events. *)
Definition resumptions (k : nat) (es : list Interleaved.event) : nat :=
  List.length (List.filter (is_resume k) es).

(** Call [k], made on a queue of [len0] slots that are all pending, has
    been resumed [n] times: it stands at slot [n] with the answer
    "pending" while every slot is pending still, or it has ended,
    refused, with the resumption for the last slot. *)
Definition refusing_at (s : Interleaved.system) (k n len0 : nat) : Prop :=
  match Interleaved.calls s !! k with
  | Some (Interleaved.Suspended fr) =>
      Interleaved.state fr = "pending"%string /\
      Interleaved.index fr = n /\ (n < len0)%nat /\
      Interleaved.len fr = len0 /\
      List.length (buildQueue (Interleaved.object s)) = len0 /\
      all_pending (Interleaved.object s) /\ frames_ok s
  | Some (Interleaved.Done r) => r = Refused "queue full" /\ n = len0
  | None => False
  end.



(** ** Part II. Properties *)

(** *** Strings *)

Section Strings.

Local Open Scope nat_scope.

Lemma str_app_cons (c : ascii) (a b : string) : String c a +:+ b = String c (a +:+ b).
Proof. reflexivity. Qed.

Lemma str_app_nil (b : string) : EmptyString +:+ b = b.
Proof. reflexivity. Qed.

Lemma str_length_app (a b : string) :
  String.length (a +:+ b) = String.length a + String.length b.
Proof.
  induction a as [|c a IH]; [reflexivity|].
  rewrite str_app_cons. simpl. now rewrite IH.
Qed.

Lemma str_app_assoc_string (a b c : string) : (a +:+ b) +:+ c = a +:+ b +:+ c.
Proof.
  induction a as [|x a IH]; [reflexivity|].
  rewrite !str_app_cons. now f_equal.
Qed.

Lemma str_drop_app (a b : string) (k : nat) :
  JS.drop (String.length a + k) (a +:+ b) = JS.drop k b.
Proof.
  induction a as [|c a IH]; [reflexivity|].
  rewrite str_app_cons. simpl. exact IH.
Qed.

Lemma str_drop_app_0 (a b : string) : JS.drop (String.length a) (a +:+ b) = b.
Proof.
  rewrite <- (Nat.add_0_r (String.length a)), str_drop_app. now destruct b.
Qed.

Lemma str_take_app (a b : string) : JS.take (String.length a) (a +:+ b) = a.
Proof.
  induction a as [|c a IH]; [now destruct b|].
  rewrite str_app_cons. simpl. now rewrite IH.
Qed.

Lemma str_take_all (a : string) : JS.take (String.length a) a = a.
Proof. induction a as [|c a IH]; simpl; [reflexivity | now rewrite IH]. Qed.

Lemma prefix_char (c d : ascii) (s : string) :
  String.prefix (String c EmptyString) (String d s) = Ascii.eqb c d.
Proof.
  simpl. destruct (ascii_dec c d) as [->|Hne].
  - rewrite Ascii.eqb_refl. now destruct s.
  - symmetry. now apply Ascii.eqb_neq.
Qed.

(** The first occurrence of a character that the text before it lacks. *)
Lemma find_from_char (c : ascii) (f t : string) (k : nat) :
  JS.has_char c f = false ->
  JS.find_from (String c EmptyString) (f +:+ String c t) k = Some (k + String.length f).
Proof.
  revert k. induction f as [|d f IH]; intros k Hf.
  - rewrite str_app_nil. cbn [JS.find_from]. rewrite prefix_char, Ascii.eqb_refl.
    simpl. now rewrite Nat.add_0_r.
  - cbn [JS.has_char] in Hf. apply orb_false_iff in Hf as [Hd Hf].
    rewrite str_app_cons. cbn [JS.find_from]. rewrite prefix_char, Hd.
    rewrite (IH (S k) Hf). simpl. f_equal. lia.
Qed.

End Strings.

(** The primitives on the strings of the examples below. *)
Example slice_neg : JS.slice "a.c f 78" 6 (Some (-1)) = "7"%string.
Proof. reflexivity. Qed.
Example indexOf_ex :
  JS.indexOf "a.c f 78" " " 4 = 5 /\ JS.indexOf "a.c f 78" " " 6 = -1 /\
  JS.indexOf "abc" "" 10 = 3.
Proof. repeat split; reflexivity. Qed.
Example parseInt_ex :
  JS.parseInt "12" = Some 12 /\ JS.parseInt " -0x1fz" = Some (-31) /\
  JS.parseInt "ab" = None /\ JS.parseInt "12abc" = Some 12 /\
  JS.parseInt "" = None /\ JS.parseInt "0x" = None.
Proof. repeat split; reflexivity. Qed.
Example trim_ex : JS.trim ("  a b " +:+ JS.LF) = "a b"%string.
Proof. reflexivity. Qed.
Example split_ex : JS.split_lines ("a" +:+ JS.LF +:+ "b" +:+ JS.LF) = ["a"; "b"; ""]%string.
Proof. reflexivity. Qed.

Example search_ex :
  RegExp_search "baaa" "a+" = Some (Found 1) /\ RegExp_search "baaa" "^a" = Some NotFound /\
  RegExp_search "x*y" "x\*y" = Some (Found 0) /\ RegExp_search "xyz" "z?$" = Some (Found 2) /\
  RegExp_search "baaa" "a**" = Some SyntaxError /\ RegExp_search "x" "" = Some (Found 0) /\
  RegExp_search "x" "[x]" = None.
Proof. repeat split; reflexivity. Qed.

Example posix_join_ex :
  Posix.join "/ws" "a/../b/./c.c" = "/ws/b/c.c"%string /\
  Posix.join "" "a.c" = "a.c"%string /\ Posix.join "" "" = "."%string /\
  Posix.join "/r/" "../../.." = "/"%string /\ Posix.join "r" "../../x/" = "../x/"%string.
Proof. repeat split; reflexivity. Qed.

(** [line.indexOf(' ', position)] when the position is the end of a
    prefix [a] and no space stands between it and the next one. *)
Lemma indexOf_space (a f t : string) :
  JS.has_char " " f = false ->
  JS.indexOf (a +:+ f +:+ " " +:+ t) " " (Z.of_nat (String.length a))
  = Z.of_nat (String.length a + String.length f).
Proof.
  intros Hf. unfold JS.indexOf, JS.length.
  rewrite !str_length_app.
  replace (Z.to_nat _) with (String.length a) by lia.
  rewrite str_drop_app_0.
  change (" " +:+ t)%string with (String " " t).
  now rewrite (find_from_char " " f t _ Hf).
Qed.

(** [s.slice(i, j)] cuts the middle of three pieces out at their ends. *)
Lemma slice_middle (a m b : string) :
  JS.slice (a +:+ m +:+ b) (Z.of_nat (String.length a))
    (Some (Z.of_nat (String.length a + String.length m))) = m.
Proof.
  unfold JS.slice, JS.clamp, JS.length. rewrite !str_length_app.
  repeat match goal with |- context [?x <? 0] => destruct (Z.ltb_spec x 0); try lia end.
  replace (Z.to_nat (Z.min (Z.of_nat (String.length a)) _)) with (String.length a) by lia.
  rewrite str_drop_app_0.
  match goal with |- JS.take ?n _ = _ => replace n with (String.length m) by lia end.
  apply str_take_app.
Qed.

Lemma slice_tail (a b : string) :
  JS.slice (a +:+ b) (Z.of_nat (String.length a)) None = b.
Proof.
  unfold JS.slice, JS.clamp, JS.length. rewrite !str_length_app.
  destruct (Z.ltb_spec (Z.of_nat (String.length a)) 0); try lia.
  replace (Z.to_nat (Z.min (Z.of_nat (String.length a)) _)) with (String.length a) by lia.
  rewrite str_drop_app_0.
  match goal with |- JS.take ?n _ = _ => replace n with (String.length b) by lia end.
  apply str_take_all.
Qed.

(** *** The fields of a line *)

Ltac by_eq H := etransitivity; [ | exact H ]; f_equal; try lia; f_equal; lia.

Ltac flat_length H :=
  repeat (rewrite str_length_app in H); simpl String.length in H.


(** The three separators of a line whose first three fields hold no
    space are where the fields end. *)
Lemma separators (f g n r : string) :
  no_space f -> no_space g -> no_space n ->
  let line := f +:+ " " +:+ g +:+ " " +:+ n +:+ " " +:+ r in
  let l1 := String.length f in
  let l2 := (l1 + 1 + String.length g)%nat in
  let l3 := (l2 + 1 + String.length n)%nat in
  JS.indexOf line " " 0 = Z.of_nat l1 /\
  JS.indexOf line " " (Z.of_nat l1 + 1) = Z.of_nat l2 /\
  JS.indexOf line " " (Z.of_nat l2 + 1) = Z.of_nat l3.
Proof.
  intros Hf Hg Hn line l1 l2 l3. subst line l1 l2 l3. repeat split.
  - exact (indexOf_space "" f _ Hf).
  - pose proof (indexOf_space (f +:+ " ") g (n +:+ " " +:+ r) Hg) as H.
    rewrite !str_app_assoc_string in H. flat_length H.
    replace (Z.of_nat (String.length f) + 1) with (Z.of_nat (String.length f + 1)) by lia.
    exact H.
  - pose proof (indexOf_space (f +:+ " " +:+ g +:+ " ") n r Hn) as H.
    rewrite !str_app_assoc_string in H. flat_length H.
    match goal with |- JS.indexOf _ _ ?p = _ =>
      replace p with (Z.of_nat (String.length f + (1 + (String.length g + 1)))) by lia end.
    rewrite H. f_equal. lia.
Qed.

Lemma fields_of_line (h : Host) (f g n r : string) :
  no_space f -> no_space g -> no_space n ->
  fields h (f +:+ " " +:+ g +:+ " " +:+ n +:+ " " +:+ r)
  = (getFullPath h f, g, JS.minus1 (JS.parseInt n), r).
Proof.
  intros Hf Hg Hn.
  destruct (separators f g n r Hf Hg Hn) as (H1 & H2 & H3).
  cbv zeta in H1, H2, H3. unfold fields. cbv zeta.
  rewrite H1, H2, H3.
  set (l1 := String.length f) in *.
  set (l2 := (l1 + 1 + String.length g)%nat) in *.
  set (l3 := (l2 + 1 + String.length n)%nat) in *.
  assert (E1 : JS.slice (f +:+ " " +:+ g +:+ " " +:+ n +:+ " " +:+ r) 0 (Some (Z.of_nat l1)) = f).
  { exact (slice_middle "" f _). }
  assert (E2 : JS.slice (f +:+ " " +:+ g +:+ " " +:+ n +:+ " " +:+ r)
                 (Z.of_nat l1 + 1) (Some (Z.of_nat l2)) = g).
  { pose proof (slice_middle (f +:+ " ") g (" " +:+ n +:+ " " +:+ r)) as H.
    rewrite !str_app_assoc_string in H. flat_length H.
    subst l2 l1. by_eq H. }
  assert (E3 : JS.slice (f +:+ " " +:+ g +:+ " " +:+ n +:+ " " +:+ r)
                 (Z.of_nat l2 + 1) (Some (Z.of_nat l3)) = n).
  { pose proof (slice_middle (f +:+ " " +:+ g +:+ " ") n (" " +:+ r)) as H.
    rewrite !str_app_assoc_string in H. flat_length H.
    subst l3 l2 l1. by_eq H. }
  assert (E4 : JS.slice (f +:+ " " +:+ g +:+ " " +:+ n +:+ " " +:+ r)
                 (Z.of_nat l3 + 1) None = r).
  { pose proof (slice_tail (f +:+ " " +:+ g +:+ " " +:+ n +:+ " ") r) as H.
    rewrite !str_app_assoc_string in H. flat_length H.
    subst l3 l2 l1. by_eq H. }
  now rewrite E1, E2, E3, E4.
Qed.

(** *** What a pushed item holds *)

Lemma resolve_item (h : Host) (q : CscopeQuery) (file func : string) (lnum : option Z)
    (rest : string) (it : CscopeItem) :
  resolve h q file func lnum rest = Some it ->
  exists f k text,
    openTextDocument h file = Some f /\ lnum = Some k /\ lineAt f (Some k) = Some text /\
    ((exists i, String_search h text (searched q func) = Found i /\
        it = new_CscopeItem h (Uri_file file) func
               (new_Range k (Z.of_nat i) k (Z.of_nat i + JS.length (searched q func))) rest text) \/
     (String_search h text (searched q func) = NotFound /\
        it = new_CscopeItem h (Uri_file file) func (new_Range k 0 k 0) rest text)).
Proof.
  unfold resolve, searched. intros H.
  destruct (openTextDocument h file) as [f|]; [|discriminate].
  destruct lnum as [k|]; [|simpl in H; discriminate].
  destruct (lineAt f (Some k)) as [text|] eqn:Hl; [|discriminate].
  exists f, k, text. repeat split; auto.
  destruct (String.eqb (type q) "callee");
    match type of H with context [String_search h text ?p] =>
      destruct (String_search h text p) as [i| |] eqn:Hs end;
    try discriminate.
  all: try (left; exists i; split; [reflexivity|];
            destruct (Z.eqb_spec (Z.of_nat i) (-1)); [lia|]; now inversion H).
  all: right; split; [reflexivity|]; simpl in H; now inversion H.
Qed.

Lemma pushed_item (h : Host) (q : CscopeQuery) (line : string) (it : CscopeItem) :
  setResults_line h q line = Pushed it ->
  exists file func k r,
    fields h line = (file, func, Some k, r) /\
    uri it = Uri_file file /\ name it = func /\ getLineNumber it = k /\
    rest it = r.
Proof.
  unfold setResults_line. destruct (JS.length line <? 3); [discriminate|].
  destruct (fields h line) as [[[file func] lnum] rest'] eqn:Hf.
  destruct (resolve h q file func lnum rest') as [it'|] eqn:Hr; [|discriminate].
  intros [= <-].
  destruct (resolve_item _ _ _ _ _ _ _ Hr) as (f & k & text & _ & -> & _ & [(i & _ & ->)|(_ & ->)]);
    exists file, func, k, rest'; repeat split; reflexivity.
Qed.


(** *** A batch of lines *)




(** *** The parser: claims *)

(** C7.  The line [/src/a.c myFunc 12 int myFunc(void) {] is cut into
    the file [/src/a.c] (absolute, so kept as it is), the symbol
    [myFunc], the zero-based line number 11 and the remainder
    [int myFunc(void) {]; an item pushed for it holds these four.  In
    general the four fields are cut at the first three spaces: for
    fields [f], [g], [n] with no space and any remainder [r], the line
    [f g n r] gives [f] (made absolute), [g], [parseInt(n) - 1] and [r]
    with every space it holds. *)
Theorem fields_positional :
  (forall root docs search,
     fields (posix_host root docs search) "/src/a.c myFunc 12 int myFunc(void) {"
     = ("/src/a.c", "myFunc", Some 11, "int myFunc(void) {")%string) /\
  (forall h q it,
     path_isAbsolute h "/src/a.c" = true ->
     setResults_line h q "/src/a.c myFunc 12 int myFunc(void) {" = Pushed it ->
     uri it = Uri_file "/src/a.c" /\ getFunction it = "myFunc"%string /\
     getLineNumber it = 11 /\ getLine it = "int myFunc(void) {"%string) /\
  (forall h f g n r,
     no_space f -> no_space g -> no_space n ->
     fields h (f +:+ " " +:+ g +:+ " " +:+ n +:+ " " +:+ r)
     = (getFullPath h f, g, JS.minus1 (JS.parseInt n), r)) /\
  (forall h f, path_isAbsolute h f = true -> getFullPath h f = f).
Proof.
  split; [|split; [|split]].
  - intros root docs search. reflexivity.
  - intros h q it Habs Hp.
    destruct (pushed_item h q _ it Hp) as (file & func & k & r & Hf & Hu & Hn & Hk & Hr).
    pose proof (fields_of_line h "/src/a.c" "myFunc" "12" "int myFunc(void) {"
                  eq_refl eq_refl eq_refl) as E.
    change (fields h "/src/a.c myFunc 12 int myFunc(void) {"
            = (getFullPath h "/src/a.c", "myFunc"%string,
               Some 11, "int myFunc(void) {"%string)) in E.
    rewrite E in Hf. unfold getFullPath in Hf. rewrite Habs in Hf.
    inversion Hf; subst. unfold getFunction, getLine. auto.
  - intros h f g n r. apply fields_of_line.
  - intros h f Habs. unfold getFullPath. now rewrite Habs.
Qed.

Lemma fields_positional_witness :
  fields Ex.host ("a.c" +:+ " " +:+ "f" +:+ " " +:+ "0x10" +:+ " " +:+ "f (x)  ;")
  = ("/ws/a.c", "f", Some 15, "f (x)  ;")%string.
Proof.
  exact (proj1 (proj2 (proj2 fields_positional)) Ex.host "a.c" "f" "0x10" "f (x)  ;"
           eq_refl eq_refl eq_refl)%string.
Defined.






(** A line whose third field is no number, between two lines that are
    pushed. *)
Example batch_continues :
  let q := new_CscopeQuery "symbol" "myFunc" in
  let out := Ex.myFunc_line +:+ JS.LF +:+ "/src/a.c myFunc twelve int" +:+ JS.LF
             +:+ "ab" +:+ JS.LF +:+ Ex.myFunc_line in
  map getLineNumber (results (fst (setResults Ex.host q out))) = [11; 11] /\
  snd (setResults Ex.host q out)
  = ["Could not open " +:+ dquote +:+ "/src/a.c" +:+ dquote +:+ "."].
Proof. split; reflexivity. Qed.

Example myFunc_line_pushed :
  exists it,
    setResults_line Ex.host (new_CscopeQuery "symbol" "myFunc") Ex.myFunc_line = Pushed it /\
    getFile Ex.host it = "/src/a.c"%string /\ getLineNumber it = 11 /\
    range it = new_Range 11 4 11 10.
Proof. eexists. split; [vm_compute; reflexivity|]. repeat split. Qed.

(** The highlight of a pushed item: where the search finds the string
    it is called with, over that string's length; column 0 and length 0
    when the search finds nothing. *)
Lemma highlight_of_search (h : Host) (q : CscopeQuery) (line : string) (it : CscopeItem) :
  setResults_line h q line = Pushed it ->
  match String_search h (text it) (searched q (name it)) with
  | Found i =>
      range it = new_Range (getLineNumber it) (Z.of_nat i) (getLineNumber it)
                   (Z.of_nat i + JS.length (searched q (name it)))
  | NotFound => range it = new_Range (getLineNumber it) 0 (getLineNumber it) 0
  | SyntaxError => False
  end.
Proof.
  unfold setResults_line. destruct (JS.length line <? 3); [discriminate|].
  destruct (fields h line) as [[[file func] lnum] r] eqn:Hf.
  destruct (resolve h q file func lnum r) as [it'|] eqn:Hr; [|discriminate].
  intros [= <-].
  destruct (resolve_item _ _ _ _ _ _ _ Hr)
    as (f & k & txt & _ & -> & _ & [(i & Hs & ->)|(Hs & ->)]);
    cbn [text name new_CscopeItem]; now rewrite Hs.
Qed.

(** A line whose file opens and whose line is there is dropped only by
    a search that throws. *)
Lemma dropped_by_search (h : Host) (q : CscopeQuery) (file func r : string) (k : Z)
    (f : list string) (txt : string) :
  openTextDocument h file = Some f -> lineAt f (Some k) = Some txt ->
  resolve h q file func (Some k) r = None ->
  String_search h txt (searched q func) = SyntaxError.
Proof.
  unfold resolve, searched. intros -> ->.
  destruct (String.eqb (type q) "callee");
    match goal with |- context [String_search h txt ?p] =>
      destruct (String_search h txt p) as [i| |] end;
    try reflexivity; try discriminate.
  all: destruct (Z.of_nat i =? -1); discriminate.
Qed.

(** C6, on the code: the text search for [main(] in the line
    [int main(void) {], which the file [/src/a.c] opens to and which
    holds [main(] at column 4, throws; the item is dropped with the
    warning of the [catch]. *)
Theorem paren_pattern_drops_item :
  openTextDocument Ex.host "/src/a.c" <> None /\
  lineAt (default [] (openTextDocument Ex.host "/src/a.c")) (Some 0)
  = Some "int main(void) {"%string /\
  JS.indexOf "int main(void) {" "main(" 0 = 4 /\
  RegExp_search "int main(void) {" "main(" = Some SyntaxError /\
  setResults_line Ex.host (new_CscopeQuery "text" "main(") "/src/a.c main 1 int main(void) {"
  = Warned ("Could not open " +:+ dquote +:+ "/src/a.c" +:+ dquote +:+ ".").
Proof. repeat split; try reflexivity. discriminate. Qed.

(** C10.  The start column of the highlight is the index that the
    runtime's pattern search gives for the pattern (the symbol name for
    "callee").  For the pattern [a.c] the highlight of the line
    [abc a.c] starts at column 0, where the pattern matches [abc],
    while its first literal occurrence is at column 4; for the pattern
    [a+b] the line [x a+b], which holds it at column 2, has no match,
    and the highlight is column 0 with length 0. *)
Theorem search_reads_pattern_as_regexp :
  (forall h q line it,
     setResults_line h q line = Pushed it ->
     getColumnNumber it
     = match String_search h (text it) (searched q (name it)) with
       | Found i => Z.of_nat i
       | _ => 0
       end) /\
  (RegExp_search "abc a.c" "a.c" = Some (Found 0) /\
   JS.indexOf "abc a.c" "a.c" 0 = 4 /\
   exists it,
     setResults_line Ex.host (new_CscopeQuery "text" "a.c") "/src/a.c main 2 abc a.c" = Pushed it /\
     text it = "abc a.c"%string /\ range it = new_Range 1 0 1 3) /\
  (RegExp_search "x a+b" "a+b" = Some NotFound /\
   JS.indexOf "x a+b" "a+b" 0 = 2 /\
   exists it,
     setResults_line Ex.host (new_CscopeQuery "text" "a+b") "/src/a.c main 3 x a+b" = Pushed it /\
     text it = "x a+b"%string /\ range it = new_Range 2 0 2 0).
Proof.
  split; [|split].
  - intros h q line it Hp. pose proof (highlight_of_search h q line it Hp) as H.
    unfold getColumnNumber.
    destruct (String_search h (text it) (searched q (name it))); [| |contradiction];
      now rewrite H.
  - repeat split. eexists. split; [vm_compute; reflexivity|]. split; reflexivity.
  - repeat split. eexists. split; [vm_compute; reflexivity|]. split; reflexivity.
Qed.

(** *** The queue: one submission *)

Lemma filter_async_all (heap : list promise) (queue : list ref) :
  List.filter (fun p => ToBoolean (is_pending_async heap p)) queue = queue.
Proof. induction queue as [|p queue IH]; simpl; [reflexivity | f_equal; exact IH]. Qed.

Lemma scan_range (heap : list promise) (queue : list ref) (i : nat) :
  (i <= fst (scan heap queue i) <= i + List.length queue)%nat.
Proof.
  revert i. induction queue as [|p queue IH]; intros i; simpl; [lia|].
  destruct (negb _); simpl; [lia|].
  specialize (IH (S i)). destruct (scan heap queue (S i)). simpl in *. lia.
Qed.

(** The loop stops at the first slot that is not pending. *)
Lemma scan_stops (heap : list promise) (queue : list ref) (i : nat) :
  (fst (scan heap queue i) < i + List.length queue)%nat ->
  exists p,
    queue !! (fst (scan heap queue i) - i)%nat = Some p /\
    promiseState heap p <> "pending"%string /\
    forall j p', (j < fst (scan heap queue i) - i)%nat -> queue !! j = Some p' ->
                 promiseState heap p' = "pending"%string.
Proof.
  revert i. induction queue as [|p queue IH]; intros i; simpl; [lia|].
  destruct (String.eqb_spec (promiseState heap p) "pending") as [Hp|Hp]; simpl.
  - specialize (IH (S i)). pose proof (scan_range heap queue (S i)) as Hr.
    destruct (scan heap queue (S i)) as [k entries]. simpl in *.
    intros Hlt. destruct (IH ltac:(lia)) as (p0 & Hq & Hn & Hbefore).
    exists p0. replace (k - i)%nat with (S (k - S i)) by lia.
    split; [exact Hq|]. split; [exact Hn|].
    intros [|j] p' Hj Hl; simpl in Hl.
    + now inversion Hl; subst.
    + apply (Hbefore j p'); [lia | exact Hl].
  - intros _. exists p. rewrite Nat.sub_diag. split; [reflexivity|]. split; [exact Hp|].
    intros j p' Hj. lia.
Qed.

(** It runs through the whole queue exactly when every slot is pending. *)
Lemma scan_full (heap : list promise) (queue : list ref) (i : nat) :
  fst (scan heap queue i) = (i + List.length queue)%nat <->
  forall p, In p queue -> promiseState heap p = "pending"%string.
Proof.
  revert i. induction queue as [|p queue IH]; intros i; simpl.
  - split; [intros _ p [] | lia].
  - specialize (IH (S i)). pose proof (scan_range heap queue (S i)) as Hr.
    destruct (String.eqb_spec (promiseState heap p) "pending") as [Hp|Hp]; simpl.
    + destruct (scan heap queue (S i)) as [k entries]. simpl in *.
      split.
      * intros Hk p' [<-|Hin]; [exact Hp|]. apply IH; [lia | exact Hin].
      * intros Hall. assert (k = (S i + List.length queue)%nat) by (apply IH; auto). lia.
    + split; [lia|]. intros Hall. exfalso. apply Hp, Hall. now left.
Qed.

Lemma array_set_lt (index : nat) (x : ref) (a : list ref) :
  (index < List.length a)%nat -> array_set index x a = <[index := x]> a.
Proof.
  intros H. unfold array_set. destruct (Nat.ltb_spec index (List.length a)); [reflexivity|lia].
Qed.

(** What a submission does: it is refused and changes nothing but the
    log, or it appends one promise, waiting for every promise of the
    queue, and puts it in the first slot that is not pending. *)
Lemma buildSingle_cases (cwd : string) (c : Cscope) :
  let c' := fst (buildSingle cwd c) in
  (snd (buildSingle cwd c) = Refused "queue full" /\
   buildQueue c' = buildQueue c /\ promises c' = promises c /\
   buildCmd c' = buildCmd c /\ queryCmd c' = queryCmd c /\
   config c' = config c /\ env c' = env c /\
   forall p, In p (buildQueue c) -> promiseState (promises c) p = "pending"%string) \/
  (exists index old,
     snd (buildSingle cwd c) = Stored (List.length (promises c)) /\
     buildQueue c !! index = Some old /\
     promiseState (promises c) old <> "pending"%string /\
     (forall j p', (j < index)%nat -> buildQueue c !! j = Some p' ->
                   promiseState (promises c) p' = "pending"%string) /\
     buildQueue c' = <[index := List.length (promises c)]> (buildQueue c) /\
     promises c' = promises c ++ [Promise_build cwd (buildQueue c) Waiting] /\
     buildCmd c' = buildCmd c /\ queryCmd c' = queryCmd c /\
     config c' = config c /\ env c' = env c).
Proof.
  unfold buildSingle.
  pose proof (scan_range (promises c) (buildQueue c) 0) as Hr.
  pose proof (scan_stops (promises c) (buildQueue c) 0) as Hs.
  pose proof (scan_full (promises c) (buildQueue c) 0) as Hf.
  destruct (scan (promises c) (buildQueue c) 0) as [index entries]. simpl in Hr, Hs, Hf.
  unfold after_scan. cbn [buildQueue promises add_log].
  destruct (Nat.leb_spec (List.length (buildQueue c)) index) as [Hfull|Hfree]; cbn zeta.
  - left. cbn. repeat split. apply Hf. lia.
  - right. destruct (Hs Hfree) as (old & Hq & Hn & Hbefore).
    rewrite Nat.sub_0_r in Hq, Hbefore.
    rewrite filter_async_all. exists index, old. cbn. repeat split; auto.
    now apply array_set_lt.
Qed.

(** *** The queue: what an event changes *)

Lemma evolves_insert (h : list promise) (p : ref) (old new : promise) :
  h !! p = Some old ->
  match old with
  | Promise_build cwd ps Waiting =>
      new = Promise_build cwd ps Running /\ all_fulfilled h ps = true
  | Promise_build cwd ps Running => exists r, new = Promise_build cwd ps (Settled r)
  | _ => False
  end ->
  evolves h (<[p := new]> h).
Proof.
  intros Hold Hnew q pr Hq. destruct (decide (p = q)) as [<-|Hne].
  - right. rewrite Hq in Hold. inversion Hold; subst old.
    rewrite list_lookup_insert_eq by (eapply lookup_lt_Some; eauto).
    destruct pr as [v|cwd ps [| |r]]; try contradiction.
    + destruct Hnew as [-> Hall]. auto.
    + destruct Hnew as [r ->]. eauto.
  - left. now rewrite list_lookup_insert_ne.
Qed.

Lemma start_build_spec (p : ref) (c c' : Cscope) :
  start_build p c = Some c' ->
  exists cwd ps,
    promises c !! p = Some (Promise_build cwd ps Waiting) /\
    all_fulfilled (promises c) ps = true /\
    promises c' = <[p := Promise_build cwd ps Running]> (promises c) /\
    buildQueue c' = buildQueue c /\ config c' = config c /\ env c' = env c.
Proof.
  unfold start_build.
  destruct (promises c !! p) as [[v|cwd ps [| |r]]|] eqn:Hp; try discriminate.
  destruct (all_fulfilled (promises c) ps) eqn:Hall; [|discriminate].
  intros [= <-]. exists cwd, ps. cbn. repeat split; auto.
Qed.

Lemma settle_build_spec (p : ref) (x : exit) (c c' : Cscope) :
  settle_build p x c = Some c' ->
  exists cwd ps,
    promises c !! p = Some (Promise_build cwd ps Running) /\
    promises c' = <[p := Promise_build cwd ps (Settled (snd (on_exit x)))]> (promises c) /\
    buildQueue c' = buildQueue c /\ config c' = config c /\ env c' = env c /\
    buildCmd c' = buildCmd c.
Proof.
  unfold settle_build.
  destruct (promises c !! p) as [[v|cwd ps [| |r]]|] eqn:Hp; try discriminate.
  destruct (on_exit x) as [entries r] eqn:Hx.
  intros [= <-]. exists cwd, ps. cbn. repeat split; auto.
Qed.

(** An event keeps the number of slots and the configuration, and
    changes the promises as [evolves] says; it never removes one. *)
Lemma step_spec (c c' : Cscope) (e : event) :
  step c e = Some c' ->
  List.length (buildQueue c') = List.length (buildQueue c) /\
  evolves (promises c) (promises c') /\
  (List.length (promises c) <= List.length (promises c'))%nat /\
  config c' = config c /\ env c' = env c.
Proof.
  destruct e as [cwd|p|p x]; simpl.
  - intros [= <-].
    destruct (buildSingle_cases cwd c)
      as [(_ & Hq & Hh & _ & _ & Hc & He & _)
         |(index & old & _ & _ & _ & _ & Hq & Hh & _ & _ & Hc & He)];
      cbv zeta in *; rewrite Hq, Hh.
    + repeat split; auto. intros p pr Hp. now left.
    + rewrite length_insert, length_app. repeat split; auto; [|lia].
      intros p pr Hp. left. now apply lookup_app_l_Some.
  - intros H. destruct (start_build_spec _ _ _ H) as (cwd & ps & Hp & Hall & Hh & Hq & Hc & He).
    rewrite Hh, Hq, length_insert. repeat split; auto.
    eapply evolves_insert; [exact Hp|]. cbn. auto.
  - intros H. destruct (settle_build_spec _ _ _ _ H) as (cwd & ps & Hp & Hh & Hq & Hc & He & _).
    rewrite Hh, Hq, length_insert. repeat split; auto.
    eapply evolves_insert; [exact Hp|]. cbn. eauto.
Qed.

(** A settled promise keeps its state. *)
Lemma evolves_settled (h h' : list promise) (p : ref) (s : string) :
  evolves h h' -> is_Some (h !! p) -> promiseState h p = s -> s <> "pending"%string ->
  promiseState h' p = s.
Proof.
  intros He [pr Hp] Hs Hn. unfold promiseState in *. rewrite Hp in Hs.
  destruct (He p pr Hp) as [->|H]; [exact Hs|].
  destruct pr as [v|cwd ps [| |r]]; simpl in *; try contradiction; congruence.
Qed.

Lemma all_fulfilled_In (h : list promise) (ps : list ref) (w : ref) :
  all_fulfilled h ps = true -> In w ps -> promiseState h w = "fulfilled"%string.
Proof.
  unfold all_fulfilled. rewrite forallb_forall. intros H Hin.
  now apply String.eqb_eq, H.
Qed.

Lemma blocked_pending (h : list promise) (p : ref) :
  blocked h p -> promiseState h p = "pending"%string.
Proof. intros [? ? ? ? Hp _ _|? ? ? ? Hp _ _]; unfold promiseState; now rewrite Hp. Qed.

(** A blocked build stays blocked. *)
Lemma blocked_evolves (h h' : list promise) (p : ref) :
  evolves h h' -> blocked h p -> blocked h' p.
Proof.
  intros He Hb. induction Hb as [p cwd ps w Hp Hin Hw|p cwd ps w Hp Hin Hw IH].
  - destruct (He p _ Hp) as [Hp'|[_ Hall]].
    + eapply blocked_rejected; [exact Hp'|exact Hin|].
      eapply evolves_settled; [exact He| |exact Hw|discriminate].
      unfold promiseState in Hw. destruct (h !! w); [eauto|discriminate].
    + rewrite (all_fulfilled_In _ _ _ Hall Hin) in Hw. discriminate.
  - destruct (He p _ Hp) as [Hp'|[_ Hall]].
    + eapply blocked_behind; eauto.
    + pose proof (all_fulfilled_In _ _ _ Hall Hin) as Hf.
      rewrite (blocked_pending _ _ Hw) in Hf. discriminate.
Qed.

Lemma run_app_step (c : Cscope) (es : list event) :
  forall c', run c es = Some c' ->
  List.length (buildQueue c') = List.length (buildQueue c) /\
  (forall p, blocked (promises c) p -> blocked (promises c') p) /\
  config c' = config c /\ env c' = env c.
Proof.
  revert c. induction es as [|e es IH]; intros c c'; simpl.
  - intros [= <-]. auto.
  - destruct (step c e) as [c1|] eqn:Hs; [|discriminate].
    intros Hr. destruct (step_spec _ _ _ Hs) as (Hl & He & _ & Hc & Hv).
    destruct (IH _ _ Hr) as (Hl' & Hb & Hc' & Hv').
    repeat split; try congruence.
    intros p Hp. apply Hb. eapply blocked_evolves; eauto.
Qed.


Lemma blocked_no_start (c : Cscope) (p : ref) :
  blocked (promises c) p -> start_build p c = None.
Proof.
  intros Hb. destruct (start_build p c) as [c'|] eqn:Hs; [exfalso|reflexivity].
  destruct (start_build_spec _ _ _ Hs) as (cwd & ps & Hp & Hall & _).
  destruct Hb as [p cwd' ps' w Hp' Hin Hw|p cwd' ps' w Hp' Hin Hw];
    rewrite Hp in Hp'; inversion Hp'; subst;
    pose proof (all_fulfilled_In _ _ _ Hall Hin) as Hf.
  - rewrite Hw in Hf. discriminate.
  - rewrite (blocked_pending _ _ Hw) in Hf. discriminate.
Qed.

(** A blocked build is never started and never settles. *)
Lemma blocked_forever (c c' : Cscope) (p : ref) (es : list event) :
  blocked (promises c) p -> run c es = Some c' ->
  start_build p c' = None /\ promiseState (promises c') p = "pending"%string.
Proof.
  intros Hb Hr. destruct (run_app_step c es c' Hr) as (_ & Hk & _).
  split; [apply blocked_no_start | apply blocked_pending]; auto.
Qed.

(** *** The queue: claims *)




(** *** The builds that the queue holds *)

Lemma In_insert_new (l : list nat) (i x : nat) :
  (i < List.length l)%nat -> In x (<[i := x]> l).
Proof.
  intros H. apply list_elem_of_In. eapply list_elem_of_lookup_2.
  now apply list_lookup_insert_eq.
Qed.








(** C1, on the code.  A fresh object whose first build has failed holds
    no pending promise; the next submission is stored, and the promise
    it stores waits for both promises of the queue, the rejected one of
    the failed build among them: whatever happens afterwards, its build
    is never started and it stays pending.  Likewise a build submitted
    while the first is pending is never started once the first has
    failed. *)
Theorem rejected_slot_blocks_next_build :
  (exists c,
     Ex.after_failure = Some c /\
     buildQueue c = [2; 1]%nat /\ outstanding c = [] /\
     promiseState (promises c) 2 = "rejected"%string /\
     snd (buildSingle "/ws/b" c) = Stored 3 /\
     promises (fst (buildSingle "/ws/b" c)) !! 3%nat
     = Some (Promise_build "/ws/b" [2; 1]%nat Waiting) /\
     forall es c',
       run (fst (buildSingle "/ws/b" c)) es = Some c' ->
       start_build 3 c' = None /\ promiseState (promises c') 3 = "pending"%string) /\
  (outstanding (fst (buildSingle "/ws/a" (constructor Ex.cfg Ex.folders))) = [2%nat] /\
   promises Ex.two_submitted !! 3%nat = Some (Promise_build "/ws/b" [2; 1]%nat Waiting) /\
   exists c,
     Ex.first_of_two_failed = Some c /\
     promiseState (promises c) 2 = "rejected"%string /\
     forall es c',
       run c es = Some c' ->
       start_build 3 c' = None /\ promiseState (promises c') 3 = "pending"%string).
Proof.
  split.
  - eexists. split; [vm_compute; reflexivity|].
    split; [reflexivity|]. split; [reflexivity|]. split; [reflexivity|].
    split; [vm_compute; reflexivity|]. split; [vm_compute; reflexivity|].
    intros es c' Hr. eapply (blocked_forever _ _ 3%nat es); [|exact Hr].
    eapply (blocked_rejected _ 3%nat "/ws/b" [2; 1]%nat 2%nat);
      [vm_compute; reflexivity|now left|vm_compute; reflexivity].
  - split; [vm_compute; reflexivity|]. split; [vm_compute; reflexivity|].
    eexists. split; [vm_compute; reflexivity|]. split; [reflexivity|].
    intros es c' Hr. eapply (blocked_forever _ _ 3%nat es); [|exact Hr].
    eapply (blocked_rejected _ 3%nat "/ws/b" [2; 1]%nat 2%nat);
      [reflexivity|now left|reflexivity].
Qed.

(** *** [build] and [query] *)

Lemma on_exit_settlement (x : exit) :
  snd (on_exit x)
  = match x with
    | Exit (Some 0) out _ => Fulfilled (JS.trim out)
    | Exit _ _ err => Rejected (JS.trim err)
    | LaunchError error => Rejected (JS.trim error)
    end.
Proof.
  destruct x as [[[|n|n]|] out err|error]; simpl; try reflexivity;
    destruct (0 <? JS.length err); reflexivity.
Qed.

(** What [await this.buildSingle(dir)] gives to [build]. *)
Lemma await_buildSingle_result (l : spawned) (cwd : string) (c : Cscope) :
  match snd (await_buildSingle l cwd c) with
  | Returned v => exists x, l = Process x /\ snd (on_exit x) = Fulfilled v
  | Thrown e =>
      e = "queue full"%string \/ exists x, l = Process x /\ snd (on_exit x) = Rejected e
  | Never => True
  end.
Proof.
  unfold await_buildSingle. destruct (buildSingle cwd c) as [c1 [p|reason]] eqn:Hb.
  - destruct (start_build p c1); simpl; [|exact I].
    destruct l as [x|error]; simpl; [|exact I].
    destruct (snd (on_exit x)) eqn:E; eauto.
  - simpl. left.
    destruct (buildSingle_cases cwd c) as [(Hr & _)|(? & ? & Hr & _)];
      rewrite Hb in Hr; simpl in Hr; congruence.
Qed.

(** No error escapes [build]: it returns its report, or it never returns. *)
Lemma build_loop_never_throws (world : nat -> string -> spawned) (directories : list string) :
  forall i results c e, snd (build_loop world i directories results c) <> Thrown e.
Proof.
  induction directories as [|dir directories IH]; intros i results c e; simpl; [discriminate|].
  destruct (await_buildSingle (world i dir) dir c) as [c1 [v|e'|]]; [apply IH|apply IH|discriminate].
Qed.

(** The report, when [build] returns one: a segment for each directory,
    in order, joined by line feeds. *)
Lemma build_loop_report (world : nat -> string -> spawned) (directories : list string) :
  forall i results c report,
    snd (build_loop world i directories results c) = Returned report ->
    exists segments,
      report = JS.join JS.LF (results ++ segments) /\
      segments_ok world i directories segments.
Proof.
  induction directories as [|dir directories IH]; intros i results c report; simpl.
  - intros [= <-]. exists []. now rewrite app_nil_r.
  - pose proof (await_buildSingle_result (world i dir) dir c) as Hr.
    destruct (await_buildSingle (world i dir) dir c) as [c1 [v|e|]]; simpl in Hr;
      [| |discriminate]; intros H; destruct (IH _ _ _ _ H) as (segments & -> & Hs).
    + exists (v :: segments). rewrite <- app_assoc. split; [reflexivity|]. split; [|exact Hs].
      right. destruct Hr as (x & -> & Hr). rewrite on_exit_settlement in Hr.
      destruct x as [[[|n|n]|] out err|error]; congruence.
    + exists (("Error: " +:+ e) :: segments). rewrite <- app_assoc.
      split; [reflexivity|]. split; [|exact Hs].
      destruct Hr as [->|(x & -> & Hr)]; [now left|right]. rewrite on_exit_settlement in Hr.
      destruct x as [[[|n|n]|] out err|error]; congruence.
Qed.

(** [querySingle] settles, and [query] returns. *)
Lemma querySingle_settles (I : ItemClass) (type word cwd : string) (x : queryExit) (c : Cscope) :
  snd (querySingle I type word cwd x c) <> Never.
Proof.
  unfold querySingle. destruct x as [code lines err|error|error]; [|discriminate|discriminate].
  destruct (fold_left _ _ _) as [[results entries] out].
  destruct (code_ne_0 code); discriminate.
Qed.

Lemma query_loop_returns (I : ItemClass) (world : nat -> string -> queryExit)
    (type word : string) (directories : list string) :
  forall i allResults c,
    exists items, snd (query_loop I world i type word directories allResults c) = Returned items.
Proof.
  induction directories as [|dir directories IH]; intros i allResults c; simpl; [eauto|].
  pose proof (querySingle_settles I type word dir (world i dir) c) as Hs.
  destruct (querySingle I type word dir (world i dir) c) as [c1 [results|e|]];
    [apply IH|apply IH|contradiction].
Qed.

(** C3, on the code: with two workspace folders, when the build of the
    first exits with code 1 the failure is caught and logged, and the
    build of the second is submitted and stored, but the promise that
    [build] then awaits is one that never settles: [build] does not
    return. *)
Theorem build_hangs_after_failed_directory :
  snd (build Ex.a_fails (constructor Ex.cfg Ex.folders)) = Never /\
  In (log_err ["Failed to build database for /ws/a:"; "cscope: no source files"]%string)
     (log (fst (build Ex.a_fails (constructor Ex.cfg Ex.folders)))) /\
  buildQueue (fst (build Ex.a_fails (constructor Ex.cfg Ex.folders))) = [3; 1]%nat /\
  forall es c,
    run (fst (build Ex.a_fails (constructor Ex.cfg Ex.folders))) es = Some c ->
    promiseState (promises c) 3 = "pending"%string.
Proof.
  split; [reflexivity|]. split; [vm_compute; tauto|]. split; [reflexivity|].
  intros es c Hr. eapply (blocked_forever _ _ 3%nat es); [|exact Hr].
  eapply (blocked_rejected _ 3%nat "/ws/b" [2; 1]%nat 2%nat); [reflexivity|now left|reflexivity].
Qed.

(** C4, on the code: of two directories, when the build of the second
    fails the report has its two segments; when the build of the first
    fails there is no report at all, where the claim has the two
    segments "Error: cscope: no source files" and "done". *)
Theorem build_report_lost_after_failure :
  snd (build Ex.b_fails (constructor Ex.cfg Ex.folders))
  = Returned (JS.join JS.LF ["done"; "Error: cscope: no source files"]%string) /\
  forall report, snd (build Ex.a_fails (constructor Ex.cfg Ex.folders)) <> Returned report.
Proof. split; [reflexivity|discriminate]. Qed.

(** [QueryType[type]] for a key of the table, for a name that every
    object inherits, and for any other string. *)
Example QueryType_get_examples :
  QueryType_get "caller" = JString "-3" /\
  QueryType_get "toString" = JInherited "toString" /\
  QueryType_get "callers" = JUndefined.
Proof. repeat split. Qed.

(** [Uri.file(p).fsPath] for an absolute path, a relative path, a share
    and a drive. *)
Example Uri_file_fsPath_examples :
  Uri_file_fsPath "/src/a.c" = "/src/a.c"%string /\
  Uri_file_fsPath "ws/a.c" = "/ws/a.c"%string /\
  Uri_file_fsPath "//host/share/a.c" = "//host/share/a.c"%string /\
  Uri_file_fsPath "/C:/a.c" = "c:/a.c"%string.
Proof. repeat split. Qed.

(** What [querySingle] does before the process runs: it sets the query
    command and calls [cp.spawn]. *)
Lemma querySingle_spawn (I : ItemClass) (type word cwd : string) (x : queryExit) (c : Cscope) :
  spawns (fst (querySingle I type word cwd x c))
  = spawns c ++ [(get (config c) "cscope", query_args (config c) type word, cwd)] /\
  queryCmd (fst (querySingle I type word cwd x c))
  = join_args " " (JString (get (config c) "cscope") :: query_args (config c) type word).
Proof.
  unfold querySingle. destruct x as [code lines err|error|error]; [|split; reflexivity..].
  destruct (fold_left _ _ _) as [[results entries] out].
  destruct (code_ne_0 code); split; reflexivity.
Qed.

(** C9.  [QueryType[kind]] is a flag for the nine kinds of the table,
    with the flag of the table, and for no other kind.  Every call of
    [querySingle] calls [cp.spawn] with the configured tool, the
    arguments [queryArgs], [-f], the database, [QueryType[kind]] and
    the word, in this order, and the working directory.  For each of
    the nine kinds the fourth argument is the flag of the kind, and the
    query command that is kept is the tool and these arguments with a
    space between them. *)
Theorem query_flags :
  (forall kind flag,
     QueryType_get kind = JString flag <->
     In (kind, flag)
        [ ("symbol", "-0"); ("definition", "-1"); ("callee", "-2"); ("caller", "-3");
          ("text", "-4"); ("egrep", "-5"); ("file", "-6"); ("include", "-7");
          ("set", "-8") ]%string) /\
  (forall I kind word cwd x c,
     spawns (fst (querySingle I kind word cwd x c))
     = spawns c ++ [(get (config c) "cscope",
                     [JString (get (config c) "queryArgs"); JString "-f";
                      JString (get (config c) "database"); QueryType_get kind; JString word],
                     cwd)]) /\
  (forall I kind flag word cwd x c,
     In (kind, flag)
        [ ("symbol", "-0"); ("definition", "-1"); ("callee", "-2"); ("caller", "-3");
          ("text", "-4"); ("egrep", "-5"); ("file", "-6"); ("include", "-7");
          ("set", "-8") ]%string ->
     spawns (fst (querySingle I kind word cwd x c))
     = spawns c ++ [(get (config c) "cscope",
                     [JString (get (config c) "queryArgs"); JString "-f";
                      JString (get (config c) "database"); JString flag; JString word],
                     cwd)] /\
     getQueryCmd (fst (querySingle I kind word cwd x c))
     = get (config c) "cscope" +:+ " " +:+ get (config c) "queryArgs" +:+ " " +:+ "-f"
       +:+ " " +:+ get (config c) "database" +:+ " " +:+ flag +:+ " " +:+ word).
Proof.
  assert (Htable : forall kind flag,
            QueryType_get kind = JString flag <->
            In (kind, flag)
               [ ("symbol", "-0"); ("definition", "-1"); ("callee", "-2"); ("caller", "-3");
                 ("text", "-4"); ("egrep", "-5"); ("file", "-6"); ("include", "-7");
                 ("set", "-8") ]%string).
  { intros kind flag. unfold QueryType_get, QueryType. cbn [find fst snd]. split.
    - repeat match goal with
        | |- context [String.eqb ?a kind] =>
            destruct (String.eqb_spec a kind) as [<-|?]
        end; try (intros [= <-]; simpl; tauto).
      destruct (existsb _ _); discriminate.
    - intros Hin. simpl in Hin.
      repeat (destruct Hin as [[= <- <-]|Hin]; [reflexivity|]). destruct Hin. }
  split; [exact Htable|]. split.
  { intros I kind word cwd x c. exact (proj1 (querySingle_spawn I kind word cwd x c)). }
  intros I kind flag word cwd x c Hin. apply Htable in Hin.
  destruct (querySingle_spawn I kind word cwd x c) as [Hs Hq].
  unfold getQueryCmd. rewrite Hs, Hq. unfold query_args. rewrite Hin. split; reflexivity.
Qed.

(** *** [build] on its own: when it returns and when it does not *)

Lemma evolves_app (h : list promise) (new : list promise) : evolves h (h ++ new).
Proof. intros p pr Hp. left. now apply lookup_app_l_Some. Qed.

Lemma evolves_app_insert (h : list promise) (pr pr' : promise) :
  evolves h (<[List.length h := pr']> (h ++ [pr])).
Proof.
  intros p old Hp. left. pose proof (lookup_lt_Some _ _ _ Hp).
  rewrite list_lookup_insert_ne by lia. now apply lookup_app_l_Some.
Qed.

Lemma not_all_fulfilled (h : list promise) (ps : list ref) :
  all_fulfilled h ps = false ->
  exists w, In w ps /\ promiseState h w <> "fulfilled"%string.
Proof.
  unfold all_fulfilled. induction ps as [|p ps IH]; simpl; [discriminate|].
  destruct (String.eqb_spec (promiseState h p) "fulfilled") as [Hp|Hp]; simpl.
  - intros H. destruct (IH H) as (w & Hin & Hw). eauto.
  - intros _. eauto.
Qed.

Lemma promiseState_cases (h : list promise) (p : ref) :
  promiseState h p = "fulfilled"%string \/
  promiseState h p = "rejected"%string \/
  (promiseState h p = "pending"%string /\
   exists pr, h !! p = Some pr /\ settlement_of pr = None).
Proof.
  unfold promiseState. destruct (h !! p) as [pr|]; [|now left].
  destruct (settlement_of pr) as [[v|e]|] eqn:Hs; eauto 6.
Qed.

(** On a clean object the submission takes the first slot; its build
    starts, and ends as its process does, or never when [cp.spawn] throws. *)
Lemma await_buildSingle_clean (l : spawned) (cwd : string) (c : Cscope) :
  clean c ->
  exists c' n rest,
    await_buildSingle l cwd c
    = (c', match l with
           | Process x =>
               match snd (on_exit x) with Fulfilled v => Returned v | Rejected e => Thrown e end
           | SpawnThrows _ => Never
           end) /\
    buildQueue c' = n :: rest /\
    promises c' !! n
    = Some (Promise_build cwd (buildQueue c)
              match l with
              | Process x => Settled (snd (on_exit x))
              | SpawnThrows _ => Running
              end) /\
    forall p, In p rest ->
      exists pr v, promises c' !! p = Some pr /\ settlement_of pr = Some (Fulfilled v).
Proof.
  intros [Hne Hc]. unfold await_buildSingle.
  assert (Hstate : forall p, In p (buildQueue c) ->
            promiseState (promises c) p = "fulfilled"%string /\
            (p < List.length (promises c))%nat).
  { intros p Hin. destruct (Hc p Hin) as (pr & v & Hp & Hs). unfold promiseState.
    rewrite Hp, Hs. split; [reflexivity|]. eapply lookup_lt_Some, Hp. }
  destruct (buildQueue c) as [|p0 rest] eqn:Hqueue; [contradiction|].
  destruct (buildSingle_cases cwd c)
    as [(_ & _ & _ & _ & _ & _ & _ & Hall)|(index & old & Hr & Hold & _ & Hbefore & Hbq & Hh & _)];
    cbv zeta in *.
  { rewrite Hqueue in Hall. specialize (Hall p0 (or_introl eq_refl)).
    destruct (Hstate p0 (or_introl eq_refl)) as [Hf _]. congruence. }
  assert (index = 0%nat) as ->.
  { destruct index as [|j]; [reflexivity|exfalso].
    rewrite Hqueue in Hbefore. specialize (Hbefore 0%nat p0 ltac:(lia) eq_refl).
    destruct (Hstate p0 (or_introl eq_refl)) as [Hf _]. congruence. }
  rewrite Hqueue in Hbq, Hh. cbn in Hbq.
  destruct (buildSingle cwd c) as [c1 s]; simpl in *; subst s.
  set (n := List.length (promises c)) in *.
  assert (Hp1 : promises c1 !! n = Some (Promise_build cwd (p0 :: rest) Waiting)).
  { rewrite Hh. subst n. now rewrite lookup_app_r, Nat.sub_diag by lia. }
  assert (Hall : all_fulfilled (promises c1) (p0 :: rest) = true).
  { unfold all_fulfilled. apply forallb_forall. intros p Hin. apply String.eqb_eq.
    destruct (Hc p Hin) as (pr & v & Hp & Hs). unfold promiseState.
    rewrite Hh, lookup_app_l, Hp, Hs; [reflexivity|]. eapply lookup_lt_Some, Hp. }
  assert (Hn1 : (n < List.length (promises c1))%nat).
  { rewrite Hh, length_app. simpl. subst n. lia. }
  assert (Hrest : forall (h : list promise) p, In p rest ->
            h = promises c1 ->
            forall pr', exists pr v, <[n := pr']> h !! p = Some pr /\
                                     settlement_of pr = Some (Fulfilled v)).
  { intros h p Hin -> pr'. destruct (Hc p (or_intror Hin)) as (pr & v & Hp & Hs).
    exists pr, v. split; [|exact Hs].
    pose proof (lookup_lt_Some _ _ _ Hp).
    rewrite list_lookup_insert_ne by (subst n; lia).
    rewrite Hh. now apply lookup_app_l_Some. }
  unfold start_build. rewrite Hp1, Hall.
  destruct l as [x|error].
  - unfold settle_build.
    cbn [promises set_promise add_spawn add_log set_buildCmd buildQueue].
    rewrite list_lookup_insert_eq by exact Hn1.
    destruct (on_exit x) as [entries r]. cbn [default from_option id snd].
    eexists _, n, rest. split; [reflexivity|].
    cbn [promises set_promise add_spawn add_log set_buildCmd buildQueue].
    rewrite list_insert_insert_eq. split; [exact Hbq|]. split.
    + now rewrite list_lookup_insert_eq.
    + intros p Hin. now apply Hrest.
  - eexists _, n, rest. split; [reflexivity|].
    cbn [promises set_promise add_spawn add_log set_buildCmd buildQueue].
    split; [exact Hbq|]. split.
    + now rewrite list_lookup_insert_eq.
    + intros p Hin. now apply Hrest.
Qed.

(** After a failed build in the first slot, the next awaited submission
    never settles: the rejected promise is among those it waits for. *)
Lemma await_buildSingle_after_rejection (l : spawned) (cwd : string) (c : Cscope) (n : ref)
    (rest : list ref) :
  buildQueue c = n :: rest -> promiseState (promises c) n = "rejected"%string ->
  snd (await_buildSingle l cwd c) = Never.
Proof.
  intros Hqueue Hrej. unfold await_buildSingle.
  assert (Hn : is_Some (promises c !! n)).
  { unfold promiseState in Hrej. destruct (promises c !! n); [eauto|discriminate]. }
  destruct (buildSingle_cases cwd c)
    as [(_ & _ & _ & _ & _ & _ & _ & Hall)|(index & old & Hr & _ & _ & _ & _ & Hh & _)];
    cbv zeta in *.
  { rewrite Hqueue in Hall. specialize (Hall n (or_introl eq_refl)). congruence. }
  destruct (buildSingle cwd c) as [c1 s]; simpl in *; subst s.
  unfold start_build. rewrite Hh, lookup_app_r, Nat.sub_diag by lia. cbn [lookup list_lookup].
  replace (all_fulfilled _ _) with false; [reflexivity|].
  symmetry. rewrite Hqueue. unfold all_fulfilled. cbn [forallb].
  replace (promiseState (promises c ++ _) n) with "rejected"%string; [reflexivity|].
  symmetry. eapply evolves_settled; [apply evolves_app|exact Hn|exact Hrej|discriminate].
Qed.


Lemma build_loop_never_first (world : nat -> string -> spawned) (dir : string)
    (directories : list string) (i : nat) (results : list string) (c : Cscope) :
  snd (await_buildSingle (world i dir) dir c) = Never ->
  snd (build_loop world i (dir :: directories) results c) = Never.
Proof.
  cbn [build_loop]. destruct (await_buildSingle (world i dir) dir c) as [c1 [v|e|]];
    simpl; intros H; [discriminate|discriminate|reflexivity].
Qed.

(** ... and never returns when a build that is not the last fails. *)
Lemma build_loop_hangs (world : nat -> string -> spawned) (dir dir2 : string)
    (directories : list string) (i : nat) (results : list string) (c : Cscope) :
  clean c -> ~ succeeds (world i dir) ->
  snd (build_loop world i (dir :: dir2 :: directories) results c) = Never.
Proof.
  intros Hc Hfail.
  destruct (await_buildSingle_clean (world i dir) dir c Hc) as (c' & n & rest & Ha & Hq & Hn & _).
  change (build_loop world i (dir :: dir2 :: directories) results c)
    with (match await_buildSingle (world i dir) dir c with
          | (c1, Returned result) =>
              build_loop world (S i) (dir2 :: directories) (results ++ [result]) c1
          | (c1, Thrown err) =>
              build_loop world (S i) (dir2 :: directories) (results ++ ["Error: " +:+ err])
                (add_log [log_err ["Failed to build database for " +:+ dir +:+ ":"; err]] c1)
          | (c1, Never) => (c1, Never)
          end).
  rewrite Ha. destruct (world i dir) as [x|error]; [|reflexivity].
  rewrite on_exit_settlement in *.
  assert (Hrej : exists e, promiseState (promises c') n = "rejected"%string /\
                   match x with
                   | Exit (Some 0) out _ => Fulfilled (JS.trim out)
                   | Exit _ _ err => Rejected (JS.trim err)
                   | LaunchError error => Rejected (JS.trim error)
                   end = Rejected e).
  { unfold promiseState. rewrite Hn.
    destruct x as [[[|k|k]|] out err|error];
      try (exfalso; apply Hfail; exact I); eauto. }
  destruct Hrej as (e & Hrej & ->). apply build_loop_never_first.
  eapply (await_buildSingle_after_rejection _ _ _ n rest); [exact Hq|exact Hrej].
Qed.

(** *** Submissions that overlap *)

Lemma add_log_nil (c : Cscope) : add_log [] c = c.
Proof. destruct c. unfold add_log. simpl. now rewrite app_nil_r. Qed.

Lemma add_log_add_log (l1 l2 : list logEntry) (c : Cscope) :
  add_log l2 (add_log l1 c) = add_log (l1 ++ l2) c.
Proof. unfold add_log. simpl. now rewrite app_assoc. Qed.

(** The loop of [buildSingle], resumed with nothing in between, is the
    scan of the slots that are left. *)
Lemma drive_loop (cwd : string) (len : nat) (rest : list ref) :
  forall i c,
    List.length (buildQueue c) = len ->
    drop i (buildQueue c) = rest ->
    Interleaved.drive (List.length rest)
      (snd (Interleaved.loop cwd i len c)) (fst (Interleaved.loop cwd i len c))
    = (fst (after_scan cwd (fst (scan (promises c) rest i)) len
              (add_log (snd (scan (promises c) rest i)) c)),
       Interleaved.Done
         (snd (after_scan cwd (fst (scan (promises c) rest i)) len
                 (add_log (snd (scan (promises c) rest i)) c)))).
Proof.
  induction rest as [|p rest IH]; intros i c Hlen Hdrop.
  - assert (Hi : (len <= i)%nat).
    { apply (f_equal (@List.length _)) in Hdrop. rewrite length_drop in Hdrop.
      simpl in Hdrop. lia. }
    unfold Interleaved.loop. destruct (Nat.ltb_spec i len) as [|_]; [lia|].
    cbn [scan fst snd]. rewrite add_log_nil.
    destruct (after_scan cwd i len c) as [c' s]. reflexivity.
  - assert (Hi : (i < len)%nat).
    { apply (f_equal (@List.length _)) in Hdrop. rewrite length_drop in Hdrop.
      simpl in Hdrop. lia. }
    assert (Hp : buildQueue c !! i = Some p).
    { rewrite <- (Nat.add_0_r i), <- lookup_drop, Hdrop. reflexivity. }
    assert (Hrest : drop (S i) (buildQueue c) = rest).
    { replace (S i) with (i + 1)%nat by lia. rewrite <- drop_drop, Hdrop. reflexivity. }
    unfold Interleaved.loop at 1 2. destruct (Nat.ltb_spec i len) as [_|]; [|lia].
    cbn [fst snd List.length Interleaved.drive].
    unfold Interleaved.resume, Interleaved.probe_slot.
    cbn [Interleaved.cwd Interleaved.index Interleaved.len Interleaved.state].
    rewrite Hp. cbn [scan].
    destruct (negb (String.eqb (promiseState (promises c) p) "pending")) eqn:Hstate.
    + cbn [fst snd]. destruct (after_scan cwd i len _) as [c' s].
      destruct rest; reflexivity.
    + set (entry := log_info _).
      specialize (IH (S i) (add_log [entry] c) Hlen Hrest).
      cbn [promises add_log] in IH.
      destruct (Interleaved.loop cwd (S i) len (add_log [entry] c)) as [c1 k1].
      cbn [fst snd] in IH. rewrite IH.
      destruct (scan (promises c) rest (S i)) as [idx entries]. cbn [fst snd].
      now rewrite add_log_add_log.
Qed.

(** A call of [buildSingle] that no other call interrupts ends, after at
    most one resumption for each slot, as [buildSingle] says. *)
Theorem uninterrupted_call_is_buildSingle (cwd : string) (c : Cscope) :
  Interleaved.drive (List.length (buildQueue c))
    (snd (Interleaved.enter cwd c)) (fst (Interleaved.enter cwd c))
  = (fst (buildSingle cwd c), Interleaved.Done (snd (buildSingle cwd c))).
Proof.
  unfold Interleaved.enter, buildSingle.
  rewrite (drive_loop cwd (List.length (buildQueue c)) (buildQueue c) 0 c eq_refl eq_refl).
  destruct (scan (promises c) (buildQueue c) 0) as [index entries]. reflexivity.
Qed.

(** Two calls made in the same turn of the event loop both probe the
    first slot before either stores its promise: both are stored in
    slot 0, the second over the first and waiting for it, and the slot
    beside them is still free for a third call. *)
Example same_turn_submissions_share_a_slot :
  exists s,
    Interleaved.run {| Interleaved.object := constructor Ex.cfg Ex.folders;
                       Interleaved.calls := [] |}
      [Interleaved.Call "/ws/a"; Interleaved.Call "/ws/b";
       Interleaved.Resume 0; Interleaved.Resume 1; Interleaved.Start 2] = Some s /\
    Interleaved.calls s = [Interleaved.Done (Stored 2); Interleaved.Done (Stored 3)] /\
    buildQueue (Interleaved.object s) = [3; 1]%nat /\
    promises (Interleaved.object s) !! 2%nat
    = Some (Promise_build "/ws/a" [0; 1]%nat Running) /\
    promises (Interleaved.object s) !! 3%nat
    = Some (Promise_build "/ws/b" [2; 1]%nat Waiting) /\
    snd (buildSingle "/ws/c" (Interleaved.object s)) = Stored 4.
Proof. eexists. split; [vm_compute; reflexivity|]. repeat split. Qed.

Lemma pending_is_Some (h : list promise) (p : ref) :
  promiseState h p = "pending"%string ->
  exists pr, h !! p = Some pr /\ settlement_of pr = None.
Proof.
  destruct (promiseState_cases h p) as [H|[H|[_ H]]]; [congruence|congruence|auto].
Qed.

Lemma pending_app (h : list promise) (new : list promise) (p : ref) :
  promiseState h p = "pending"%string -> promiseState (h ++ new) p = "pending"%string.
Proof.
  intros H. destruct (pending_is_Some h p H) as (pr & Hp & Hs).
  unfold promiseState. now rewrite (lookup_app_l_Some _ _ _ _ Hp), Hs.
Qed.

Lemma In_insert (l : list nat) (i x y : nat) : In y (<[i := x]> l) -> y = x \/ In y l.
Proof.
  revert i. induction l as [|a l IH]; intros [|i]; simpl; auto.
  - intros [<-|H]; auto.
  - intros [<-|H]; auto. destruct (IH _ H); auto.
Qed.

Lemma In_array_set (l : list nat) (i x y : nat) : In y (array_set i x l) -> y = x \/ In y l.
Proof.
  unfold array_set. destruct (i <? List.length l)%nat; [apply In_insert|].
  intros H. apply in_app_or in H as [H|[<-|[]]]; auto.
Qed.

Lemma after_scan_pending (cwd : string) (index len : nat) (c : Cscope) :
  all_pending c -> all_pending (fst (after_scan cwd index len c)).
Proof.
  intros Hall. unfold after_scan. destruct (len <=? index)%nat; cbn [fst]; [auto|].
  unfold all_pending. cbn [store_new buildQueue promises].
  intros p Hin. apply In_array_set in Hin as [->|Hin].
  - unfold promiseState. now rewrite lookup_app_r, Nat.sub_diag by lia.
  - apply pending_app. now apply Hall.
Qed.

Lemma after_scan_full (cwd : string) (index len : nat) (c : Cscope) :
  (len <= index)%nat ->
  after_scan cwd index len c = (add_log [log_info ["queue full"%string]] c, Refused "queue full").
Proof. intros H. unfold after_scan. now destruct (Nat.leb_spec len index); [|lia]. Qed.

(** A stored submission writes a slot that the array has: the queue
    keeps its length, by the test that follows the loop. *)
Lemma after_scan_length (cwd : string) (index : nat) (c : Cscope) :
  List.length (buildQueue (fst (after_scan cwd index (List.length (buildQueue c)) c)))
  = List.length (buildQueue c).
Proof.
  unfold after_scan. destruct (Nat.leb_spec (List.length (buildQueue c)) index); cbn [fst].
  - reflexivity.
  - cbn [store_new buildQueue]. rewrite array_set_lt by lia. apply length_insert.
Qed.

Lemma loop_pending (cwd : string) (index len : nat) (c : Cscope) :
  all_pending c -> all_pending (fst (Interleaved.loop cwd index len c)).
Proof.
  intros Hall. unfold Interleaved.loop. destruct (index <? len)%nat; cbn [fst]; [exact Hall|].
  pose proof (after_scan_pending cwd index len c Hall) as H.
  now destruct (after_scan cwd index len c).
Qed.

Lemma loop_length (cwd : string) (index : nat) (c : Cscope) :
  List.length (buildQueue (fst (Interleaved.loop cwd index (List.length (buildQueue c)) c)))
  = List.length (buildQueue c).
Proof.
  unfold Interleaved.loop. destruct (_ <? _)%nat; cbn [fst]; [reflexivity|].
  pose proof (after_scan_length cwd index c) as H. now destruct (after_scan _ _ _ _).
Qed.

Lemma resume_pending (fr : Interleaved.frame) (c : Cscope) :
  all_pending c -> all_pending (fst (Interleaved.resume fr c)).
Proof.
  intros Hall. unfold Interleaved.resume. set (c0 := add_log _ c).
  assert (H0 : all_pending c0) by exact Hall.
  destruct (negb _).
  - pose proof (after_scan_pending (Interleaved.cwd fr) (Interleaved.index fr)
                  (Interleaved.len fr) c0 H0) as H.
    now destruct (after_scan _ _ _ _).
  - now apply loop_pending.
Qed.

Lemma resume_length (fr : Interleaved.frame) (c : Cscope) :
  Interleaved.len fr = List.length (buildQueue c) ->
  List.length (buildQueue (fst (Interleaved.resume fr c))) = List.length (buildQueue c).
Proof.
  intros Hlen. unfold Interleaved.resume. set (c0 := add_log _ c).
  rewrite Hlen. change (List.length (buildQueue c)) with (List.length (buildQueue c0)).
  destruct (negb _).
  - pose proof (after_scan_length (Interleaved.cwd fr) (Interleaved.index fr) c0) as H.
    now destruct (after_scan _ _ _ _).
  - apply loop_length.
Qed.

Lemma resume_frame (fr fr' : Interleaved.frame) (c : Cscope) :
  snd (Interleaved.resume fr c) = Interleaved.Suspended fr' ->
  Interleaved.len fr' = Interleaved.len fr.
Proof.
  unfold Interleaved.resume, Interleaved.loop.
  destruct (negb _).
  - destruct (after_scan _ _ _ _); discriminate.
  - destruct (_ <? _)%nat; [now intros [= <-]|].
    destruct (after_scan _ _ _ _); discriminate.
Qed.

(** The calls in progress have read the length of the queue, and the
    queue keeps it: an event changes neither. *)
Lemma frames_ok_step (s s' : Interleaved.system) (e : Interleaved.event) :
  frames_ok s -> Interleaved.step s e = Some s' ->
  frames_ok s' /\
  List.length (buildQueue (Interleaved.object s'))
  = List.length (buildQueue (Interleaved.object s)).
Proof.
  intros Hf Hstep.
  assert (Hlen : List.length (buildQueue (Interleaved.object s'))
                 = List.length (buildQueue (Interleaved.object s))).
  { destruct e as [cwd|j|p|p x]; simpl in Hstep.
    - pose proof (loop_length cwd 0 (Interleaved.object s)) as H.
      unfold Interleaved.enter in Hstep. destruct (Interleaved.loop _ _ _ _) as [c1 k1].
      now inversion Hstep; subst s'.
    - destruct (Interleaved.calls s !! j) as [[fr|]|] eqn:Hj; try discriminate.
      pose proof (resume_length fr (Interleaved.object s) (Hf j fr Hj)) as H.
      destruct (Interleaved.resume _ _) as [c1 k1]. now inversion Hstep; subst s'.
    - destruct (start_build p (Interleaved.object s)) as [c1|] eqn:Hs; [|discriminate].
      inversion Hstep; subst s'. cbn.
      now destruct (start_build_spec _ _ _ Hs) as (? & ? & _ & _ & _ & -> & _).
    - destruct (existsb _ _); [discriminate|].
      destruct (settle_build p x (Interleaved.object s)) as [c1|] eqn:Hs; [|discriminate].
      inversion Hstep; subst s'. cbn.
      now destruct (settle_build_spec _ _ _ _ Hs) as (? & ? & _ & _ & -> & _). }
  split; [|exact Hlen].
  unfold frames_ok in *. rewrite Hlen. clear Hlen.
  destruct e as [cwd|j|p|p x]; simpl in Hstep.
  - unfold Interleaved.enter, Interleaved.loop in Hstep.
    destruct (0 <? _)%nat.
    + inversion Hstep; subst s'; clear Hstep. cbn. intros k fr Hk.
      apply lookup_app_Some in Hk as [Hk|[_ Hk]]; [eauto|].
      destruct (k - _)%nat; cbn in Hk; now inversion Hk.
    + destruct (after_scan _ _ _ _) as [c1 r].
      inversion Hstep; subst s'; clear Hstep. cbn. intros k fr Hk.
      apply lookup_app_Some in Hk as [Hk|[_ Hk]]; [eauto|].
      destruct (k - _)%nat; cbn in Hk; inversion Hk.
  - destruct (Interleaved.calls s !! j) as [[frj|]|] eqn:Hj; try discriminate.
    pose proof (resume_frame frj) as Hfr.
    destruct (Interleaved.resume frj (Interleaved.object s)) as [c1 k1] eqn:Hr.
    inversion Hstep; subst s'; clear Hstep. cbn. intros k fr Hk.
    apply list_lookup_insert_Some in Hk as [(-> & -> & _)|[_ Hk]]; [|eauto].
    specialize (Hfr fr (Interleaved.object s)). rewrite Hr in Hfr.
    rewrite (Hfr eq_refl). eauto.
  - destruct (start_build p (Interleaved.object s)); [|discriminate].
    inversion Hstep; subst s'. exact Hf.
  - destruct (existsb _ _); [discriminate|].
    destruct (settle_build p x (Interleaved.object s)); [|discriminate].
    inversion Hstep; subst s'. exact Hf.
Qed.

Lemma frames_ok_nil (c : Cscope) :
  frames_ok {| Interleaved.object := c; Interleaved.calls := [] |}.
Proof. intros k fr Hk. discriminate. Qed.

Lemma interleaved_run_length (es : list Interleaved.event) :
  forall s s', frames_ok s -> Interleaved.run s es = Some s' ->
    frames_ok s' /\
    List.length (buildQueue (Interleaved.object s'))
    = List.length (buildQueue (Interleaved.object s)).
Proof.
  induction es as [|e es IH]; intros s s' Hf; cbn [Interleaved.run].
  - intros [= <-]. auto.
  - destruct (Interleaved.step s e) as [s1|] eqn:Hs; [|discriminate]. intros Hr.
    destruct (frames_ok_step _ _ _ Hf Hs) as [Hf1 Hl1].
    destruct (IH _ _ Hf1 Hr) as [Hf' Hl']. split; [exact Hf'|congruence].
Qed.

Lemma start_build_pending (p : ref) (c c' : Cscope) :
  all_pending c -> start_build p c = Some c' -> all_pending c'.
Proof.
  intros Hall Hs. destruct (start_build_spec _ _ _ Hs) as (cwd & ps & Hp & _ & Hh & Hq & _).
  intros q Hin. rewrite Hq in Hin. specialize (Hall q Hin).
  rewrite Hh. unfold promiseState. destruct (decide (p = q)) as [<-|Hne].
  - rewrite list_lookup_insert_eq by (eapply lookup_lt_Some; eauto). reflexivity.
  - rewrite list_lookup_insert_ne by exact Hne. exact Hall.
Qed.

(** While the call is suspended no process event is handled, and what
    else happens keeps every slot pending. *)
Lemma refusing_at_step (s s' : Interleaved.system) (e : Interleaved.event) (k n len0 : nat) :
  refusing_at s k n len0 -> Interleaved.step s e = Some s' ->
  refusing_at s' k (n + (if is_resume k e then 1 else 0)) len0.
Proof.
  unfold refusing_at. intros Hk Hstep.
  destruct (Interleaved.calls s !! k) as [ck|] eqn:Hck; [|contradiction].
  pose proof (lookup_lt_Some _ _ _ Hck) as Hlt.
  destruct ck as [fr|r].
  - destruct Hk as (Hst & Hidx & Hn & Hlen & Hq & Hall & Hf).
    destruct (frames_ok_step _ _ _ Hf Hstep) as [Hf' Hq'].
    destruct e as [cwd|j|p|p x]; simpl in Hstep; cbn [is_resume].
    + pose proof (loop_pending cwd 0 (List.length (buildQueue (Interleaved.object s)))
                    (Interleaved.object s) Hall) as Hall'.
      unfold Interleaved.enter in Hstep.
      destruct (Interleaved.loop _ _ _ _) as [c1 k1].
      inversion Hstep; subst s'; clear Hstep. cbn in *.
      rewrite lookup_app_l by exact Hlt. rewrite Hck, Nat.add_0_r.
      repeat split; try assumption. congruence.
    + destruct (Interleaved.calls s !! j) as [[frj|]|] eqn:Hj; try discriminate.
      pose proof (resume_pending frj (Interleaved.object s) Hall) as Hall'.
      destruct (Interleaved.resume frj (Interleaved.object s)) as [c1 k1] eqn:Hr.
      inversion Hstep; subst s'; clear Hstep. cbn in *.
      destruct (Nat.eqb_spec j k) as [->|Hne].
      * rewrite list_lookup_insert_eq by exact Hlt.
        rewrite Hck in Hj. inversion Hj; subst frj. clear Hj.
        unfold Interleaved.resume in Hr. rewrite Hst, String.eqb_refl in Hr. cbn [negb] in Hr.
        unfold Interleaved.loop in Hr.
        destruct (Nat.ltb_spec (S (Interleaved.index fr)) (Interleaved.len fr)) as [Hin|Hout].
        -- inversion Hr; subst c1 k1; clear Hr.
           cbn [Interleaved.state Interleaved.index Interleaved.len].
           repeat split; try assumption; try lia.
           unfold Interleaved.probe_slot. cbn [add_log buildQueue promises].
           destruct (lookup_lt_is_Some_2 (buildQueue (Interleaved.object s))
                       (S (Interleaved.index fr)) ltac:(lia)) as [q Hq0].
           rewrite Hq0. apply Hall, list_elem_of_In. eapply list_elem_of_lookup_2, Hq0.
        -- rewrite after_scan_full in Hr by exact Hout.
           inversion Hr; subst c1 k1; clear Hr. split; [reflexivity|lia].
      * rewrite list_lookup_insert_ne by exact Hne. rewrite Hck, Nat.add_0_r.
        repeat split; try assumption. congruence.
    + destruct (start_build p (Interleaved.object s)) as [c1|] eqn:Hs; [|discriminate].
      inversion Hstep; subst s'; clear Hstep. cbn in *. rewrite Hck, Nat.add_0_r.
      repeat split; try assumption; [congruence|].
      exact (start_build_pending _ _ _ Hall Hs).
    + exfalso.
      assert (Htrue : existsb Interleaved.suspended (Interleaved.calls s) = true).
      { apply existsb_exists. exists (Interleaved.Suspended fr). split; [|reflexivity].
        apply list_elem_of_In. eapply list_elem_of_lookup_2, Hck. }
      rewrite Htrue in Hstep. discriminate.
  - destruct Hk as [Hr Hn].
    destruct e as [cwd|j|p|p x]; simpl in Hstep; cbn [is_resume].
    + destruct (Interleaved.enter cwd (Interleaved.object s)) as [c1 k1].
      inversion Hstep; subst s'; clear Hstep. cbn.
      rewrite lookup_app_l by exact Hlt. rewrite Hck. split; [exact Hr|lia].
    + destruct (Interleaved.calls s !! j) as [[frj|]|] eqn:Hj; try discriminate.
      destruct (Interleaved.resume frj (Interleaved.object s)) as [c1 k1].
      inversion Hstep; subst s'; clear Hstep. cbn.
      destruct (Nat.eqb_spec j k) as [->|Hne]; [congruence|].
      rewrite list_lookup_insert_ne by exact Hne. rewrite Hck. split; [exact Hr|lia].
    + destruct (start_build p (Interleaved.object s)) as [c1|]; [|discriminate].
      inversion Hstep; subst s'; clear Hstep. cbn. rewrite Hck. split; [exact Hr|lia].
    + destruct (existsb _ _); [discriminate|].
      destruct (settle_build p x (Interleaved.object s)) as [c1|]; [|discriminate].
      inversion Hstep; subst s'; clear Hstep. cbn. rewrite Hck. split; [exact Hr|lia].
Qed.

Lemma refusing_at_run (es : list Interleaved.event) (k len0 : nat) :
  forall s s' n,
    refusing_at s k n len0 -> Interleaved.run s es = Some s' ->
    refusing_at s' k (n + resumptions k es) len0.
Proof.
  induction es as [|e es IH]; intros s s' n Hk; cbn [Interleaved.run].
  - intros [= <-]. unfold resumptions. cbn. now rewrite Nat.add_0_r.
  - destruct (Interleaved.step s e) as [s1|] eqn:Hs; [|discriminate]. intros Hr.
    pose proof (IH _ _ _ (refusing_at_step _ _ _ _ _ _ Hk Hs) Hr) as H.
    unfold resumptions in *. cbn [List.filter].
    destruct (is_resume k e); cbn [List.length] in *.
    + now replace (n + S (List.length (List.filter (is_resume k) es)))%nat
        with (n + 1 + List.length (List.filter (is_resume k) es))%nat by lia.
    + now rewrite Nat.add_0_r in H.
Qed.

(** A call of [buildSingle] made while every slot is pending ends
    refused with "queue full", whatever other calls and events it is
    interleaved with: after each of its resumptions it stands at the
    next slot, whose answer is "pending", and with the resumption for
    the last slot it ends, refused.  It is never stored. *)
Theorem refused_under_interleaving (s s' : Interleaved.system) (cwd : string)
    (es : list Interleaved.event) :
  all_pending (Interleaved.object s) -> frames_ok s ->
  Interleaved.run s (Interleaved.Call cwd :: es) = Some s' ->
  match Interleaved.calls s' !! List.length (Interleaved.calls s) with
  | Some (Interleaved.Done r) =>
      r = Refused "queue full" /\
      resumptions (List.length (Interleaved.calls s)) es
      = List.length (buildQueue (Interleaved.object s))
  | Some (Interleaved.Suspended fr) =>
      Interleaved.state fr = "pending"%string /\
      Interleaved.index fr = resumptions (List.length (Interleaved.calls s)) es /\
      (resumptions (List.length (Interleaved.calls s)) es
       < List.length (buildQueue (Interleaved.object s)))%nat
  | None => False
  end.
Proof.
  intros Hall Hf. cbn [Interleaved.run].
  destruct (Interleaved.step s (Interleaved.Call cwd)) as [s1|] eqn:Hs; [|discriminate].
  intros Hrun.
  set (k := List.length (Interleaved.calls s)). set (len0 := List.length (buildQueue (Interleaved.object s))).
  assert (H1 : refusing_at s1 k 0 len0).
  { destruct (frames_ok_step _ _ _ Hf Hs) as [Hf1 Hq1].
    pose proof (loop_pending cwd 0 len0 (Interleaved.object s) Hall) as Hall1.
    unfold refusing_at. simpl in Hs. unfold Interleaved.enter in Hs.
    fold len0 in Hs. unfold Interleaved.loop in Hs, Hall1.
    destruct (Nat.ltb_spec 0 len0) as [Hpos|Hzero].
    - inversion Hs; subst s1; clear Hs. cbn in *.
      subst k. rewrite lookup_app_r, Nat.sub_diag by lia. cbn.
      repeat split; try assumption.
      unfold Interleaved.probe_slot.
      destruct (lookup_lt_is_Some_2 (buildQueue (Interleaved.object s)) 0 Hpos) as [q Hq0].
      rewrite Hq0. apply Hall, list_elem_of_In. eapply list_elem_of_lookup_2, Hq0.
    - rewrite after_scan_full in Hs by exact Hzero.
      inversion Hs; subst s1; clear Hs. cbn.
      subst k. rewrite lookup_app_r, Nat.sub_diag by lia. cbn. split; [reflexivity|lia]. }
  pose proof (refusing_at_run es k len0 s1 s' 0 H1 Hrun) as H.
  unfold refusing_at in H. cbn [Nat.add] in H.
  destruct (Interleaved.calls s' !! k) as [[fr|r]|]; [|exact H|exact H].
  destruct H as (Hst & Hidx & Hn & _). auto.
Qed.

Lemma on_line_items (I : ItemClass) (parent : string) (lines : list string) :
  forall results entries out,
    fst (fst (fold_left (on_line I parent) lines (results, entries, out)))
    = results ++ parsed_items I parent lines.
Proof.
  induction lines as [|line lines IH]; intros results entries out; cbn [fold_left].
  - unfold parsed_items. simpl. now rewrite app_nil_r.
  - unfold on_line at 2. unfold parsed_items. cbn [flat_map].
    destruct (new_Item I line parent) as [item|e]; rewrite IH.
    + now rewrite <- app_assoc.
    + reflexivity.
Qed.

Lemma querySingle_result (I : ItemClass) (type word cwd : string) (x : queryExit) (c : Cscope) :
  env (fst (querySingle I type word cwd x c)) = env c /\
  match snd (querySingle I type word cwd x c) with
  | Returned results =>
      results = directory_items I (env c) cwd x /\ exists lines err, x = QueryExit (Some 0) lines err
  | Thrown e => directory_items I (env c) cwd x = []
  | Never => False
  end.
Proof.
  unfold querySingle. destruct x as [code lines err|error|error];
    [|split; reflexivity|split; reflexivity].
  pose proof (on_line_items I (path_relative I (getCurrentDirectory (env c)) cwd) lines [] [] "")
    as Hit.
  cbn [promises env add_log add_spawn set_queryCmd] in *.
  destruct (fold_left _ lines _) as [[results entries] out]. cbn [fst] in Hit.
  destruct code as [[|n|n]|]; cbn [code_ne_0 fst snd env add_log add_spawn set_queryCmd directory_items];
    split; try reflexivity.
  split; [exact Hit|eauto].
Qed.

Lemma query_loop_items (I : ItemClass) (world : nat -> string -> queryExit)
    (type word : string) (directories : list string) :
  forall i allResults c,
    snd (query_loop I world i type word directories allResults c)
    = Returned (allResults ++ all_items I (env c) world i directories).
Proof.
  induction directories as [|dir directories IH]; intros i allResults c; cbn [query_loop all_items].
  - now rewrite app_nil_r.
  - destruct (querySingle_result I type word dir (world i dir) c) as [He Hr].
    destruct (querySingle I type word dir (world i dir) c) as [c1 [results|e|]];
      cbn [fst snd] in *; [| |contradiction]; rewrite IH; cbn [env add_log]; rewrite He.
    + destruct Hr as [-> _]. now rewrite app_assoc.
    + now rewrite Hr.
Qed.

(** *** Further properties of [build], [query] and the queue *)

Lemma constructor_clean (cfg : IConfig) (e : IEnv) : clean (constructor cfg e).
Proof.
  split; [discriminate|]. intros p [<-|[<-|[]]]; eexists _, _; split; reflexivity.
Qed.

(** No error escapes [build] as a thrown condition. *)
Theorem build_never_throws (world : nat -> string -> spawned) (c : Cscope) (e : string) :
  snd (build world c) <> Thrown e.
Proof. unfold build. apply build_loop_never_throws. Qed.

(** [query] always returns: the items of the directories whose process
    exits with code 0, directory by directory and line by line, without
    the lines that are no item. *)
Theorem query_collects_items (I : ItemClass) (world : nat -> string -> queryExit)
    (type word : string) (c : Cscope) :
  snd (query I world type word c)
  = Returned (all_items I (env c) world 0 (getAllDirectories (env c))).
Proof. unfold query. now rewrite query_loop_items. Qed.

Example query_second_not_launched :
  snd (query Ex.items Ex.b_not_launched "symbol" "f" (constructor Ex.cfg Ex.folders))
  = Returned [("a.c f 1 x", "a"); ("a.c g 2 y", "a")]%string /\
  getQueryCmd (fst (query Ex.items Ex.b_not_launched "symbol" "f"
                      (constructor Ex.cfg Ex.folders)))
  = "cscope -RdL -f cscope.out -0 f"%string.
Proof. split; reflexivity. Qed.

(** When [build] returns, its report is one segment for each directory,
    in order, joined by line feeds: the trimmed stdout of the build, or
    "Error: " and the reason of its failure. *)
Theorem build_report (world : nat -> string -> spawned) (c : Cscope) (report : string) :
  snd (build world c) = Returned report ->
  exists segments,
    report = JS.join JS.LF segments /\
    List.length segments = List.length (getAllDirectories (env c)) /\
    segments_ok world 0 (getAllDirectories (env c)) segments.
Proof.
  unfold build. intros H.
  destruct (build_loop_report _ _ _ _ _ _ H) as (segments & -> & Hs).
  exists segments. split; [reflexivity|]. split; [|exact Hs].
  clear H. revert Hs. generalize 0%nat. generalize (getAllDirectories (env c)).
  induction segments as [|x segments IH]; intros [|d ds] i; simpl; try tauto.
  intros [_ Hs]. f_equal. eapply IH, Hs.
Qed.

Lemma build_report_witness :
  exists segments,
    JS.join JS.LF ["done"; "Error: cscope: no source files"]%string = JS.join JS.LF segments /\
    List.length segments
    = List.length (getAllDirectories (env (constructor Ex.cfg Ex.folders))) /\
    segments_ok Ex.b_fails 0 (getAllDirectories (env (constructor Ex.cfg Ex.folders))) segments.
Proof.
  apply (build_report Ex.b_fails (constructor Ex.cfg Ex.folders)). reflexivity.
Defined.

Example build_command_after_build :
  getBuildCmd (fst (build Ex.b_fails (constructor Ex.cfg Ex.folders)))
  = "cscope -RbU -f cscope.out"%string.
Proof. reflexivity. Qed.

(** When [cp.spawn] throws, the build is started and never settles:
    [build] does not return, not even for the last directory. *)
Example build_hangs_when_spawn_throws :
  snd (build (fun _ dir => if String.eqb dir "/ws/b" then SpawnThrows "TypeError"
                           else Process (Exit (Some 0) "done " ""))
         (constructor Ex.cfg Ex.folders)) = Never /\
  promises (fst (build (fun _ dir => if String.eqb dir "/ws/b" then SpawnThrows "TypeError"
                                     else Process (Exit (Some 0) "done " ""))
                   (constructor Ex.cfg Ex.folders))) !! 3%nat
  = Some (Promise_build "/ws/b" [2; 1]%nat Running).
Proof. split; reflexivity. Qed.

(** On such an object [build] never returns when a build that is not
    the last one fails. *)
Theorem build_hangs (world : nat -> string -> spawned) (c : Cscope) (dir dir2 : string)
    (directories : list string) :
  clean c ->
  getAllDirectories (env c) = dir :: dir2 :: directories ->
  ~ succeeds (world 0%nat dir) ->
  snd (build world c) = Never.
Proof.
  intros Hc Hd Hfail. unfold build. rewrite Hd. apply build_loop_hangs; [|exact Hfail].
  destruct Hc as [Hne Hc]. split; assumption.
Qed.

Lemma build_hangs_witness :
  snd (build Ex.a_fails (constructor Ex.cfg Ex.folders)) = Never.
Proof.
  apply (build_hangs Ex.a_fails (constructor Ex.cfg Ex.folders) "/ws/a" "/ws/b" []).
  - split; [discriminate|]. intros p [<-|[<-|[]]]; eexists _, _; split; reflexivity.
  - reflexivity.
  - simpl. tauto.
Defined.

(** A stored build whose [Promise.all] holds a rejected promise is never
    started, and its promise never settles. *)
Theorem rejected_wait_never_starts (c : Cscope) (p w : ref) (cwd : string) (ps : list ref) :
  promises c !! p = Some (Promise_build cwd ps Waiting) ->
  In w ps -> promiseState (promises c) w = "rejected"%string ->
  forall es c',
    run c es = Some c' ->
    start_build p c' = None /\ promiseState (promises c') p = "pending"%string.
Proof.
  intros Hp Hin Hw es c' Hr. eapply blocked_forever; [|exact Hr].
  eapply blocked_rejected; eauto.
Qed.

Lemma rejected_wait_never_starts_witness :
  start_build 3 (fst (buildSingle "/ws/c" (fst (build Ex.a_fails (constructor Ex.cfg Ex.folders)))))
  = None /\
  promiseState
    (promises (fst (buildSingle "/ws/c" (fst (build Ex.a_fails (constructor Ex.cfg Ex.folders))))))
    3 = "pending"%string.
Proof.
  apply (rejected_wait_never_starts
           (fst (build Ex.a_fails (constructor Ex.cfg Ex.folders)))
           3%nat 2%nat "/ws/b" [2; 1]%nat
           eq_refl (or_introl eq_refl) eq_refl [Submit "/ws/c"]).
  reflexivity.
Defined.

Lemma evolves_is_Some (h h' : list promise) (p : ref) :
  evolves h h' -> is_Some (h !! p) -> is_Some (h' !! p).
Proof.
  intros He [pr Hp]. destruct (He p pr Hp) as [H|H]; [eauto|].
  destruct pr as [v|cwd ps [| |r]]; try contradiction.
  - destruct H as [H _]. eauto.
  - destruct H as [r H]. eauto.
Qed.

(** What the events keep of a build: the promises it waits for, and
    that they are fulfilled once it has started. *)
Lemma waited_step (h h' : list promise) (p : ref) (cwd : string) (ps : list ref) (ph : phase) :
  evolves h h' ->
  (forall w, In w ps -> is_Some (h !! w)) ->
  h !! p = Some (Promise_build cwd ps ph) ->
  (ph <> Waiting -> forall w, In w ps -> promiseState h w = "fulfilled"%string) ->
  (forall w, In w ps -> is_Some (h' !! w)) /\
  exists ph',
    h' !! p = Some (Promise_build cwd ps ph') /\
    (ph' <> Waiting -> forall w, In w ps -> promiseState h' w = "fulfilled"%string).
Proof.
  intros He Hv Hp Hf.
  split; [intros w Hin; exact (evolves_is_Some _ _ _ He (Hv w Hin))|].
  assert (Hkeep : forall w, In w ps -> promiseState h w = "fulfilled"%string ->
                            promiseState h' w = "fulfilled"%string).
  { intros w Hin Hw. apply (evolves_settled h h' w _ He (Hv w Hin) Hw). discriminate. }
  destruct (He p _ Hp) as [H|H].
  - exists ph. split; [exact H|]. intros Hph w Hin. apply Hkeep; auto.
  - destruct ph as [| |r]; [| |contradiction].
    + destruct H as [H Hall]. exists Running. split; [exact H|].
      intros _ w Hin. apply Hkeep; [exact Hin|]. exact (all_fulfilled_In _ _ _ Hall Hin).
    + destruct H as [r H]. exists (Settled r). split; [exact H|].
      intros _ w Hin. apply Hkeep; [exact Hin|]. apply Hf; [discriminate|exact Hin].
Qed.

Lemma waited_run (es : list event) (p : ref) (cwd : string) (ps : list ref) :
  forall c c' ph,
    (forall w, In w ps -> is_Some (promises c !! w)) ->
    promises c !! p = Some (Promise_build cwd ps ph) ->
    (ph <> Waiting -> forall w, In w ps -> promiseState (promises c) w = "fulfilled"%string) ->
    run c es = Some c' ->
    exists ph',
      promises c' !! p = Some (Promise_build cwd ps ph') /\
      (ph' <> Waiting -> forall w, In w ps -> promiseState (promises c') w = "fulfilled"%string).
Proof.
  induction es as [|ev es IH]; intros c c' ph Hv Hp Hf; simpl.
  - intros [= <-]. eauto.
  - destruct (step c ev) as [c1|] eqn:Hs; [|discriminate]. intros Hr.
    destruct (step_spec _ _ _ Hs) as (_ & He & _).
    destruct (waited_step _ _ p cwd ps ph He Hv Hp Hf) as (Hv1 & ph1 & Hp1 & Hf1).
    exact (IH c1 c' ph1 Hv1 Hp1 Hf1 Hr).
Qed.

(** A build does not start before every promise that was in the queue
    at its submission is fulfilled, so it never runs beside a build
    that the queue held then.  Whatever submissions and process events
    follow the submission of a build: if its process has been started,
    every promise that the queue held at the submission is fulfilled. *)
Theorem build_starts_after_queue (cwd : string) (c c1 c2 : Cscope) (p : ref)
    (es : list event) (pr : promise) :
  (forall w, In w (buildQueue c) -> is_Some (promises c !! w)) ->
  buildSingle cwd c = (c1, Stored p) ->
  run c1 es = Some c2 ->
  promises c2 !! p = Some pr -> started pr = true ->
  forall w, In w (buildQueue c) -> promiseState (promises c2) w = "fulfilled"%string.
Proof.
  intros Hv Hb Hr Hp Hst w Hin.
  destruct (buildSingle_cases cwd c)
    as [(Hf & _)|(index & old & Hs & _ & _ & _ & _ & Hh & _)];
    rewrite Hb in *; cbn [fst snd] in *; [discriminate|].
  inversion Hs; subst p.
  destruct (waited_run es (List.length (promises c)) cwd (buildQueue c) c1 c2 Waiting)
    as (ph & Hp2 & Hf2).
  - intros w0 Hw0. destruct (Hv w0 Hw0) as [x Hx]. rewrite Hh.
    exists x. now apply lookup_app_l_Some.
  - now rewrite Hh, lookup_app_r, Nat.sub_diag by lia.
  - intros Hph. contradiction.
  - exact Hr.
  - rewrite Hp2 in Hp. inversion Hp; subst pr.
    apply Hf2; [|exact Hin]. intros ->. discriminate.
Qed.

(** The build in [/ws/b], submitted while the build in [/ws/a] runs,
    has started once that build has ended with code 0: both promises
    that the queue held are fulfilled then. *)
Lemma build_starts_after_queue_witness :
  match run (constructor Ex.cfg Ex.folders) [Submit "/ws/a"; Start 2%nat] with
  | Some c =>
      match run (fst (buildSingle "/ws/b" c))
              [Finish 2%nat (Exit (Some 0) "done " ""); Start 3%nat] with
      | Some c2 =>
          buildQueue c = [2; 1]%nat /\
          promiseState (promises c) 2 = "pending"%string /\
          forall w, In w (buildQueue c) -> promiseState (promises c2) w = "fulfilled"%string
      | None => False
      end
  | None => False
  end.
Proof.
  destruct (run (constructor Ex.cfg Ex.folders) [Submit "/ws/a"; Start 2%nat])
    as [c|] eqn:Hc; [|vm_compute in Hc; discriminate Hc].
  destruct (run (fst (buildSingle "/ws/b" c))
              [Finish 2%nat (Exit (Some 0) "done " ""); Start 3%nat])
    as [c2|] eqn:Hc2;
    [|vm_compute in Hc; inversion Hc; subst c; vm_compute in Hc2; discriminate Hc2].
  assert (Hq : buildQueue c = [2; 1]%nat)
    by (vm_compute in Hc; inversion Hc; subst c; reflexivity).
  assert (Hpend : promiseState (promises c) 2 = "pending"%string)
    by (vm_compute in Hc; inversion Hc; subst c; reflexivity).
  assert (Hv : forall w, In w (buildQueue c) -> is_Some (promises c !! w)).
  { rewrite Hq. vm_compute in Hc. inversion Hc; subst c.
    intros w [<-|[<-|[]]]; eexists; reflexivity. }
  assert (Hb : buildSingle "/ws/b" c = (fst (buildSingle "/ws/b" c), Stored 3%nat))
    by (vm_compute in Hc; inversion Hc; subst c; reflexivity).
  assert (H3 : exists pr, promises c2 !! 3%nat = Some pr /\ started pr = true).
  { vm_compute in Hc. inversion Hc; subst c. vm_compute in Hc2. inversion Hc2; subst c2.
    eexists. split; reflexivity. }
  destruct H3 as (pr & Hp & Hst).
  split; [exact Hq|]. split; [exact Hpend|].
  exact (build_starts_after_queue "/ws/b" c _ c2 3%nat _ pr Hv Hb Hc2 Hp Hst).
Defined.

(** Before that build has ended, the build behind it cannot start. *)
Example build_waits_for_running_build :
  run (constructor Ex.cfg Ex.folders)
    [Submit "/ws/a"; Start 2%nat; Submit "/ws/b"; Start 3%nat] = None.
Proof. reflexivity. Qed.

(** When the file opens, the line is there and the search does not
    throw, the item is pushed: with the highlight from the index of the
    search over the length of the searched string, or with column 0 and
    length 0 when the search finds nothing. *)
Theorem highlight_when_search_returns (h : Host) (q : CscopeQuery) (file func r : string)
    (k : Z) (f : list string) (txt : string) :
  openTextDocument h file = Some f -> lineAt f (Some k) = Some txt ->
  String_search h txt (searched q func) <> SyntaxError ->
  exists it,
    resolve h q file func (Some k) r = Some it /\
    text it = txt /\ getLineNumber it = k /\
    range it = match String_search h txt (searched q func) with
               | Found i => new_Range k (Z.of_nat i) k (Z.of_nat i + JS.length (searched q func))
               | _ => new_Range k 0 k 0
               end.
Proof.
  intros Ho Hl Hs.
  destruct (resolve h q file func (Some k) r) as [it|] eqn:Hr.
  - exists it. split; [reflexivity|].
    destruct (resolve_item _ _ _ _ _ _ _ Hr)
      as (f' & k' & txt' & Ho' & Hk & Hl' & [(i & Hf & ->)|(Hf & ->)]);
      inversion Hk; subst k'; rewrite Ho in Ho'; inversion Ho'; subst f';
      rewrite Hl in Hl'; inversion Hl'; subst txt'; rewrite Hf; repeat split.
  - exfalso. apply Hs. eapply dropped_by_search; eauto.
Qed.

Lemma highlight_when_search_returns_witness :
  exists it,
    resolve Ex.host (new_CscopeQuery "callee" "main") "/src/a.c" "myFunc" (Some 11) "x"
    = Some it /\
    text it = "int myFunc(void) {"%string /\ getLineNumber it = 11 /\
    range it
    = match String_search Ex.host "int myFunc(void) {"
              (searched (new_CscopeQuery "callee" "main") "myFunc") with
      | Found i =>
          new_Range 11 (Z.of_nat i) 11
            (Z.of_nat i + JS.length (searched (new_CscopeQuery "callee" "main") "myFunc"))
      | _ => new_Range 11 0 11 0
      end.
Proof.
  apply (highlight_when_search_returns Ex.host (new_CscopeQuery "callee" "main")
           "/src/a.c" "myFunc" "x" 11
           (default [] (openTextDocument Ex.host "/src/a.c")) "int myFunc(void) {").
  - reflexivity.
  - reflexivity.
  - discriminate.
Defined.

Lemma loop_in_range (cwd : string) (index len : nat) (c : Cscope) (fr : Interleaved.frame) :
  snd (Interleaved.loop cwd index len c) = Interleaved.Suspended fr ->
  (Interleaved.index fr < Interleaved.len fr)%nat.
Proof.
  unfold Interleaved.loop. destruct (Nat.ltb_spec index len) as [Hlt|Hge].
  - intros [= <-]. exact Hlt.
  - destruct (after_scan _ _ _ _); discriminate.
Qed.

Lemma resume_in_range (fr fr' : Interleaved.frame) (c : Cscope) :
  snd (Interleaved.resume fr c) = Interleaved.Suspended fr' ->
  (Interleaved.index fr' < Interleaved.len fr')%nat.
Proof.
  unfold Interleaved.resume. destruct (negb _).
  - destruct (after_scan _ _ _ _); discriminate.
  - apply loop_in_range.
Qed.

(** A call is suspended at a slot that the queue had when the call
    read its length. *)
Lemma suspended_in_range (es : list Interleaved.event) :
  forall s s',
    (forall k fr, Interleaved.calls s !! k = Some (Interleaved.Suspended fr) ->
                  (Interleaved.index fr < Interleaved.len fr)%nat) ->
    Interleaved.run s es = Some s' ->
    forall k fr, Interleaved.calls s' !! k = Some (Interleaved.Suspended fr) ->
                 (Interleaved.index fr < Interleaved.len fr)%nat.
Proof.
  induction es as [|e es IH]; intros s s' H; cbn [Interleaved.run].
  - now intros [= <-].
  - destruct (Interleaved.step s e) as [s1|] eqn:Hs; [|discriminate].
    apply IH. clear IH es s'.
    destruct e as [cwd|j|p|p x]; simpl in Hs.
    + pose proof (loop_in_range cwd 0 (List.length (buildQueue (Interleaved.object s)))
                    (Interleaved.object s)) as Hl.
      unfold Interleaved.enter in Hs. destruct (Interleaved.loop _ _ _ _) as [c1 k1].
      inversion Hs; subst s1; clear Hs. cbn in *. intros k fr Hk.
      apply lookup_app_Some in Hk as [Hk|[_ Hk]]; [eauto|].
      destruct (k - _)%nat as [|n]; cbn in Hk; [|destruct n; discriminate].
      inversion Hk; subst k1. now apply Hl.
    + destruct (Interleaved.calls s !! j) as [[frj|]|] eqn:Hj; try discriminate.
      pose proof (resume_in_range frj) as Hl.
      destruct (Interleaved.resume frj (Interleaved.object s)) as [c1 k1] eqn:Hr.
      inversion Hs; subst s1; clear Hs. cbn. intros k fr Hk.
      apply list_lookup_insert_Some in Hk as [(-> & -> & _)|[_ Hk]]; [|eauto].
      apply (Hl fr (Interleaved.object s)). now rewrite Hr.
    + destruct (start_build p (Interleaved.object s)); [|discriminate].
      inversion Hs; subst s1. exact H.
    + destruct (existsb _ _); [discriminate|].
      destruct (settle_build p x (Interleaved.object s)); [|discriminate].
      inversion Hs; subst s1. exact H.
Qed.

(** With calls of [buildSingle] that overlap too, the queue has two
    slots in every state that a new object reaches, and every call
    that is suspended in its loop has read that length and stands at
    one of the two slots: a call stores its promise in a slot that the
    array has, and never past its end. *)
Theorem interleaved_capacity_two (cfg : IConfig) (e : IEnv) (es : list Interleaved.event)
    (s : Interleaved.system) :
  Interleaved.run {| Interleaved.object := constructor cfg e; Interleaved.calls := [] |} es
  = Some s ->
  List.length (buildQueue (Interleaved.object s)) = 2%nat /\
  forall k fr, Interleaved.calls s !! k = Some (Interleaved.Suspended fr) ->
               Interleaved.len fr = 2%nat /\ (Interleaved.index fr < 2)%nat.
Proof.
  intros Hr.
  destruct (interleaved_run_length es _ _ (frames_ok_nil (constructor cfg e)) Hr) as [Hf Hl].
  cbn in Hl. split; [exact Hl|].
  intros k fr Hk.
  assert (Hlen : Interleaved.len fr = 2%nat) by (rewrite <- Hl; exact (Hf k fr Hk)).
  split; [exact Hlen|]. rewrite <- Hlen.
  refine (suspended_in_range es _ _ _ Hr k fr Hk).
  intros k0 fr0 Hnil. discriminate Hnil.
Qed.

(** Three calls that overlap, and a fourth that comes while the third
    is suspended at the second slot. *)
Lemma interleaved_capacity_two_witness :
  match Interleaved.run
          {| Interleaved.object := constructor Ex.cfg Ex.folders; Interleaved.calls := [] |}
          [Interleaved.Call "/ws/a"; Interleaved.Call "/ws/b"; Interleaved.Resume 0;
           Interleaved.Resume 1; Interleaved.Call "/ws/c"; Interleaved.Resume 2;
           Interleaved.Call "/ws/d"] with
  | Some s =>
      List.length (buildQueue (Interleaved.object s)) = 2%nat /\
      forall k fr, Interleaved.calls s !! k = Some (Interleaved.Suspended fr) ->
                   Interleaved.len fr = 2%nat /\ (Interleaved.index fr < 2)%nat
  | None => False
  end.
Proof.
  destruct (Interleaved.run
              {| Interleaved.object := constructor Ex.cfg Ex.folders; Interleaved.calls := [] |}
              [Interleaved.Call "/ws/a"; Interleaved.Call "/ws/b"; Interleaved.Resume 0;
               Interleaved.Resume 1; Interleaved.Call "/ws/c"; Interleaved.Resume 2;
               Interleaved.Call "/ws/d"])
    as [s|] eqn:Hrun; [|vm_compute in Hrun; discriminate Hrun].
  exact (interleaved_capacity_two Ex.cfg Ex.folders _ s Hrun).
Defined.



Lemma refused_under_interleaving_witness :
  match Interleaved.run {| Interleaved.object := Ex.two_submitted; Interleaved.calls := [] |}
          [Interleaved.Call "/ws/c"; Interleaved.Start 2; Interleaved.Call "/ws/d";
           Interleaved.Resume 1; Interleaved.Resume 0; Interleaved.Resume 0] with
  | Some s' =>
      match Interleaved.calls s' !! 0%nat with
      | Some (Interleaved.Done r) => r = Refused "queue full"
      | _ => False
      end
  | None => False
  end.
Proof.
  assert (Hall : all_pending Ex.two_submitted) by (intros p [<-|[<-|[]]]; reflexivity).
  destruct (Interleaved.run {| Interleaved.object := Ex.two_submitted; Interleaved.calls := [] |}
              [Interleaved.Call "/ws/c"; Interleaved.Start 2; Interleaved.Call "/ws/d";
               Interleaved.Resume 1; Interleaved.Resume 0; Interleaved.Resume 0])
    as [s'|] eqn:Hrun; [|vm_compute in Hrun; discriminate Hrun].
  pose proof (refused_under_interleaving
                {| Interleaved.object := Ex.two_submitted; Interleaved.calls := [] |}
                s' "/ws/c"
                [Interleaved.Start 2; Interleaved.Call "/ws/d";
                 Interleaved.Resume 1; Interleaved.Resume 0; Interleaved.Resume 0]
                Hall (frames_ok_nil _) Hrun) as H.
  cbn [Interleaved.calls List.length] in H.
  destruct (Interleaved.calls s' !! 0%nat) as [[fr|r]|]; [|exact (proj1 H)|exact H].
  destruct H as (_ & _ & Hlt). vm_compute in Hlt. lia.
Defined.

(** *** The parser: every line is accounted for *)




(** *** The parser: what an item holds *)

(** An item that [setResults] pushes is a line of the document it was
    read from: its line number is a line of that document, its text is
    that line, and its range lies on that one line, from a column that
    is not negative to one that is not before it.  So [vscode.Range] is
    never given a negative number or an end before its start. *)
Theorem pushed_item_in_document (h : Host) (q : CscopeQuery) (l : string) (it : CscopeItem) :
  setResults_line h q l = Pushed it ->
  exists file doc,
    getUri it = Uri_file file /\ openTextDocument h file = Some doc /\
    0 <= getLineNumber it < Z.of_nat (List.length doc) /\
    doc !! Z.to_nat (getLineNumber it) = Some (text it) /\
    line (end_ (getRange it)) = getLineNumber it /\
    0 <= getColumnNumber it <= character (end_ (getRange it)) /\
    selectionRange it = getRange it /\
    label it = getFunction it +:+ " : " +:+ getLine it.
Proof.
  unfold setResults_line. destruct (JS.length l <? 3); [discriminate|].
  destruct (fields h l) as [[[file func] lnum] r] eqn:Hf.
  destruct (resolve h q file func lnum r) as [it'|] eqn:Hr; [|discriminate].
  intros [= <-].
  destruct (resolve_item _ _ _ _ _ _ _ Hr) as (doc & k & txt & Ho & -> & Hl & Hit).
  exists file, doc.
  assert (Hk : 0 <= k < Z.of_nat (List.length doc) /\ doc !! Z.to_nat k = Some txt).
  { unfold lineAt in Hl.
    destruct (Z.leb_spec 0 k), (Z.ltb_spec k (Z.of_nat (List.length doc)));
      cbn [andb] in Hl; try discriminate. split; [lia|exact Hl]. }
  destruct Hk as [Hk Hd].
  assert (Hlen : 0 <= JS.length (searched q func)) by (unfold JS.length; lia).
  destruct Hit as [(i & _ & ->)|(_ & ->)];
    cbn [getUri getLineNumber getColumnNumber getRange getFunction getLine new_CscopeItem
         new_Range uri range selectionRange label name rest text start end_ line character];
    repeat split; auto; try lia.
Qed.

Lemma pushed_item_in_document_witness :
  exists file doc,
    getUri (new_CscopeItem Ex.host (Uri_file "/src/a.c") "myFunc" (new_Range 11 4 11 10)
              "int myFunc(void) {" "int myFunc(void) {") = Uri_file file /\
    openTextDocument Ex.host file = Some doc /\
    0 <= 11 < Z.of_nat (List.length doc) /\
    doc !! Z.to_nat 11 = Some "int myFunc(void) {"%string /\
    11 = 11 /\ 0 <= 4 <= 10 /\
    new_Range 11 4 11 10 = new_Range 11 4 11 10 /\
    ("myFunc : int myFunc(void) {" = "myFunc" +:+ " : " +:+ "int myFunc(void) {")%string.
Proof.
  exact (pushed_item_in_document Ex.host (new_CscopeQuery "symbol" "myFunc") Ex.myFunc_line _
           eq_refl).
Defined.

(** *** The parser: a line number outside the document *)

Lemma lineAt_outside (doc : list string) (lnum : option Z) :
  (forall k, lnum = Some k -> k < 0 \/ Z.of_nat (List.length doc) <= k) ->
  lineAt doc lnum = None.
Proof.
  intros H. unfold lineAt. destruct lnum as [k|]; [|reflexivity].
  destruct (H k eq_refl); destruct (Z.leb_spec 0 k), (Z.ltb_spec k (Z.of_nat (List.length doc)));
    try lia; reflexivity.
Qed.

(** A result whose line number is not a line of the document, as when
    the database is older than the file, gives no item: the file opens,
    the editor refuses the line, and what is shown is the warning that
    the file could not be opened.  The number of the line counts from
    1, so 0 is refused too. *)
Theorem line_outside_document_warns (h : Host) (q : CscopeQuery) (f g n r : string)
    (doc : list string) :
  no_space f -> no_space g -> no_space n ->
  openTextDocument h (getFullPath h f) = Some doc ->
  (forall k, JS.parseInt n = Some k -> k < 1 \/ Z.of_nat (List.length doc) < k) ->
  setResults_line h q (f +:+ " " +:+ g +:+ " " +:+ n +:+ " " +:+ r)
  = Warned ("Could not open " +:+ dquote +:+ getFullPath h f +:+ dquote +:+ ".").
Proof.
  intros Hf Hg Hn Hopen Hout. unfold setResults_line.
  destruct (Z.ltb_spec (JS.length (f +:+ " " +:+ g +:+ " " +:+ n +:+ " " +:+ r)) 3) as [Hlt|_].
  { exfalso. unfold JS.length in Hlt. rewrite !str_length_app in Hlt. cbn in Hlt. lia. }
  rewrite (fields_of_line h f g n r Hf Hg Hn).
  replace (resolve h q (getFullPath h f) g (JS.minus1 (JS.parseInt n)) r) with (@None CscopeItem);
    [reflexivity|].
  symmetry. unfold resolve. rewrite Hopen.
  rewrite lineAt_outside; [reflexivity|].
  intros k Hk. destruct (JS.parseInt n) as [k0|]; [|discriminate].
  cbn in Hk. inversion Hk; subst k. destruct (Hout k0 eq_refl); lia.
Qed.

Lemma line_outside_document_warns_witness :
  setResults_line Ex.host (new_CscopeQuery "symbol" "main")
    ("/src/a.c" +:+ " " +:+ "main" +:+ " " +:+ "13" +:+ " " +:+ "int main(void) {")
  = Warned ("Could not open " +:+ dquote +:+ getFullPath Ex.host "/src/a.c" +:+ dquote +:+ ".").
Proof.
  apply (line_outside_document_warns Ex.host (new_CscopeQuery "symbol" "main")
           "/src/a.c" "main" "13" "int main(void) {"
           ["int main(void) {"; "abc a.c"; "x a+b"; "l3"; "l4"; "l5"; "l6"; "l7";
            "l8"; "l9"; "l10"; "int myFunc(void) {"]%string eq_refl eq_refl eq_refl eq_refl).
  intros k Hk. vm_compute in Hk. inversion Hk; subst k. right. vm_compute. reflexivity.
Defined.

(** *** The parser: [getFullPath] on a POSIX host *)

Lemma normalize_absolute (p : string) :
  Posix.isAbsolute p = true -> Posix.isAbsolute (Posix.normalize p) = true.
Proof.
  intros H. unfold Posix.normalize.
  destruct p as [|c p]; [discriminate|].
  change (String.eqb (String c p) "") with false. cbv iota. rewrite H.
  destruct (String.eqb _ ""); [reflexivity|].
  destruct (Posix.ends_with_slash _); reflexivity.
Qed.

Lemma join_absolute (a b : string) :
  Posix.isAbsolute a = true -> Posix.isAbsolute (Posix.join a b) = true.
Proof.
  intros H. unfold Posix.join.
  destruct a as [|c a]; [discriminate|].
  change (String.eqb (String c a) "") with false. cbv iota.
  destruct (String.eqb b "").
  - change (String.eqb (String c a) "") with false. cbv iota. now apply normalize_absolute.
  - rewrite str_app_cons.
    change (String.eqb (String c (a +:+ "/" +:+ b)) "") with false. cbv iota.
    apply normalize_absolute. exact H.
Qed.

(** On a POSIX host whose workspace root is an absolute path,
    [getFullPath] gives an absolute path for every file name of the
    output, and a path it has given is kept as it is. *)
Theorem getFullPath_absolute (root : string) (docs : list (string * list string))
    (search : string -> string -> SearchResult) (file : string) :
  Posix.isAbsolute root = true ->
  Posix.isAbsolute (getFullPath (posix_host (Some root) docs search) file) = true /\
  getFullPath (posix_host (Some root) docs search) (getFullPath (posix_host (Some root) docs search) file)
  = getFullPath (posix_host (Some root) docs search) file.
Proof.
  intros Hroot.
  assert (H : Posix.isAbsolute (getFullPath (posix_host (Some root) docs search) file) = true).
  { unfold getFullPath. cbn [path_isAbsolute posix_host workspace_rootPath path_posix_join].
    destruct (Posix.isAbsolute file) eqn:Hf; [exact Hf|].
    destruct root as [|c root]; [discriminate|]. cbn [truthy default].
    now apply join_absolute. }
  split; [exact H|].
  unfold getFullPath at 1. cbn [path_isAbsolute posix_host]. now rewrite H.
Qed.

Lemma getFullPath_absolute_witness :
  Posix.isAbsolute (getFullPath (posix_host (Some "/ws") Ex.docs (fun _ _ => NotFound)) "sub/../a.c") = true /\
  getFullPath (posix_host (Some "/ws") Ex.docs (fun _ _ => NotFound))
    (getFullPath (posix_host (Some "/ws") Ex.docs (fun _ _ => NotFound)) "sub/../a.c")
  = getFullPath (posix_host (Some "/ws") Ex.docs (fun _ _ => NotFound)) "sub/../a.c".
Proof.
  exact (getFullPath_absolute "/ws" Ex.docs (fun _ _ => NotFound) "sub/../a.c" eq_refl).
Defined.

(** *** A submission takes the first slot that is free *)

(** [buildSingle] refuses a submission only when every slot holds a
    pending promise.  Otherwise it stores a new promise in the first
    slot whose promise is not pending and leaves the other slots as they
    are; the new promise waits for every promise the queue held, the
    settled ones too. *)
Theorem buildSingle_first_free_slot (cwd : string) (c : Cscope) :
  (all_pending c /\ snd (buildSingle cwd c) = Refused "queue full" /\
   buildQueue (fst (buildSingle cwd c)) = buildQueue c /\
   promises (fst (buildSingle cwd c)) = promises c) \/
  (exists index old,
     buildQueue c !! index = Some old /\
     promiseState (promises c) old <> "pending"%string /\
     (forall j p, (j < index)%nat -> buildQueue c !! j = Some p ->
                  promiseState (promises c) p = "pending"%string) /\
     snd (buildSingle cwd c) = Stored (List.length (promises c)) /\
     buildQueue (fst (buildSingle cwd c))
     = <[index := List.length (promises c)]> (buildQueue c) /\
     promises (fst (buildSingle cwd c))
     = promises c ++ [Promise_build cwd (buildQueue c) Waiting]).
Proof.
  destruct (buildSingle_cases cwd c) as [(Hr & Hq & Hp & _ & _ & _ & _ & Hall)
                                        |(index & old & Hs & Ho & Hn & Hb & Hq & Hp & _)].
  - left. auto.
  - right. exists index, old. auto 10.
Qed.

(** *** [query] and the builds *)

Lemma querySingle_frame (I : ItemClass) (type word cwd : string) (x : queryExit) (c : Cscope) :
  buildQueue (fst (querySingle I type word cwd x c)) = buildQueue c /\
  promises (fst (querySingle I type word cwd x c)) = promises c /\
  buildCmd (fst (querySingle I type word cwd x c)) = buildCmd c /\
  config (fst (querySingle I type word cwd x c)) = config c /\
  env (fst (querySingle I type word cwd x c)) = env c /\
  queryCmd (fst (querySingle I type word cwd x c))
  = join_args " " (JString (get (config c) "cscope") :: query_args (config c) type word).
Proof.
  unfold querySingle. destruct x as [code lines err|error|error]; [|repeat split..].
  destruct (fold_left _ _ _) as [[results entries] out].
  destruct (code_ne_0 code); repeat split.
Qed.

Lemma query_loop_frame (I : ItemClass) (world : nat -> string -> queryExit)
    (type word : string) (directories : list string) :
  forall i allResults c,
    let c' := fst (query_loop I world i type word directories allResults c) in
    buildQueue c' = buildQueue c /\ promises c' = promises c /\ buildCmd c' = buildCmd c /\
    config c' = config c /\ env c' = env c /\
    queryCmd c' = match directories with
                  | [] => queryCmd c
                  | _ => join_args " " (JString (get (config c) "cscope")
                                          :: query_args (config c) type word)
                  end.
Proof.
  induction directories as [|dir directories IH]; intros i allResults c; cbn [query_loop].
  - repeat split.
  - destruct (querySingle_frame I type word dir (world i dir) c) as (Hq & Hp & Hb & Hc & He & Hcmd).
    pose proof (querySingle_settles I type word dir (world i dir) c) as Hn.
    destruct (querySingle I type word dir (world i dir) c) as [c1 [results|err|]];
      cbn [fst snd] in *; [| |congruence].
    + destruct (IH (S i) (allResults ++ results) c1) as (Hq' & Hp' & Hb' & Hc' & He' & Hcmd').
      cbv zeta in *. rewrite Hq', Hp', Hb', Hc', He', Hcmd'.
      repeat split; try assumption. destruct directories; [exact Hcmd|now rewrite Hc].
    + set (c2 := add_log _ c1).
      destruct (IH (S i) allResults c2) as (Hq' & Hp' & Hb' & Hc' & He' & Hcmd').
      cbv zeta in *. rewrite Hq', Hp', Hb', Hc', He', Hcmd'. subst c2.
      cbn [add_log buildQueue promises buildCmd config env queryCmd].
      repeat split; try assumption. destruct directories; [exact Hcmd|now rewrite Hc].
Qed.

(** [query] is not queued and does not wait for a build: it leaves the
    queue, the promises and the build command as they are, whatever the
    state of the builds.  What it changes besides the log and the calls
    of [cp.spawn] is the query command.  It stays as it was when there
    is no directory to query; otherwise it is the tool, [queryArgs],
    [-f], the database, what [Array.prototype.join] prints for
    [QueryType[type]] and the word, with a space between them. *)
Theorem query_leaves_builds_alone (I : ItemClass) (world : nat -> string -> queryExit)
    (type word : string) (c : Cscope) :
  buildQueue (fst (query I world type word c)) = buildQueue c /\
  promises (fst (query I world type word c)) = promises c /\
  getBuildCmd (fst (query I world type word c)) = getBuildCmd c /\
  getQueryCmd (fst (query I world type word c))
  = match getAllDirectories (env c) with
    | [] => getQueryCmd c
    | _ => get (config c) "cscope" +:+ " " +:+ get (config c) "queryArgs" +:+ " " +:+ "-f"
           +:+ " " +:+ get (config c) "database" +:+ " "
           +:+ join_element (QueryType_get type) +:+ " " +:+ word
    end.
Proof.
  unfold query, getBuildCmd, getQueryCmd.
  set (c0 := add_log _ c).
  destruct (query_loop_frame I world type word (getAllDirectories (env c)) 0 [] c0)
    as (Hq & Hp & Hb & _ & _ & Hcmd).
  cbv zeta in *. rewrite Hq, Hp, Hb, Hcmd. repeat split.
Qed.

(** The query command of a kind that is a name of [Object.prototype]:
    the kind is no key of the table, and the text of the inherited
    function stands where the flag would. *)
Example query_command_of_inherited_kind :
  getQueryCmd (fst (query Ex.items (fun _ _ => QueryExit (Some 0) [] "") "toString" "main"
                      (constructor Ex.cfg Ex.folders)))
  = "cscope -RdL -f cscope.out function toString() { [native code] } main"%string.
Proof. reflexivity. Qed.

(** *** Invariants of the object under submissions and process events *)

Section Invariant.

(** A property of the object that the log does not touch, and that the
    three things that happen to the promises keep: a new build stored
    in a slot, the start of a build, the end of its process. *)
Variable P : Cscope -> Prop.
Hypothesis P_log : forall l c, P c -> P (add_log l c).
Hypothesis P_store : forall cwd index c,
  P c -> (index < List.length (buildQueue c))%nat ->
  P (store_new index (Promise_build cwd (buildQueue c) Waiting) c).
Hypothesis P_start : forall p c c', P c -> start_build p c = Some c' -> P c'.
Hypothesis P_settle : forall p x c c', P c -> settle_build p x c = Some c' -> P c'.

Lemma after_scan_keeps (cwd : string) (index : nat) (c : Cscope) :
  P c -> P (fst (after_scan cwd index (List.length (buildQueue c)) c)).
Proof.
  intros H. unfold after_scan.
  destruct (Nat.leb_spec (List.length (buildQueue c)) index); cbn [fst].
  - now apply P_log.
  - rewrite filter_async_all. now apply P_store.
Qed.

Lemma buildSingle_keeps (cwd : string) (c : Cscope) : P c -> P (fst (buildSingle cwd c)).
Proof.
  intros H. unfold buildSingle. destruct (scan _ _ _) as [index entries].
  exact (after_scan_keeps cwd index (add_log entries c) (P_log _ _ H)).
Qed.

Lemma loop_keeps (cwd : string) (index : nat) (c : Cscope) :
  P c -> P (fst (Interleaved.loop cwd index (List.length (buildQueue c)) c)).
Proof.
  intros H. unfold Interleaved.loop. destruct (_ <? _)%nat; [exact H|].
  pose proof (after_scan_keeps cwd index c H) as H'.
  now destruct (after_scan _ _ _ _).
Qed.

Lemma resume_keeps (fr : Interleaved.frame) (c : Cscope) :
  Interleaved.len fr = List.length (buildQueue c) -> P c ->
  P (fst (Interleaved.resume fr c)).
Proof.
  intros Hlen H. unfold Interleaved.resume. set (c0 := add_log _ c).
  assert (H0 : P c0) by now apply P_log.
  rewrite Hlen. change (List.length (buildQueue c)) with (List.length (buildQueue c0)).
  destruct (negb _).
  - pose proof (after_scan_keeps (Interleaved.cwd fr) (Interleaved.index fr) c0 H0) as H'.
    now destruct (after_scan _ _ _ _).
  - apply loop_keeps, H0.
Qed.

Lemma interleaved_step_keeps (s s' : Interleaved.system) (e : Interleaved.event) :
  frames_ok s -> P (Interleaved.object s) -> Interleaved.step s e = Some s' ->
  P (Interleaved.object s').
Proof.
  intros Hf H. destruct e as [cwd|j|p|p x]; simpl.
  - pose proof (loop_keeps cwd 0 (Interleaved.object s) H) as H'.
    unfold Interleaved.enter. destruct (Interleaved.loop _ _ _ _) as [c1 k1].
    now intros [= <-].
  - destruct (Interleaved.calls s !! j) as [[frj|]|] eqn:Hj; try discriminate.
    pose proof (resume_keeps frj (Interleaved.object s) (Hf j frj Hj) H) as H'.
    destruct (Interleaved.resume _ _) as [c1 k1]. now intros [= <-].
  - destruct (start_build p (Interleaved.object s)) as [c1|] eqn:Hs; [|discriminate].
    intros [= <-]. exact (P_start _ _ _ H Hs).
  - destruct (existsb _ _); [discriminate|].
    destruct (settle_build p x (Interleaved.object s)) as [c1|] eqn:Hs; [|discriminate].
    intros [= <-]. exact (P_settle _ _ _ _ H Hs).
Qed.

Lemma interleaved_run_keeps (es : list Interleaved.event) :
  forall s s', frames_ok s -> P (Interleaved.object s) -> Interleaved.run s es = Some s' ->
               P (Interleaved.object s').
Proof.
  induction es as [|e es IH]; intros s s' Hf H; cbn [Interleaved.run].
  - now intros [= <-].
  - destruct (Interleaved.step s e) as [s1|] eqn:Hs; [|discriminate].
    apply IH; [exact (proj1 (frames_ok_step _ _ _ Hf Hs))|exact (interleaved_step_keeps _ _ _ Hf H Hs)].
Qed.

End Invariant.

(** *** One build process at a time *)

Lemma waits_app_l (h new : list promise) (p : ref) :
  (p < List.length h)%nat -> waits (h ++ new) p = waits h p.
Proof. intros H. unfold waits. now rewrite lookup_app_l. Qed.

Lemma waits_lt (h : list promise) (q w : ref) : In w (waits h q) -> (q < List.length h)%nat.
Proof.
  unfold waits. destruct (h !! q) eqn:Hq; [|contradiction].
  intros _. eapply lookup_lt_Some, Hq.
Qed.

Lemma promiseState_app_l (h new : list promise) (p : ref) :
  (p < List.length h)%nat -> promiseState (h ++ new) p = promiseState h p.
Proof. intros H. unfold promiseState. now rewrite lookup_app_l. Qed.

Lemma promiseState_new (h : list promise) (cwd : string) (ps : list ref) :
  promiseState (h ++ [Promise_build cwd ps Waiting]) (List.length h) = "pending"%string.
Proof. unfold promiseState. now rewrite lookup_app_r, Nat.sub_diag by lia. Qed.

Lemma pending_lt (h : list promise) (p : ref) :
  promiseState h p = "pending"%string -> (p < List.length h)%nat.
Proof.
  intros H. destruct (pending_is_Some h p H) as (pr & Hp & _). eapply lookup_lt_Some, Hp.
Qed.

Lemma reaches_app (h new : list promise) (a b : ref) :
  reaches h a b -> reaches (h ++ new) a b.
Proof.
  induction 1 as [p|q w p Hw _ IH]; [constructor|].
  apply (reaches_wait _ q w p); [|exact IH].
  rewrite waits_app_l; [exact Hw|eapply waits_lt, Hw].
Qed.

Lemma reaches_ext (h h' : list promise) (a b : ref) :
  (forall x, waits h' x = waits h x) -> reaches h a b -> reaches h' a b.
Proof.
  intros He. induction 1 as [p|q w p Hw _ IH]; [constructor|].
  apply (reaches_wait _ q w p); [now rewrite He|exact IH].
Qed.

Lemma all_fulfilled_mono (h h' : list promise) (ps : list ref) :
  (forall w, In w ps -> promiseState h w = "fulfilled"%string ->
             promiseState h' w = "fulfilled"%string) ->
  all_fulfilled h ps = true -> all_fulfilled h' ps = true.
Proof.
  unfold all_fulfilled. rewrite !forallb_forall. intros Hm H w Hin.
  apply String.eqb_eq, Hm; [exact Hin|]. now apply String.eqb_eq, H.
Qed.

Lemma serial_log (l : list logEntry) (c : Cscope) : serial c -> serial (add_log l c).
Proof. intros [H1 H2 H3 H4 H5]. now constructor. Qed.

Lemma notfulfilled_lt (h : list promise) (p : ref) :
  promiseState h p <> "fulfilled"%string -> (p < List.length h)%nat.
Proof.
  intros H. destruct (Nat.lt_ge_cases p (List.length h)) as [Hlt|Hge]; [exact Hlt|].
  exfalso. apply H. unfold promiseState. now rewrite lookup_ge_None_2.
Qed.

Lemma serial_store (cwd : string) (index : nat) (c : Cscope) :
  serial c -> (index < List.length (buildQueue c))%nat ->
  serial (store_new index (Promise_build cwd (buildQueue c) Waiting) c).
Proof.
  intros [Hq Hold Hst Hbe Hco] Hi.
  set (h := promises c) in *. set (n := List.length h).
  assert (Hw : forall x, waits (h ++ [Promise_build cwd (buildQueue c) Waiting]) x
                         = if decide (x = n) then buildQueue c else waits h x).
  { intros x. destruct (decide (x = n)) as [->|Hne].
    - unfold waits. now rewrite lookup_app_r, Nat.sub_diag by lia.
    - destruct (Nat.lt_ge_cases x n) as [Hlt|Hge]; [now apply waits_app_l|].
      unfold waits. rewrite !(lookup_ge_None_2 _ x); [reflexivity|fold n; lia|].
      rewrite length_app. cbn. fold n. lia. }
  constructor; cbn [store_new buildQueue promises]; rewrite ?array_set_lt by exact Hi;
    fold h; rewrite ?length_app; cbn [List.length];
    fold n.
  - intros p Hin. apply In_insert in Hin as [->|Hin]; [lia|]. specialize (Hq p Hin). lia.
  - intros q w. rewrite Hw. destruct (decide (q = n)) as [->|Hne]; intros Hin.
    + exact (Hq w Hin).
    + exact (Hold q w Hin).
  - intros q pr Hl Hs. rewrite Hw. destruct (decide (q = n)) as [->|Hne].
    + rewrite lookup_app_r, Nat.sub_diag in Hl by (fold n; lia).
      inversion Hl; subst pr. discriminate.
    + assert (Hlt : (q < n)%nat).
      { apply lookup_lt_Some in Hl. rewrite length_app in Hl. cbn in Hl. fold n in Hl. lia. }
      rewrite lookup_app_l in Hl by exact Hlt.
      apply (all_fulfilled_mono h); [|exact (Hst q pr Hl Hs)].
      intros w Hin Hf. rewrite promiseState_app_l; [exact Hf|].
      specialize (Hold q w Hin). fold n. lia.
  - intros q p cwd0 ps ph Hl Hlt Hp.
    assert (Hpn : (p < n)%nat).
    { apply lookup_lt_Some in Hl. rewrite length_app in Hl. cbn in Hl. fold n in Hl. lia. }
    rewrite promiseState_app_l in Hp by exact Hpn.
    destruct (decide (q = n)) as [->|Hne].
    + rewrite lookup_app_r, Nat.sub_diag in Hl by (fold n; lia).
      inversion Hl; subst. destruct (Hco p Hp) as (q0 & Hin & Hr).
      exists q0. split; [exact Hin|now apply reaches_app].
    + assert (Hqn : (q < n)%nat).
      { apply lookup_lt_Some in Hl. rewrite length_app in Hl. cbn in Hl. fold n in Hl. lia. }
      rewrite lookup_app_l in Hl by exact Hqn.
      destruct (Hbe q p cwd0 ps ph Hl Hlt Hp) as (w & Hin & Hr).
      exists w. split; [exact Hin|now apply reaches_app].
  - intros p Hp. exists n. split; [now apply In_insert_new|].
    destruct (decide (p = n)) as [->|Hne]; [constructor|].
    assert (Hpn : (p < n)%nat).
    { apply notfulfilled_lt in Hp. rewrite length_app in Hp. cbn in Hp. fold n in Hp. lia. }
    rewrite promiseState_app_l in Hp by exact Hpn.
    destruct (Hco p Hp) as (q0 & Hin & Hr).
    apply (reaches_wait _ n q0 p); [|now apply reaches_app].
    rewrite Hw. now destruct (decide (n = n)).
Qed.

(** A build goes from waiting to running, or from running to settled. *)
Lemma serial_phase (c c' : Cscope) (p : ref) (cwd : string) (ps : list ref) (ph ph' : phase) :
  serial c ->
  promises c !! p = Some (Promise_build cwd ps ph) ->
  promises c' = <[p := Promise_build cwd ps ph']> (promises c) ->
  buildQueue c' = buildQueue c ->
  (ph = Waiting /\ all_fulfilled (promises c) ps = true) \/ ph = Running ->
  serial c'.
Proof.
  intros [Hq Hold Hst Hbe Hco] Hp Hh' Hq' Hph.
  set (h := promises c) in *. set (h' := promises c') in *.
  assert (Hlt : (p < List.length h)%nat) by (eapply lookup_lt_Some, Hp).
  assert (Hpend : promiseState h p = "pending"%string).
  { unfold promiseState. rewrite Hp. now destruct Hph as [[-> _]| ->]. }
  assert (Hlen : List.length h' = List.length h) by (rewrite Hh'; apply length_insert).
  assert (Hw : forall x, waits h' x = waits h x).
  { intros x. unfold waits. rewrite Hh'. destruct (decide (p = x)) as [<-|Hne].
    - now rewrite list_lookup_insert_eq, Hp by exact Hlt.
    - now rewrite list_lookup_insert_ne by exact Hne. }
  assert (Hother : forall x, x <> p -> promiseState h' x = promiseState h x).
  { intros x Hne. unfold promiseState. rewrite Hh'.
    now rewrite list_lookup_insert_ne by (intros E; apply Hne; now symmetry). }
  assert (Hful : forall x, promiseState h x = "fulfilled"%string ->
                           promiseState h' x = "fulfilled"%string).
  { intros x Hx. destruct (decide (x = p)) as [->|Hne]; [congruence|]. now rewrite Hother. }
  assert (Hnf : forall x, promiseState h' x <> "fulfilled"%string ->
                          promiseState h x <> "fulfilled"%string).
  { intros x Hx Hx'. apply Hx, Hful, Hx'. }
  constructor; change (promises c') with h'; rewrite ?Hq', ?Hlen.
  - exact Hq.
  - intros q w. rewrite Hw. apply Hold.
  - intros q pr Hl Hs. rewrite Hw.
    apply (all_fulfilled_mono h); [auto|].
    rewrite Hh' in Hl. destruct (decide (p = q)) as [<-|Hne].
    + replace (waits h p) with ps by (unfold waits; now rewrite Hp).
      destruct Hph as [[_ Hall]| ->]; [exact Hall|].
      specialize (Hst p _ Hp eq_refl). unfold waits in Hst. now rewrite Hp in Hst.
    + rewrite list_lookup_insert_ne in Hl by exact Hne. exact (Hst q pr Hl Hs).
  - intros q p0 cwd0 ps0 ph0 Hl Hlt0 Hp0.
    rewrite Hh' in Hl.
    assert (Hprev : exists ph1, h !! q = Some (Promise_build cwd0 ps0 ph1)).
    { destruct (decide (p = q)) as [<-|Hne].
      - rewrite list_lookup_insert_eq in Hl by exact Hlt. inversion Hl; subst. eauto.
      - rewrite list_lookup_insert_ne in Hl by exact Hne. eauto. }
    destruct Hprev as [ph1 Hprev].
    destruct (Hbe q p0 cwd0 ps0 ph1 Hprev Hlt0 (Hnf p0 Hp0)) as (w & Hin & Hr).
    exists w. split; [exact Hin|]. now apply (reaches_ext h).
  - intros p0 Hp0. destruct (Hco p0 (Hnf p0 Hp0)) as (q0 & Hin & Hr).
    exists q0. split; [exact Hin|]. now apply (reaches_ext h).
Qed.

Lemma serial_start (p : ref) (c c' : Cscope) : serial c -> start_build p c = Some c' -> serial c'.
Proof.
  intros H Hs. destruct (start_build_spec _ _ _ Hs) as (cwd & ps & Hp & Hall & Hh & Hq & _).
  exact (serial_phase c c' p cwd ps Waiting Running H Hp Hh Hq (or_introl (conj eq_refl Hall))).
Qed.

Lemma serial_settle (p : ref) (x : exit) (c c' : Cscope) :
  serial c -> settle_build p x c = Some c' -> serial c'.
Proof.
  intros H Hs. destruct (settle_build_spec _ _ _ _ Hs) as (cwd & ps & Hp & Hh & Hq & _).
  exact (serial_phase c c' p cwd ps Running _ H Hp Hh Hq (or_intror eq_refl)).
Qed.

Lemma serial_constructor (cfg : IConfig) (e : IEnv) : serial (constructor cfg e).
Proof.
  constructor; cbn [constructor buildQueue promises].
  - intros p [<-|[<-|[]]]; cbn; lia.
  - intros [|[|q]] w; cbn; contradiction.
  - intros [|[|q]] pr; cbn; intros [= <-]; discriminate.
  - intros [|[|q]] p cwd ps ph; cbn; discriminate.
  - intros [|[|p]]; cbn; intros H; now destruct H.
Qed.

(** A fulfilled promise waited for fulfilled promises only. *)
Lemma fulfilled_reaches (c : Cscope) (q p : ref) :
  serial c -> reaches (promises c) q p ->
  promiseState (promises c) q = "fulfilled"%string ->
  promiseState (promises c) p = "fulfilled"%string.
Proof.
  intros Hs. induction 1 as [p|q w p Hw _ IH]; [auto|]. intros Hq.
  apply IH. apply (all_fulfilled_In (promises c) (waits (promises c) q)); [|exact Hw].
  unfold waits in Hw. destruct (promises c !! q) as [[v|cwd ps ph]|] eqn:Hl; try contradiction.
  apply (serial_started c Hs q _ Hl).
  unfold promiseState in Hq. rewrite Hl in Hq. now destruct ph.
Qed.

Lemma running_pending (h : list promise) (p : ref) (pr : promise) :
  h !! p = Some pr -> is_running pr = true -> promiseState h p = "pending"%string.
Proof.
  intros Hp Hr. unfold promiseState. rewrite Hp.
  destruct pr as [v|cwd ps [| |r]]; try discriminate. reflexivity.
Qed.

(** A build that has started was preceded by fulfilled promises only. *)
Lemma started_after_fulfilled (c : Cscope) (p q : ref) (pr : promise) :
  serial c -> (p < q)%nat -> promises c !! q = Some pr -> started pr = true ->
  promiseState (promises c) p = "fulfilled"%string.
Proof.
  intros Hs Hlt Hq Hst.
  destruct (String.eqb_spec (promiseState (promises c) p) "fulfilled") as [Hf|Hnf]; [exact Hf|].
  destruct pr as [v|cwd ps ph]; [discriminate|].
  destruct (serial_behind c Hs q p cwd ps ph Hq Hlt Hnf) as (w & Hin & Hreach).
  pose proof (serial_started c Hs q _ Hq Hst) as Hall.
  unfold waits in Hall. rewrite Hq in Hall.
  exact (fulfilled_reaches c w p Hs Hreach (all_fulfilled_In _ _ _ Hall Hin)).
Qed.

Lemma running_started (pr : promise) : is_running pr = true -> started pr = true.
Proof. now destruct pr as [v|cwd ps [| |r]]. Qed.

Lemma running_before (c : Cscope) (p q : ref) (pr pr' : promise) :
  serial c -> promises c !! p = Some pr -> is_running pr = true ->
  promises c !! q = Some pr' -> is_running pr' = true -> ~ (p < q)%nat.
Proof.
  intros Hs Hp Hr Hq Hr' Hlt.
  pose proof (running_pending _ _ _ Hp Hr) as Hpend.
  pose proof (started_after_fulfilled c p q pr' Hs Hlt Hq (running_started _ Hr')) as Hf.
  rewrite Hpend in Hf. discriminate.
Qed.

Lemma filter_at_most_one {A : Type} (f : A -> bool) (l : list A) :
  (forall i j x y, l !! i = Some x -> l !! j = Some y -> f x = true -> f y = true -> i = j) ->
  (List.length (List.filter f l) <= 1)%nat.
Proof.
  induction l as [|a l IH]; intros H; cbn [List.filter]; [cbn; lia|].
  destruct (f a) eqn:Ha.
  - assert (Hnone : List.filter f l = []).
    { clear IH. induction l as [|b l IHl]; [reflexivity|]. cbn [List.filter].
      destruct (f b) eqn:Hb.
      - specialize (H 0%nat 1%nat a b eq_refl eq_refl Ha Hb). discriminate.
      - apply IHl. intros [|i] [|j] x y Hx Hy Hfx Hfy; try reflexivity.
        + specialize (H 0%nat (S (S j)) x y Hx Hy Hfx Hfy). discriminate.
        + specialize (H (S (S i)) 0%nat x y Hx Hy Hfx Hfy). discriminate.
        + specialize (H (S (S i)) (S (S j)) x y Hx Hy Hfx Hfy). congruence. }
    rewrite Hnone. cbn. lia.
  - apply IH. intros i j x y Hx Hy Hfx Hfy.
    specialize (H (S i) (S j) x y Hx Hy Hfx Hfy). congruence.
Qed.

Lemma serial_one_running (c : Cscope) : serial c -> (List.length (running c) <= 1)%nat.
Proof.
  intros Hs. apply filter_at_most_one. intros i j x y Hx Hy Hfx Hfy.
  destruct (Nat.lt_trichotomy i j) as [Hlt|[Heq|Hgt]]; [|exact Heq|].
  - now destruct (running_before c i j x y Hs Hx Hfx Hy Hfy).
  - now destruct (running_before c j i y x Hs Hy Hfy Hx Hfx).
Qed.

(** The builds of an object run one at a time, in the order of their
    submission: whatever calls of [buildSingle] are made on a new
    object, however they overlap, and whatever the processes do, at most
    one build process is running at any time, and a build whose process
    has been spawned is preceded by fulfilled promises only, so that
    every build stored before it has succeeded. *)
Theorem one_build_at_a_time (cfg : IConfig) (e : IEnv) (es : list Interleaved.event)
    (s : Interleaved.system) :
  Interleaved.run {| Interleaved.object := constructor cfg e; Interleaved.calls := [] |} es
  = Some s ->
  (List.length (running (Interleaved.object s)) <= 1)%nat /\
  forall p q pr,
    (p < q)%nat -> promises (Interleaved.object s) !! q = Some pr -> started pr = true ->
    promiseState (promises (Interleaved.object s)) p = "fulfilled"%string.
Proof.
  intros Hrun.
  pose proof (interleaved_run_keeps serial serial_log serial_store serial_start serial_settle
                es _ s (frames_ok_nil _) (serial_constructor cfg e) Hrun) as Hs.
  split; [now apply serial_one_running|].
  intros p q pr Hlt Hq Hst. exact (started_after_fulfilled _ p q pr Hs Hlt Hq Hst).
Qed.

Lemma one_build_at_a_time_witness :
  match Interleaved.run
          {| Interleaved.object := constructor Ex.cfg Ex.folders; Interleaved.calls := [] |}
          [Interleaved.Call "/ws/a"; Interleaved.Call "/ws/b"; Interleaved.Resume 1;
           Interleaved.Resume 0; Interleaved.Start 2;
           Interleaved.Finish 2 (Exit (Some 0) "done" ""); Interleaved.Start 3;
           Interleaved.Call "/ws/c"; Interleaved.Resume 2; Interleaved.Resume 2] with
  | Some s =>
      (List.length (running (Interleaved.object s)) <= 1)%nat /\
      promiseState (promises (Interleaved.object s)) 2 = "fulfilled"%string
  | None => False
  end.
Proof.
  destruct (Interleaved.run
              {| Interleaved.object := constructor Ex.cfg Ex.folders; Interleaved.calls := [] |}
              [Interleaved.Call "/ws/a"; Interleaved.Call "/ws/b"; Interleaved.Resume 1;
               Interleaved.Resume 0; Interleaved.Start 2;
               Interleaved.Finish 2 (Exit (Some 0) "done" ""); Interleaved.Start 3;
               Interleaved.Call "/ws/c"; Interleaved.Resume 2; Interleaved.Resume 2])
    as [s|] eqn:Hrun; [|vm_compute in Hrun; discriminate Hrun].
  destruct (one_build_at_a_time Ex.cfg Ex.folders _ s Hrun) as [H1 H2].
  split; [exact H1|].
  apply (H2 2%nat 3%nat (Promise_build "/ws/a" [2; 1]%nat Running)); [lia| |reflexivity].
  vm_compute in Hrun. inversion Hrun; subst s. reflexivity.
Defined.

(** *** Builds go on while none fails *)





(** *** After a failed build *)

Lemma poisoned_evolves (c c' : Cscope) :
  evolves (promises c) (promises c') -> buildQueue c' = buildQueue c ->
  poisoned c -> poisoned c'.
Proof.
  intros He Hq (r & Hin & Hr). exists r. rewrite Hq. split; [exact Hin|].
  destruct Hr as [Hr|Hr].
  - left. apply (evolves_settled _ _ _ _ He); [|exact Hr|discriminate].
    unfold promiseState in Hr. destruct (promises c !! r); [eauto|discriminate].
  - right. exact (blocked_evolves _ _ _ He Hr).
Qed.

Lemma poisoned_since_evolves (n0 : nat) (c c' : Cscope) :
  evolves (promises c) (promises c') -> buildQueue c' = buildQueue c ->
  List.length (promises c') = List.length (promises c) ->
  poisoned_since n0 c -> poisoned_since n0 c'.
Proof.
  intros He Hq Hlen [Hp Hb]. split; [exact (poisoned_evolves c c' He Hq Hp)|].
  intros p Hn Hlt. rewrite Hlen in Hlt. exact (blocked_evolves _ _ _ He (Hb p Hn Hlt)).
Qed.

Lemma poisoned_since_log (n0 : nat) (l : list logEntry) (c : Cscope) :
  poisoned_since n0 c -> poisoned_since n0 (add_log l c).
Proof. intros H. exact H. Qed.

Lemma In_insert_old (l : list nat) (i x y : nat) :
  In y l -> In y (<[i := x]> l) \/ In x (<[i := x]> l).
Proof.
  intros Hin. destruct (Nat.lt_ge_cases i (List.length l)) as [Hlt|Hge].
  - right. now apply In_insert_new.
  - left. now rewrite list_insert_ge.
Qed.

Lemma poisoned_since_store (n0 : nat) (cwd : string) (index : nat) (c : Cscope) :
  poisoned_since n0 c -> (index < List.length (buildQueue c))%nat ->
  poisoned_since n0 (store_new index (Promise_build cwd (buildQueue c) Waiting) c).
Proof.
  intros [(r & Hin & Hr) Hb] Hi.
  set (new := Promise_build cwd (buildQueue c) Waiting).
  assert (He : evolves (promises c) (promises c ++ [new])) by apply evolves_app.
  assert (Hnew : blocked (promises c ++ [new]) (List.length (promises c))).
  { assert (Hl : (promises c ++ [new]) !! List.length (promises c) = Some new)
      by now rewrite lookup_app_r, Nat.sub_diag by lia.
    destruct Hr as [Hr|Hr].
    - apply (blocked_rejected _ _ cwd (buildQueue c) r Hl Hin).
      apply (evolves_settled _ _ _ _ He); [|exact Hr|discriminate].
      unfold promiseState in Hr. destruct (promises c !! r); [eauto|discriminate].
    - exact (blocked_behind _ _ cwd (buildQueue c) r Hl Hin (blocked_evolves _ _ _ He Hr)). }
  split.
  - unfold poisoned, store_new. cbn [buildQueue promises]. fold new.
    rewrite array_set_lt by exact Hi.
    destruct (In_insert_old (buildQueue c) index (List.length (promises c)) r Hin) as [Hk|Hk].
    + exists r. split; [exact Hk|]. destruct Hr as [Hr|Hr].
      * left. apply (evolves_settled _ _ _ _ He); [|exact Hr|discriminate].
        unfold promiseState in Hr. destruct (promises c !! r); [eauto|discriminate].
      * right. exact (blocked_evolves _ _ _ He Hr).
    + exists (List.length (promises c)). split; [exact Hk|]. right. exact Hnew.
  - cbn [store_new promises]. fold new. intros p Hn Hlt.
    rewrite length_app in Hlt. cbn in Hlt.
    destruct (decide (p = List.length (promises c))) as [->|Hne]; [exact Hnew|].
    apply (blocked_evolves _ _ _ He). apply Hb; [exact Hn|lia].
Qed.

Lemma poisoned_since_start (n0 : nat) (p : ref) (c c' : Cscope) :
  poisoned_since n0 c -> start_build p c = Some c' -> poisoned_since n0 c'.
Proof.
  intros H Hs. destruct (start_build_spec _ _ _ Hs) as (cwd & ps & Hp & Hall & Hh & Hq & _).
  apply (poisoned_since_evolves n0 c c'); [|exact Hq| |exact H].
  - rewrite Hh. now apply (evolves_insert _ _ _ _ Hp).
  - rewrite Hh. apply length_insert.
Qed.

Lemma poisoned_since_settle (n0 : nat) (p : ref) (x : exit) (c c' : Cscope) :
  poisoned_since n0 c -> settle_build p x c = Some c' -> poisoned_since n0 c'.
Proof.
  intros H Hs. destruct (settle_build_spec _ _ _ _ Hs) as (cwd & ps & Hp & Hh & Hq & _).
  apply (poisoned_since_evolves n0 c c'); [|exact Hq| |exact H].
  - rewrite Hh. apply (evolves_insert _ _ _ _ Hp). eauto.
  - rewrite Hh. apply length_insert.
Qed.

(** Once the queue holds a rejected promise, no build submitted to the
    object is ever started again: whatever calls of [buildSingle] are
    made from then on and whatever the processes do, every build stored
    since is still waiting. *)
Theorem no_build_starts_after_a_failure (c : Cscope) (r : ref) (es : list Interleaved.event)
    (s : Interleaved.system) :
  In r (buildQueue c) -> promiseState (promises c) r = "rejected"%string ->
  Interleaved.run {| Interleaved.object := c; Interleaved.calls := [] |} es = Some s ->
  forall p cwd ps ph,
    (List.length (promises c) <= p)%nat ->
    promises (Interleaved.object s) !! p = Some (Promise_build cwd ps ph) ->
    ph = Waiting.
Proof.
  intros Hin Hr Hrun p cwd ps ph Hn Hp.
  assert (H0 : poisoned_since (List.length (promises c)) c).
  { split; [exists r; auto|]. intros q Hq Hlt. lia. }
  pose proof (interleaved_run_keeps (poisoned_since (List.length (promises c)))
                (poisoned_since_log _) (poisoned_since_store _) (poisoned_since_start _)
                (poisoned_since_settle _) es _ s (frames_ok_nil c) H0 Hrun) as [_ Hb].
  specialize (Hb p Hn (lookup_lt_Some _ _ _ Hp)).
  inversion Hb as [? ? ? ? Hl|? ? ? ? Hl]; rewrite Hp in Hl; now inversion Hl.
Qed.

Lemma no_build_starts_after_a_failure_witness :
  match Interleaved.run
          {| Interleaved.object := fst (build Ex.b_fails (constructor Ex.cfg Ex.folders));
             Interleaved.calls := [] |}
          [Interleaved.Call "/ws/a"; Interleaved.Resume 0;
           Interleaved.Call "/ws/b"; Interleaved.Resume 1; Interleaved.Resume 1] with
  | Some s =>
      match promises (Interleaved.object s) !! 5%nat with
      | Some (Promise_build _ _ ph) => ph = Waiting
      | _ => False
      end
  | None => False
  end.
Proof.
  destruct (Interleaved.run
              {| Interleaved.object := fst (build Ex.b_fails (constructor Ex.cfg Ex.folders));
                 Interleaved.calls := [] |}
              [Interleaved.Call "/ws/a"; Interleaved.Resume 0;
               Interleaved.Call "/ws/b"; Interleaved.Resume 1; Interleaved.Resume 1])
    as [s|] eqn:Hrun; [|vm_compute in Hrun; discriminate Hrun].
  assert (Hin : In 3%nat (buildQueue (fst (build Ex.b_fails (constructor Ex.cfg Ex.folders)))))
    by (vm_compute; left; reflexivity).
  assert (Hrej : promiseState
                   (promises (fst (build Ex.b_fails (constructor Ex.cfg Ex.folders)))) 3
                 = "rejected"%string) by (vm_compute; reflexivity).
  assert (Hlen : (List.length (promises (fst (build Ex.b_fails (constructor Ex.cfg Ex.folders))))
                  <= 5)%nat) by (vm_compute; lia).
  destruct (promises (Interleaved.object s) !! 5%nat) as [[v|cwd ps ph]|] eqn:Hp.
  - vm_compute in Hrun. inversion Hrun; subst s. discriminate Hp.
  - exact (no_build_starts_after_a_failure
             (fst (build Ex.b_fails (constructor Ex.cfg Ex.folders))) 3
             [Interleaved.Call "/ws/a"; Interleaved.Resume 0;
              Interleaved.Call "/ws/b"; Interleaved.Resume 1; Interleaved.Resume 1]
             s Hin Hrej Hrun 5%nat cwd ps ph Hlen Hp).
  - vm_compute in Hrun. inversion Hrun; subst s. discriminate Hp.
Defined.

(** *** The build command *)

Lemma existsb_insert_true {A : Type} (f : A -> bool) (l : list A) (i : nat) (x : A) :
  (i < List.length l)%nat -> f x = true -> existsb f (<[i := x]> l) = true.
Proof.
  intros Hi Hx. apply existsb_exists. exists x. split; [|exact Hx].
  apply list_elem_of_In. eapply list_elem_of_lookup_2. now apply list_lookup_insert_eq.
Qed.

Lemma existsb_lookup_true {A : Type} (f : A -> bool) (l : list A) (i : nat) (x : A) :
  l !! i = Some x -> f x = true -> existsb f l = true.
Proof.
  intros Hi Hx. apply existsb_exists. exists x. split; [|exact Hx].
  apply list_elem_of_In. eapply list_elem_of_lookup_2, Hi.
Qed.

Lemma buildCmd_set_store (cfg : IConfig) (cwd : string) (index : nat) (c : Cscope) :
  buildCmd_set cfg c -> (index < List.length (buildQueue c))%nat ->
  buildCmd_set cfg (store_new index (Promise_build cwd (buildQueue c) Waiting) c).
Proof.
  intros [Hc Hb] _. split; [exact Hc|]. cbn [store_new buildCmd promises].
  rewrite existsb_app. cbn [existsb started]. now rewrite !orb_false_r.
Qed.

Lemma buildCmd_set_start (cfg : IConfig) (p : ref) (c c' : Cscope) :
  buildCmd_set cfg c -> start_build p c = Some c' -> buildCmd_set cfg c'.
Proof.
  intros [Hc Hb]. unfold start_build.
  destruct (promises c !! p) as [[v|cwd ps [| |r]]|] eqn:Hp; try discriminate.
  destruct (all_fulfilled _ _); [|discriminate]. intros [= <-].
  split; [exact Hc|].
  cbn [set_promise add_log set_buildCmd buildCmd promises].
  rewrite existsb_insert_true; [|eapply lookup_lt_Some, Hp|reflexivity].
  now rewrite Hc.
Qed.

Lemma buildCmd_set_settle (cfg : IConfig) (p : ref) (x : exit) (c c' : Cscope) :
  buildCmd_set cfg c -> settle_build p x c = Some c' -> buildCmd_set cfg c'.
Proof.
  intros [Hc Hb] Hs.
  destruct (settle_build_spec _ _ _ _ Hs) as (cwd & ps & Hp & Hh & _ & Hc' & _ & Hb').
  split; [congruence|]. rewrite Hb', Hb, Hh.
  rewrite (existsb_lookup_true started _ _ _ Hp eq_refl).
  rewrite existsb_insert_true; [reflexivity|eapply lookup_lt_Some, Hp|reflexivity].
Qed.

(** [getBuildCmd] tells whether a build process has been spawned: on a
    new object it is the empty string until the first build starts,
    whatever has been submitted or refused, and from then on it is the
    command line made of the configured tool, build arguments and
    database. *)
Theorem buildCmd_set_at_first_start (cfg : IConfig) (e : IEnv) (es : list Interleaved.event)
    (s : Interleaved.system) :
  Interleaved.run {| Interleaved.object := constructor cfg e; Interleaved.calls := [] |} es
  = Some s ->
  getBuildCmd (Interleaved.object s)
  = if existsb started (promises (Interleaved.object s)) then build_command cfg else ""%string.
Proof.
  intros Hrun.
  assert (H0 : buildCmd_set cfg (constructor cfg e)) by (split; reflexivity).
  exact (proj2 (interleaved_run_keeps (buildCmd_set cfg) (fun l c H => H)
                  (buildCmd_set_store cfg) (buildCmd_set_start cfg) (buildCmd_set_settle cfg)
                  es {| Interleaved.object := constructor cfg e; Interleaved.calls := [] |} s
                  (frames_ok_nil _) H0 Hrun)).
Qed.

Lemma buildCmd_set_at_first_start_witness :
  match Interleaved.run
          {| Interleaved.object := constructor Ex.cfg Ex.folders; Interleaved.calls := [] |}
          [Interleaved.Call "/ws/a"; Interleaved.Resume 0; Interleaved.Start 2] with
  | Some s => getBuildCmd (Interleaved.object s) = "cscope -RbU -f cscope.out"%string
  | None => False
  end.
Proof.
  destruct (Interleaved.run
              {| Interleaved.object := constructor Ex.cfg Ex.folders; Interleaved.calls := [] |}
              [Interleaved.Call "/ws/a"; Interleaved.Resume 0; Interleaved.Start 2])
    as [s|] eqn:Hrun; [|vm_compute in Hrun; discriminate Hrun].
  rewrite (buildCmd_set_at_first_start Ex.cfg Ex.folders _ s Hrun).
  vm_compute in Hrun. inversion Hrun; subst s. reflexivity.
Defined.

(** *** One [build] after another *)

Lemma clean_after (c' : Cscope) (n : ref) (others : list ref) (cwd : string) (ps : list ref)
    (v : string) :
  buildQueue c' = n :: others ->
  promises c' !! n = Some (Promise_build cwd ps (Settled (Fulfilled v))) ->
  (forall p, In p others ->
     exists pr v, promises c' !! p = Some pr /\ settlement_of pr = Some (Fulfilled v)) ->
  clean c'.
Proof.
  intros Hq Hn Ho. split; [rewrite Hq; discriminate|].
  intros p Hin. rewrite Hq in Hin. destruct Hin as [<-|Hin]; [eauto|now apply Ho].
Qed.







Lemma await_buildSingle_frame (l : spawned) (cwd : string) (c : Cscope) :
  env (fst (await_buildSingle l cwd c)) = env c /\
  List.length (buildQueue (fst (await_buildSingle l cwd c))) = List.length (buildQueue c).
Proof.
  unfold await_buildSingle.
  pose proof (step_spec c (fst (buildSingle cwd c)) (Submit cwd) eq_refl) as (Hl & _ & _ & _ & He).
  destruct (buildSingle cwd c) as [c1 [p|reason]]; cbn [fst] in *; [|auto].
  destruct (start_build p c1) as [c2|] eqn:Hs; cbn [fst]; [|auto].
  destruct (start_build_spec _ _ _ Hs) as (d & ps & _ & _ & _ & Hq2 & _ & He2).
  destruct l as [x|error]; cbn [fst]; [|split; congruence].
  destruct (settle_build p x c2) as [c3|] eqn:Hx; cbn [default from_option id].
  - destruct (settle_build_spec _ _ _ _ Hx) as (d' & ps' & _ & _ & Hq3 & _ & He3 & _).
    split; congruence.
  - split; congruence.
Qed.

Lemma failed_head_never (l : spawned) (cwd : string) (c : Cscope) :
  failed_head c -> snd (await_buildSingle l cwd c) = Never.
Proof.
  intros (n & others & Hq & Hr & _).
  exact (await_buildSingle_after_rejection l cwd c n others Hq Hr).
Qed.

Lemma pending_head_never (l : spawned) (cwd : string) (c : Cscope) :
  pending_head c -> snd (await_buildSingle l cwd c) = Never.
Proof.
  intros (m & r1 & others & Hq & Hm & Hr1). unfold await_buildSingle.
  destruct (buildSingle_cases cwd c)
    as [(_ & _ & _ & _ & _ & _ & _ & Hall)|(index & old & Hr & _ & _ & _ & _ & Hh & _)];
    cbv zeta in *.
  { rewrite Hq in Hall. specialize (Hall r1 (or_intror (or_introl eq_refl))). congruence. }
  destruct (buildSingle cwd c) as [c1 s]; simpl in *; subst s.
  unfold start_build. rewrite Hh, lookup_app_r, Nat.sub_diag by lia. cbn [lookup list_lookup].
  replace (all_fulfilled _ _) with false; [reflexivity|].
  symmetry. rewrite Hq. unfold all_fulfilled. cbn [forallb].
  now rewrite (pending_app _ _ _ Hm).
Qed.

(** The submission after a failed build is stored in the slot of that
    build, and stays there. *)
Lemma failed_head_next (l : spawned) (cwd : string) (c : Cscope) :
  failed_head c -> (2 <= List.length (buildQueue c))%nat ->
  pending_head (fst (await_buildSingle l cwd c)).
Proof.
  intros (n & others & Hq & Hr & Ho) Hlen.
  assert (Hn : is_Some (promises c !! n)).
  { unfold promiseState in Hr. destruct (promises c !! n); [eauto|discriminate]. }
  unfold await_buildSingle.
  destruct (buildSingle_cases cwd c)
    as [(_ & _ & _ & _ & _ & _ & _ & Hall)
       |(index & old & Hs & _ & _ & Hbefore & Hbq & Hh & _)];
    cbv zeta in *.
  { rewrite Hq in Hall. specialize (Hall n (or_introl eq_refl)). congruence. }
  assert (index = 0%nat) as ->.
  { destruct index as [|j]; [reflexivity|exfalso].
    rewrite Hq in Hbefore. specialize (Hbefore 0%nat n ltac:(lia) eq_refl). congruence. }
  destruct (buildSingle cwd c) as [c1 s]; cbn [fst snd] in *; subst s.
  assert (Hnone : start_build (List.length (promises c)) c1 = None).
  { unfold start_build. rewrite Hh, lookup_app_r, Nat.sub_diag by lia. cbn [lookup list_lookup].
    replace (all_fulfilled _ _) with false; [reflexivity|].
    symmetry. rewrite Hq. unfold all_fulfilled. cbn [forallb].
    replace (promiseState (promises c ++ _) n) with "rejected"%string; [reflexivity|].
    symmetry. eapply evolves_settled; [apply evolves_app|exact Hn|exact Hr|discriminate]. }
  rewrite Hnone. cbn [fst].
  rewrite Hq in Hbq, Hlen. cbn in Hbq, Hlen.
  destruct others as [|r1 others]; [cbn in Hlen; lia|].
  exists (List.length (promises c)), r1, others. rewrite Hh.
  split; [exact Hbq|]. split; [apply promiseState_new|].
  destruct (Ho r1 (or_introl eq_refl)) as (pr & v & Hp & Hv).
  unfold promiseState. rewrite (lookup_app_l_Some _ _ _ _ Hp), Hv. discriminate.
Qed.

(** After a build that failed, the head of the queue is a rejected
    promise, or a pending one that never settles: the promise of a
    build whose [cp.spawn] threw, or of a build that waits for a
    rejected one. *)
Lemma build_loop_after_failure (world : nat -> string -> spawned) (directories : list string) :
  forall i results c,
    clean c -> (2 <= List.length (buildQueue c))%nat ->
    (exists j dir, directories !! j = Some dir /\ ~ succeeds (world (i + j)%nat dir)) ->
    failed_head (fst (build_loop world i directories results c)) \/
    pending_head (fst (build_loop world i directories results c)).
Proof.
  induction directories as [|dir directories IH]; intros i results c Hc Hlen (j & d & Hj & Hfail).
  { discriminate. }
  cbn [build_loop].
  pose proof (await_buildSingle_frame (world i dir) dir c) as [_ Hlen1].
  destruct (await_buildSingle_clean (world i dir) dir c Hc)
    as (c' & n & others & Ha & Hq & Hn & Ho).
  rewrite Ha in Hlen1 |- *. cbn [fst] in Hlen1.
  destruct (world i dir) as [x|error] eqn:Hw.
  - rewrite on_exit_settlement in *.
    assert (Hcase : (exists v, snd (on_exit x) = Fulfilled v /\ succeeds (Process x))
                    \/ (exists r, snd (on_exit x) = Rejected r)).
    { rewrite on_exit_settlement.
      destruct x as [[[|k|k]|] out err|error]; cbn; eauto. }
    rewrite on_exit_settlement in Hcase.
    destruct Hcase as [(v & Hv & Hs)|(r & Hr)].
    + rewrite Hv in *. apply IH.
      * exact (clean_after c' n others _ _ _ Hq Hn Ho).
      * lia.
      * destruct j as [|j].
        -- cbn in Hj. inversion Hj; subst d. rewrite Nat.add_0_r, Hw in Hfail. contradiction.
        -- exists j, d. split; [exact Hj|]. now replace (S i + j)%nat with (i + S j)%nat by lia.
    + rewrite Hr in *.
      set (c1 := add_log _ c').
      assert (Hf : failed_head c1).
      { exists n, others. split; [exact Hq|]. split; [|exact Ho].
        unfold promiseState. cbn [c1 add_log promises]. now rewrite Hn. }
      destruct directories as [|dir2 directories]; [left; exact Hf|]. right.
      pose proof (failed_head_never (world (S i) dir2) dir2 c1 Hf) as Hnever.
      pose proof (failed_head_next (world (S i) dir2) dir2 c1 Hf
                    ltac:(cbn [c1 add_log buildQueue]; lia)) as Hnext.
      cbn [build_loop].
      destruct (await_buildSingle (world (S i) dir2) dir2 c1) as [c2 k].
      cbn [fst snd] in *. subst k. exact Hnext.
  - right. cbn [fst].
    destruct others as [|r1 others]; [rewrite Hq in Hlen1; cbn in Hlen1; lia|].
    exists n, r1, others. split; [exact Hq|]. split.
    + unfold promiseState. now rewrite Hn.
    + destruct (Ho r1 (or_introl eq_refl)) as (pr & v & Hp & Hv).
      unfold promiseState. rewrite Hp, Hv. discriminate.
Qed.

Lemma build_loop_env (world : nat -> string -> spawned) (directories : list string) :
  forall i results c, env (fst (build_loop world i directories results c)) = env c.
Proof.
  induction directories as [|dir directories IH]; intros i results c; cbn [build_loop];
    [reflexivity|].
  pose proof (await_buildSingle_frame (world i dir) dir c) as [He _].
  destruct (await_buildSingle (world i dir) dir c) as [c1 [v|err|]]; cbn [fst] in *.
  - now rewrite IH.
  - now rewrite IH.
  - exact He.
Qed.

(** A failed build disables the object.  When a process of a [build]
    fails, the next [build] never returns, whatever its processes would
    do: the failed build has left a rejected promise in the queue, or a
    build that waits for one. *)
Theorem build_after_failed_build_never_returns (world world' : nat -> string -> spawned)
    (c : Cscope) :
  clean c -> (2 <= List.length (buildQueue c))%nat ->
  (exists j dir, getAllDirectories (env c) !! j = Some dir /\ ~ succeeds (world j dir)) ->
  snd (build world' (fst (build world c))) = Never.
Proof.
  intros Hc Hlen Hfail.
  assert (Henv : env (fst (build world c)) = env c).
  { unfold build. now rewrite build_loop_env. }
  assert (Hstate : failed_head (fst (build world c)) \/ pending_head (fst (build world c))).
  { unfold build. apply build_loop_after_failure; [exact Hc|exact Hlen|exact Hfail]. }
  unfold build at 1. rewrite Henv.
  destruct Hfail as (j & d & Hj & _).
  destruct (getAllDirectories (env c)) as [|dir directories]; [discriminate|].
  apply build_loop_never_first.
  destruct Hstate as [H|H]; [now apply failed_head_never|now apply pending_head_never].
Qed.

Lemma build_after_failed_build_never_returns_witness :
  snd (build (fun _ _ => Process (Exit (Some 0) "done " ""))
         (fst (build Ex.b_fails (constructor Ex.cfg Ex.folders)))) = Never.
Proof.
  apply (build_after_failed_build_never_returns Ex.b_fails (fun _ _ => Process (Exit (Some 0) "done " ""))
           (constructor Ex.cfg Ex.folders) (constructor_clean Ex.cfg Ex.folders)).
  - cbn. lia.
  - exists 1%nat, "/ws/b"%string. split; [reflexivity|]. intros H. exact H.
Defined.

(** *** The detail of an item *)

(** What the call hierarchy shows for a result in a file of the
    workspace, on a POSIX host whose workspace root is an absolute
    path.  For a line whose file name is relative, is a path that needs
    no normalising and gives a full path that [Uri.file] keeps as it is
    (it names neither a share nor a drive), the detail of the item is
    that file name, then the line number counted from 0 (one less than
    the number of the line), then the column of the highlight. *)
Theorem detail_of_workspace_file (root : string) (docs : list (string * list string))
    (search : string -> string -> SearchResult)
    (q : CscopeQuery) (f g n r : string) (it : CscopeItem) :
  Posix.isAbsolute root = true -> f <> ""%string -> Posix.isAbsolute f = false ->
  Posix.normalize (root +:+ "/" +:+ f) = root +:+ "/" +:+ f ->
  Uri_file_fsPath (root +:+ "/" +:+ f) = root +:+ "/" +:+ f ->
  no_space f -> no_space g -> no_space n ->
  setResults_line (posix_host (Some root) docs search) q
    (f +:+ " " +:+ g +:+ " " +:+ n +:+ " " +:+ r)
  = Pushed it ->
  exists k,
    JS.parseInt n = Some k /\
    detail it = f +:+ ":" +:+ JS.toString (k - 1) +:+ ":" +:+ JS.toString (getColumnNumber it).
Proof.
  intros Hroot Hf Hrel Hnorm Hfs Hsf Hsg Hsn.
  set (h := posix_host (Some root) docs search).
  unfold setResults_line. destruct (JS.length _ <? 3); [discriminate|].
  rewrite (fields_of_line h f g n r Hsf Hsg Hsn).
  assert (Hfull : getFullPath h f = root +:+ "/" +:+ f).
  { unfold getFullPath. cbn [h path_isAbsolute posix_host workspace_rootPath path_posix_join].
    rewrite Hrel. destruct root as [|c0 root]; [discriminate|]. cbn [truthy default].
    unfold Posix.join.
    change (String.eqb (String c0 root) "") with false. cbv iota.
    destruct (String.eqb_spec f "") as [->|_]; [contradiction|].
    rewrite str_app_cons in *.
    change (String.eqb (String c0 (root +:+ "/" +:+ f)) "") with false. cbv iota.
    exact Hnorm. }
  rewrite Hfull.
  destruct (resolve h q (root +:+ "/" +:+ f) g (JS.minus1 (JS.parseInt n)) r) as [it'|] eqn:Hr;
    [|discriminate].
  intros [= <-].
  destruct (resolve_item _ _ _ _ _ _ _ Hr) as (doc & k & txt & _ & Hk & _ & Hit).
  destruct (JS.parseInt n) as [k0|]; [|discriminate]. cbn in Hk. inversion Hk; subst k.
  exists k0. split; [reflexivity|].
  assert (Hslice : JS.slice (root +:+ "/" +:+ f) (JS.length root + 1) None = f).
  { pose proof (slice_tail (root +:+ "/") f) as H.
    rewrite str_app_assoc_string in H. rewrite <- H at 2. f_equal.
    rewrite str_length_app. unfold JS.length. cbn. lia. }
  destruct root as [|c0 root]; [discriminate|].
  destruct Hit as [(i & _ & ->)|(_ & ->)].
  all: cbn [detail new_CscopeItem getColumnNumber range start line character new_Range h
            workspace_rootPath posix_host truthy default from_option id fsPath Uri_fsPath].
  all: now rewrite Hfs, Hslice.
Qed.

Lemma detail_of_workspace_file_witness :
  exists k,
    JS.parseInt "7" = Some k /\
    detail (new_CscopeItem Ex.host (Uri_file "/ws/a.c") "f" (new_Range 6 0 6 1) "f(x);" "f(x);")
    = ("a.c" +:+ ":" +:+ JS.toString (k - 1) +:+ ":"
       +:+ JS.toString (getColumnNumber
                          (new_CscopeItem Ex.host (Uri_file "/ws/a.c") "f" (new_Range 6 0 6 1)
                             "f(x);" "f(x);")))%string.
Proof.
  exact (detail_of_workspace_file "/ws" Ex.docs (fun _ _ => NotFound)
           (new_CscopeQuery "symbol" "f")
           "a.c" "f" "7" "f(x);" _ eq_refl ltac:(discriminate)
           eq_refl eq_refl eq_refl eq_refl eq_refl eq_refl eq_refl).
Defined.

(** Under a workspace root that is a relative path the detail keeps a
    slash: [Uri.file] has put one before the full path, and the offset
    is taken from the root as configured. *)
Example detail_under_relative_root :
  detail (new_CscopeItem (posix_host (Some "ws") [] (fun _ _ => NotFound))
            (Uri_file "ws/a.c") "f" (new_Range 0 0 0 1) "f(x);" "f(x);")
  = "/a.c:0:0"%string.
Proof. reflexivity. Qed.

(** *** [build] on a full queue *)

Lemma await_buildSingle_full (l : spawned) (cwd : string) (c : Cscope) :
  all_pending c ->
  snd (await_buildSingle l cwd c) = Thrown "queue full" /\
  buildQueue (fst (await_buildSingle l cwd c)) = buildQueue c /\
  promises (fst (await_buildSingle l cwd c)) = promises c /\
  buildCmd (fst (await_buildSingle l cwd c)) = buildCmd c.
Proof.
  intros Hall. unfold await_buildSingle.
  destruct (buildSingle_cases cwd c)
    as [(Hr & Hq & Hp & Hb & _)|(index & old & _ & Hold & Hnp & _)]; cbv zeta in *.
  - destruct (buildSingle cwd c) as [c1 s]; cbn [fst snd] in *; subst s. cbn [fst snd]. auto.
  - exfalso. apply Hnp, Hall, list_elem_of_In. eapply list_elem_of_lookup_2, Hold.
Qed.

Lemma build_loop_full (world : nat -> string -> spawned) (directories : list string) :
  forall i results c,
    all_pending c ->
    snd (build_loop world i directories results c)
    = Returned (JS.join JS.LF (results ++ map (fun _ => "Error: queue full"%string) directories)) /\
    buildQueue (fst (build_loop world i directories results c)) = buildQueue c /\
    promises (fst (build_loop world i directories results c)) = promises c /\
    buildCmd (fst (build_loop world i directories results c)) = buildCmd c.
Proof.
  induction directories as [|dir directories IH]; intros i results c Hall; cbn [build_loop map].
  - now rewrite app_nil_r.
  - destruct (await_buildSingle_full (world i dir) dir c Hall) as (Hr & Hq & Hp & Hb).
    destruct (await_buildSingle (world i dir) dir c) as [c1 k]; cbn [fst snd] in *; subst k.
    set (c2 := add_log _ c1).
    assert (Hall2 : all_pending c2).
    { intros p Hin. cbn [c2 add_log buildQueue promises] in *. rewrite Hp. apply Hall.
      now rewrite <- Hq. }
    destruct (IH (S i) (results ++ ["Error: " +:+ "queue full"]) c2 Hall2) as (Hr' & Hq' & Hp' & Hb').
    rewrite Hr', Hq', Hp', Hb', <- app_assoc. repeat split; assumption.
Qed.

(** A [build] called while every slot holds a pending promise builds
    nothing and returns at once: its report is [Error: queue full] for
    each directory, and the queue, the promises and the build command
    are as before. *)
Theorem build_on_full_queue (world : nat -> string -> spawned) (c : Cscope) :
  all_pending c ->
  snd (build world c)
  = Returned (JS.join JS.LF (map (fun _ => "Error: queue full"%string)
                               (getAllDirectories (env c)))) /\
  buildQueue (fst (build world c)) = buildQueue c /\
  promises (fst (build world c)) = promises c /\
  getBuildCmd (fst (build world c)) = getBuildCmd c.
Proof.
  intros Hall. unfold build, getBuildCmd. set (c0 := add_log _ c).
  exact (build_loop_full world (getAllDirectories (env c)) 0 [] c0 Hall).
Qed.

Lemma build_on_full_queue_witness :
  snd (build Ex.a_fails Ex.two_submitted)
  = Returned (JS.join JS.LF (map (fun _ => "Error: queue full"%string)
                               (getAllDirectories (env Ex.two_submitted)))) /\
  buildQueue (fst (build Ex.a_fails Ex.two_submitted)) = buildQueue Ex.two_submitted /\
  promises (fst (build Ex.a_fails Ex.two_submitted)) = promises Ex.two_submitted /\
  getBuildCmd (fst (build Ex.a_fails Ex.two_submitted)) = getBuildCmd Ex.two_submitted.
Proof.
  apply (build_on_full_queue Ex.a_fails Ex.two_submitted).
  intros p [<-|[<-|[]]]; reflexivity.
Defined.
